(** * The MDS open file table (src/mds/OpenFileTable.cc)

    A shallow embedding of [OpenFileTable]: the reference-counted anchor
    map with its dirty set, the commit planner, the loader, the two-phase
    prefetch driver and the [should_log_open] predicate, followed by the
    properties of the specification that are stated about them.

    Conventions.
    - [inodeno_t] and the 64-bit log sequence numbers are [N]; ranks, error
      codes and reference counts are [Z].
    - [std::map] is a [gmap]; where the code iterates a map the model walks
      its entries in ascending key order.
    - A failed [assert] (or a null dereference) aborts the MDS: the
      reference engine and the commit planner return [None] there, the
      loader and the prefetch driver [Abort].
    - Counters ([nref], [num_opening_inodes], [num_pending_commit]) are
      unbounded integers; [write_size], an [unsigned], wraps at 32 bits. *)

From Stdlib Require Import ZArith NArith Lia Ascii String.
From stdpp Require Import base option list gmap sets strings sorting.

#[local] Set Warnings "-clear-no-such-hyp".
Local Open Scope Z_scope.

(** ** Data model *)

Definition inodeno_t := N.
Bind Scope N_scope with inodeno_t.
Definition mds_rank_t := Z.
Definition bufferlist := list Byte.byte.

(** Modelled from the spec: the rank constant [MDS_RANK_NONE] (mdstypes.h is
    not part of the sources): the "unknown" authority sentinel. *)
Definition MDS_RANK_NONE : mds_rank_t := -1.

(** Modelled from the spec: the dirent type tag of a directory ([DT_DIR] of
    dirent.h), the value that tells directories from non-directories. *)
Definition DT_DIR : N := 4%N.

(** Modelled from the spec: [DIRTY_NEW] (OpenFileTable.h is not part of the
    sources) is the only flag of a dirty entry, one bit. *)
Definition DIRTY_NEW : Z := 1.

Module Anchor.
(** Modelled from the spec: [struct Anchor] (Anchor.h is not part of the
    sources), with the fields the spec lists. *)
Record t : Type := mk {
  ino : inodeno_t;
  dirino : inodeno_t;
  d_name : string;
  d_type : N;
  nref : Z;
  auth : mds_rank_t;
}.

Definition set_nref (n : Z) (a : t) : t :=
  mk (ino a) (dirino a) (d_name a) (d_type a) n (auth a).
Definition set_auth (r : mds_rank_t) (a : t) : t :=
  mk (ino a) (dirino a) (d_name a) (d_type a) (nref a) r.
Definition set_parent (d : inodeno_t) (n : string) (a : t) : t :=
  mk (ino a) d n (d_type a) (nref a) (auth a).

(** The five-argument constructor used by [get_ref]; [auth] starts
    unknown. *)
Definition make (i d : inodeno_t) (n : string) (ty : N) (r : Z) : t :=
  mk i d n ty r MDS_RANK_NONE.

(** The default-constructed anchor the loader decodes into. *)
Definition default : t := mk 0%N 0%N "" 0%N 0 MDS_RANK_NONE.

(** Modelled from the spec: [operator==] on anchors (Anchor.h).  Two
    anchors are equal when their persisted image is: [nref] and [auth]
    are not persisted and do not take part. *)
Definition eqb (l r : t) : bool :=
  bool_decide (ino l = ino r) && bool_decide (dirino l = dirino r)
  && bool_decide (d_name l = d_name r) && bool_decide (d_type l = d_type r).
End Anchor.

(** The part of an in-memory inode the table looks at: its number, its type,
    the sequence at which it was last journaled, and its primary parent
    dentry (name and directory inode), if it is linked. *)
#[local] Unset Elimination Schemes.
Inductive CInode : Type :=
  | mk_CInode (ino : inodeno_t) (d_type : N) (last_journaled : N)
              (parent_dn : option (string * CInode)).
#[local] Set Elimination Schemes.

Module Inode.
Definition ino (i : CInode) : inodeno_t :=
  match i with mk_CInode n _ _ _ => n end.
Definition d_type (i : CInode) : N :=
  match i with mk_CInode _ t _ _ => t end.
Definition last_journaled (i : CInode) : N :=
  match i with mk_CInode _ _ s _ => s end.
Definition get_parent_dn (i : CInode) : option (string * CInode) :=
  match i with mk_CInode _ _ _ dn => dn end.
(** [in->is_dir()]: the inode's mode is a directory's, which is what its
    dirent type [in->d_type()] says. *)
Definition is_dir (i : CInode) : bool := bool_decide (d_type i = DT_DIR).

(** The inode numbers met when climbing from [i] to the top. *)
Fixpoint chain (i : CInode) : list inodeno_t :=
  match i with
  | mk_CInode n _ _ None => [n]
  | mk_CInode n _ _ (Some (_, pin)) => n :: chain pin
  end.
End Inode.

(** Completion contexts.  A context of a caller is opaque, only its firing is
    recorded; the other one is the closure [prefetch_inodes] registers as a
    load waiter. *)
Inductive Context : Type :=
  | C_Caller (id : nat)
  | C_Prefetch.

Inductive prefetch_state_t : Type := IDLE | DIR_INODES | FILE_INODES | DONE.

Global Instance prefetch_state_eq_dec : EqDecision prefetch_state_t.
Proof. solve_decision. Defined.

(** The table, together with the state of its collaborators that its methods
    read and write: the [STATE_TRACKEDBYOFT] flag of the inodes (kept by
    inode number) and the log of completions handed to callers. *)
Record OpenFileTable : Type := mk_OFT {
  anchor_map : gmap inodeno_t Anchor.t;
  dirty_items : gmap inodeno_t Z;
  loaded_anchor_map : gmap inodeno_t Anchor.t;
  committed_log_seq : N;
  committing_log_seq : N;
  num_pending_commit : Z;
  clear_on_commit : bool;
  load_done : bool;
  waiting_for_load : list Context;
  prefetch_state : prefetch_state_t;
  num_opening_inodes : Z;
  waiting_for_prefetch : list Context;
  tracked_by_oft : gset inodeno_t;
  completed : list (nat * Z);
}.

Definition empty_table : OpenFileTable :=
  mk_OFT ∅ ∅ ∅ 0%N 0%N 0 false false [] IDLE 0 [] ∅ [].

Section setters.
Context (st : OpenFileTable).
Definition set_anchor_map v := mk_OFT v (dirty_items st) (loaded_anchor_map st)
  (committed_log_seq st) (committing_log_seq st) (num_pending_commit st)
  (clear_on_commit st) (load_done st) (waiting_for_load st) (prefetch_state st)
  (num_opening_inodes st) (waiting_for_prefetch st) (tracked_by_oft st) (completed st).
Definition set_dirty_items v := mk_OFT (anchor_map st) v (loaded_anchor_map st)
  (committed_log_seq st) (committing_log_seq st) (num_pending_commit st)
  (clear_on_commit st) (load_done st) (waiting_for_load st) (prefetch_state st)
  (num_opening_inodes st) (waiting_for_prefetch st) (tracked_by_oft st) (completed st).
Definition set_loaded_anchor_map v := mk_OFT (anchor_map st) (dirty_items st) v
  (committed_log_seq st) (committing_log_seq st) (num_pending_commit st)
  (clear_on_commit st) (load_done st) (waiting_for_load st) (prefetch_state st)
  (num_opening_inodes st) (waiting_for_prefetch st) (tracked_by_oft st) (completed st).
Definition set_committed_log_seq v := mk_OFT (anchor_map st) (dirty_items st)
  (loaded_anchor_map st) v (committing_log_seq st) (num_pending_commit st)
  (clear_on_commit st) (load_done st) (waiting_for_load st) (prefetch_state st)
  (num_opening_inodes st) (waiting_for_prefetch st) (tracked_by_oft st) (completed st).
Definition set_committing_log_seq v := mk_OFT (anchor_map st) (dirty_items st)
  (loaded_anchor_map st) (committed_log_seq st) v (num_pending_commit st)
  (clear_on_commit st) (load_done st) (waiting_for_load st) (prefetch_state st)
  (num_opening_inodes st) (waiting_for_prefetch st) (tracked_by_oft st) (completed st).
Definition set_num_pending_commit v := mk_OFT (anchor_map st) (dirty_items st)
  (loaded_anchor_map st) (committed_log_seq st) (committing_log_seq st) v
  (clear_on_commit st) (load_done st) (waiting_for_load st) (prefetch_state st)
  (num_opening_inodes st) (waiting_for_prefetch st) (tracked_by_oft st) (completed st).
Definition set_clear_on_commit v := mk_OFT (anchor_map st) (dirty_items st)
  (loaded_anchor_map st) (committed_log_seq st) (committing_log_seq st)
  (num_pending_commit st) v (load_done st) (waiting_for_load st) (prefetch_state st)
  (num_opening_inodes st) (waiting_for_prefetch st) (tracked_by_oft st) (completed st).
Definition set_load_done v := mk_OFT (anchor_map st) (dirty_items st)
  (loaded_anchor_map st) (committed_log_seq st) (committing_log_seq st)
  (num_pending_commit st) (clear_on_commit st) v (waiting_for_load st) (prefetch_state st)
  (num_opening_inodes st) (waiting_for_prefetch st) (tracked_by_oft st) (completed st).
Definition set_waiting_for_load v := mk_OFT (anchor_map st) (dirty_items st)
  (loaded_anchor_map st) (committed_log_seq st) (committing_log_seq st)
  (num_pending_commit st) (clear_on_commit st) (load_done st) v (prefetch_state st)
  (num_opening_inodes st) (waiting_for_prefetch st) (tracked_by_oft st) (completed st).
Definition set_prefetch_state v := mk_OFT (anchor_map st) (dirty_items st)
  (loaded_anchor_map st) (committed_log_seq st) (committing_log_seq st)
  (num_pending_commit st) (clear_on_commit st) (load_done st) (waiting_for_load st) v
  (num_opening_inodes st) (waiting_for_prefetch st) (tracked_by_oft st) (completed st).
Definition set_num_opening_inodes v := mk_OFT (anchor_map st) (dirty_items st)
  (loaded_anchor_map st) (committed_log_seq st) (committing_log_seq st)
  (num_pending_commit st) (clear_on_commit st) (load_done st) (waiting_for_load st)
  (prefetch_state st) v (waiting_for_prefetch st) (tracked_by_oft st) (completed st).
Definition set_waiting_for_prefetch v := mk_OFT (anchor_map st) (dirty_items st)
  (loaded_anchor_map st) (committed_log_seq st) (committing_log_seq st)
  (num_pending_commit st) (clear_on_commit st) (load_done st) (waiting_for_load st)
  (prefetch_state st) (num_opening_inodes st) v (tracked_by_oft st) (completed st).
Definition set_tracked_by_oft v := mk_OFT (anchor_map st) (dirty_items st)
  (loaded_anchor_map st) (committed_log_seq st) (committing_log_seq st)
  (num_pending_commit st) (clear_on_commit st) (load_done st) (waiting_for_load st)
  (prefetch_state st) (num_opening_inodes st) (waiting_for_prefetch st) v (completed st).
Definition set_completed v := mk_OFT (anchor_map st) (dirty_items st)
  (loaded_anchor_map st) (committed_log_seq st) (committing_log_seq st)
  (num_pending_commit st) (clear_on_commit st) (load_done st) (waiting_for_load st)
  (prefetch_state st) (num_opening_inodes st) (waiting_for_prefetch st)
  (tracked_by_oft st) v.
End setters.

(** [in->state_test(CInode::STATE_TRACKEDBYOFT)] *)
Definition state_test (i : CInode) (st : OpenFileTable) : bool :=
  bool_decide (Inode.ino i ∈ tracked_by_oft st).

(** [std::map::emplace]: inserts only when the key is absent. *)
Definition emplace {V} (k : inodeno_t) (v : V) (m : gmap inodeno_t V) : gmap inodeno_t V :=
  match m !! k with
  | Some _ => m
  | None => <[k := v]> m
  end.

(** ** The reference engine *)

(** One turn of the [do ... while (in)] loop per inode of the parent chain. *)
Fixpoint get_ref (i : CInode) (st : OpenFileTable) : option OpenFileTable :=
  match i with
  | mk_CInode n ty _ dn =>
    match anchor_map st !! n with
    | Some a =>
        if negb (bool_decide (n ∈ tracked_by_oft st)) then None
        else if negb (0 <? Anchor.nref a) then None
        else Some (set_anchor_map st
                     (<[n := Anchor.set_nref (Anchor.nref a + 1) a]> (anchor_map st)))
    | None =>
        let pino := match dn with Some (_, pin) => Inode.ino pin | None => 0%N end in
        let name := match dn with Some (nm, _) => nm | None => "" end in
        let st1 := set_anchor_map st
                     (<[n := Anchor.make n pino name ty 1]> (anchor_map st)) in
        let st2 := set_tracked_by_oft st1 ({[n]} ∪ tracked_by_oft st1) in
        let st3 := set_dirty_items st2 (emplace n DIRTY_NEW (dirty_items st2)) in
        match dn with
        | Some (_, pin) => get_ref pin st3
        | None => Some st3
        end
    end
  end.

Fixpoint put_ref (i : CInode) (st : OpenFileTable) : option OpenFileTable :=
  match i with
  | mk_CInode n ty _ dn =>
    if negb (bool_decide (n ∈ tracked_by_oft st)) then None
    else match anchor_map st !! n with
    | None => None
    | Some a =>
        if negb (0 <? Anchor.nref a) then None
        else if 1 <? Anchor.nref a then
          Some (set_anchor_map st
                  (<[n := Anchor.set_nref (Anchor.nref a - 1) a]> (anchor_map st)))
        else
          let matches :=
            match dn with
            | Some (nm, pin) =>
                bool_decide (Anchor.dirino a = Inode.ino pin)
                && bool_decide (Anchor.d_name a = nm)
            | None =>
                bool_decide (Anchor.dirino a = 0%N)
                && bool_decide (Anchor.d_name a = "")
            end in
          if negb matches then None
          else
            let st1 := set_anchor_map st (delete n (anchor_map st)) in
            let st2 := set_tracked_by_oft st1 (tracked_by_oft st1 ∖ {[n]}) in
            let dirty :=
              match dirty_items st2 !! n with
              | None => <[n := 0]> (dirty_items st2)
              | Some f =>
                  if bool_decide (Z.land f DIRTY_NEW ≠ 0)
                  then delete n (dirty_items st2)
                  else dirty_items st2
              end in
            let st3 := set_dirty_items st2 dirty in
            match dn with
            | Some (_, pin) => put_ref pin st3
            | None => Some st3
            end
    end
  end.

Definition add_inode (i : CInode) (st : OpenFileTable) : option OpenFileTable :=
  if negb (Inode.is_dir i) && bool_decide (is_Some (anchor_map st !! Inode.ino i))
  then None
  else get_ref i st.

Definition remove_inode (i : CInode) (st : OpenFileTable) : option OpenFileTable :=
  let ok :=
    Inode.is_dir i ||
    match anchor_map st !! Inode.ino i with
    | Some a => bool_decide (Anchor.nref a = 1)
    | None => false
    end in
  if negb ok then None else put_ref i st.

Definition notify_link (i : CInode) (st : OpenFileTable) : option OpenFileTable :=
  match anchor_map st !! Inode.ino i with
  | None => None
  | Some a =>
      if negb (0 <? Anchor.nref a) then None
      else if negb (bool_decide (Anchor.dirino a = 0%N)) then None
      else if negb (bool_decide (Anchor.d_name a = "")) then None
      else match Inode.get_parent_dn i with
      | None => None
      | Some (nm, pin) =>
          let st1 := set_anchor_map st
            (<[Inode.ino i := Anchor.set_parent (Inode.ino pin) nm a]> (anchor_map st)) in
          let st2 := set_dirty_items st1 (emplace (Inode.ino i) 0 (dirty_items st1)) in
          get_ref pin st2
      end
  end.

Definition notify_unlink (i : CInode) (st : OpenFileTable) : option OpenFileTable :=
  match anchor_map st !! Inode.ino i with
  | None => None
  | Some a =>
      if negb (0 <? Anchor.nref a) then None
      else match Inode.get_parent_dn i with
      | None => None
      | Some (nm, pin) =>
          if negb (bool_decide (Anchor.dirino a = Inode.ino pin)) then None
          else if negb (bool_decide (Anchor.d_name a = nm)) then None
          else
            let st1 := set_anchor_map st
              (<[Inode.ino i := Anchor.set_parent 0%N "" a]> (anchor_map st)) in
            let st2 := set_dirty_items st1 (emplace (Inode.ino i) 0 (dirty_items st1)) in
            put_ref pin st2
      end
  end.

(** ** [should_log_open] *)

Definition should_log_open (i : CInode) (st : OpenFileTable) : bool :=
  if state_test i st then
    if (committing_log_seq st <=? Inode.last_journaled i)%N then false
    else match dirty_items st !! Inode.ino i with
         | None => false
         | Some _ => true
         end
  else true.

(** ** The commit planner *)

(** What the table needs from the encoding layer and from libc.  None of it
    is defined in OpenFileTable.cc, so it is taken as given. *)
Class Encoding : Type := {
  (** [encode(const Anchor&, bufferlist&)] *)
  encode_anchor : Anchor.t → bufferlist;
  (** [decode(Anchor&, bufferlist::iterator&)], decoding into an existing
      anchor; [None] when it throws [buffer::error]. *)
  decode_anchor : bufferlist → Anchor.t → option Anchor.t;
  (** [decode(uint64_t&, bufferlist::iterator&)]; [None] when it throws. *)
  decode_u64 : bufferlist → option N;
  (** [sscanf(s, "%llx", &v)]; [None] when nothing is converted. *)
  sscanf_llx : string → option N;
}.

Definition wrap32 (z : Z) : Z := z mod 2 ^ 32.

Definition hex_digit (d : N) : Ascii.ascii :=
  match d with
  | 0 => "0" | 1 => "1" | 2 => "2" | 3 => "3" | 4 => "4" | 5 => "5"
  | 6 => "6" | 7 => "7" | 8 => "8" | 9 => "9" | 10 => "a" | 11 => "b"
  | 12 => "c" | 13 => "d" | 14 => "e" | _ => "f"
  end%N%char.

Fixpoint to_hex (fuel : nat) (n : N) (acc : string) : string :=
  match fuel with
  | O => acc
  | S f =>
      let acc' := String (hex_digit (n mod 16)) acc in
      if (n / 16 =? 0)%N then acc' else to_hex f (n / 16)%N acc'
  end.

(** [snprintf(key, sizeof(key), "%llx", (unsigned long long)v)]: at most 16
    digits, so the 32-byte buffer never truncates; the returned length is
    the length of the string. *)
Definition snprintf_llx (v : inodeno_t) : string :=
  to_hex 16 (v mod 2 ^ 64)%N "".

(** One object operation handed to [Objecter::mutate].  [op_set] and [op_rm]
    hold the arguments of [omap_set] and [omap_rm_keys]; an empty one means
    the call was not issued. *)
Record ObjectOperation : Type := mk_op {
  op_priority : Z;
  op_omap_clear : bool;
  op_header : option N;
  op_set : gmap string bufferlist;
  op_rm : gset string;
}.

(** The locals of [commit] that its [commit_func] lambda captures by
    reference, with the operations submitted so far. *)
Record commit_locals : Type := mk_locals {
  cl_first : bool;
  cl_write_size : Z;
  cl_to_update : gmap string bufferlist;
  cl_to_remove : gset string;
  cl_submitted : list ObjectOperation;
}.

Definition key_le {V} (x y : inodeno_t * V) : Prop := (x.1 ≤ y.1)%N.

Global Instance key_le_dec {V} : RelDecision (@key_le V).
Proof. intros x y. unfold key_le. apply _. Defined.

(** The entries of a [std::map<inodeno_t, V>] in iteration order. *)
Definition entries {V} (m : gmap inodeno_t V) : list (inodeno_t * V) :=
  merge_sort key_le (map_to_list m).

Section commit.
Context `{Encoding}.
Context (log_seq : N) (op_prio : Z) (max_write_size : Z).

Definition commit_func (last : bool) (s : OpenFileTable * commit_locals)
    : OpenFileTable * commit_locals :=
  let '(st, l) := s in
  let header :=
    if last then Some log_seq
    else if cl_first l then Some 0%N
    else None in
  let op := mk_op op_prio (clear_on_commit st) header
                  (cl_to_update l) (cl_to_remove l) in
  (set_clear_on_commit st false,
   mk_locals false 0 ∅ ∅ (cl_submitted l ++ [op])).

Definition flush_if_full (s : OpenFileTable * commit_locals)
    : OpenFileTable * commit_locals :=
  if max_write_size <=? cl_write_size s.2 then commit_func false s else s.

(** The body of the loop over [dirty_items]. *)
Definition commit_dirty_item (first_commit : bool)
    (s : OpenFileTable * commit_locals) (it : inodeno_t * Z)
    : OpenFileTable * commit_locals :=
  let '(st, l) := s in
  let p := anchor_map st !! it.1 in
  let q := if first_commit then loaded_anchor_map st !! it.1 else None in
  let same :=
    match q, p with
    | Some qa, Some pa => Anchor.eqb pa qa
    | _, _ => false
    end in
  let st1 :=
    match q with
    | Some _ => set_loaded_anchor_map st (delete it.1 (loaded_anchor_map st))
    | None => st
    end in
  if same then (st1, l)
  else
    let key := snprintf_llx it.1 in
    let ws := wrap32 (cl_write_size l + Z.of_nat (String.length key) + 4) in
    let l1 :=
      match p with
      | Some pa =>
          let bl := encode_anchor pa in
          mk_locals (cl_first l) (wrap32 (ws + Z.of_nat (length bl) + 4))
                    (<[key := bl]> (cl_to_update l)) (cl_to_remove l)
                    (cl_submitted l)
      | None =>
          mk_locals (cl_first l) ws (cl_to_update l)
                    ({[key]} ∪ cl_to_remove l) (cl_submitted l)
      end in
    flush_if_full (st1, l1).

(** The body of the loop over what is left of [loaded_anchor_map]. *)
Definition commit_loaded_item (s : OpenFileTable * commit_locals)
    (it : inodeno_t * Anchor.t) : OpenFileTable * commit_locals :=
  let '(st, l) := s in
  let key := snprintf_llx it.1 in
  let ws := wrap32 (cl_write_size l + Z.of_nat (String.length key) + 4) in
  flush_if_full
    (st, mk_locals (cl_first l) ws (cl_to_update l)
                   ({[key]} ∪ cl_to_remove l) (cl_submitted l)).

(** [commit]: the new state, the operations submitted through the gather
    in submission order, and the completion the gather fires when all of
    them are acknowledged ([C_IO_OFT_Save(this, log_seq, c)]). *)
Definition commit (c : option Context) (st : OpenFileTable)
    : option (OpenFileTable * list ObjectOperation * (N * option Context)) :=
  if (log_seq <? committing_log_seq st)%N then None
  else
    let st0 := set_committing_log_seq st log_seq in
    let first_commit := negb (bool_decide (loaded_anchor_map st0 = ∅)) in
    let s1 := foldl (commit_dirty_item first_commit)
                    (st0, mk_locals true 0 ∅ ∅ []) (entries (dirty_items st0)) in
    let s2 := (set_dirty_items s1.1 ∅, s1.2) in
    let s3 :=
      if first_commit then
        let s := foldl commit_loaded_item s2 (entries (loaded_anchor_map s2.1)) in
        (set_loaded_anchor_map s.1 ∅, s.2)
      else s2 in
    let s4 := commit_func true s3 in
    let st5 := set_num_pending_commit s4.1 (num_pending_commit s4.1 + 1) in
    Some (st5, cl_submitted s4.2, (log_seq, c)).
End commit.

(** [_commit_finish]; a write error is handed to the MDS and leaves the table
    as it is. *)
Definition _commit_finish (r : Z) (log_seq : N) (fin : option Context)
    (st : OpenFileTable) : option OpenFileTable :=
  if r <? 0 then Some st
  else if negb (log_seq <=? committing_log_seq st)%N then None
  else if negb (committed_log_seq st <=? log_seq)%N then None
  else
    let st1 := set_committed_log_seq st log_seq in
    let st2 := set_num_pending_commit st1 (num_pending_commit st1 - 1) in
    match fin with
    | Some (C_Caller id) => Some (set_completed st2 (completed st2 ++ [(id, r)]))
    | _ => Some st2
    end.

(** ** Results of code that can abort or call itself back *)

(** [Abort] is a failed [assert]; [OutOfFuel] is the model giving up on a
    chain of nested calls, never a behaviour of the code. *)
Inductive result (A : Type) : Type :=
  | Ok (a : A)
  | Abort
  | OutOfFuel.
Arguments Ok {A} a.
Arguments Abort {A}.
Arguments OutOfFuel {A}.

Definition rbind {A B} (m : result A) (f : A → result B) : result B :=
  match m with
  | Ok a => f a
  | Abort => Abort
  | OutOfFuel => OutOfFuel
  end.

Notation "x ←r m ; k" := (rbind m (λ x, k))
  (at level 20, m at level 100, k at level 200, right associativity).

(** A [for] loop over [l] whose body can abort: the state is threaded
    through the elements in order, and an abort ends the loop. *)
Fixpoint rfold {A B} (body : B → A → result B) (l : list A) (b : B) : result B :=
  match l with
  | [] => Ok b
  | a :: l => b' ←r body b a; rfold body l b'
  end.

(** ** The prefetch driver *)

(** What the table needs from the rank it runs on and from its inode cache.
    The cache is an abstract state with the three calls the table makes. *)
Class MDSEnv : Type := {
  mdcache_t : Type;
  (** [MDCache::get_inode(ino) != nullptr] *)
  get_inode : mdcache_t → inodeno_t → bool;
  (** [MDCache::open_ino(ino, pool, fin, false)]: the cache afterwards, and
      [Some r] when the open finished inside the call, completing [fin] with
      [r]; [None] when it is still in flight. *)
  open_ino : mdcache_t → inodeno_t → Z → mdcache_t * option Z;
  (** [MDCache::rejoin_prefetch_ino_finish(ino, r)] *)
  rejoin_prefetch_ino_finish : mdcache_t → inodeno_t → Z → mdcache_t;
  (** [mds->get_nodeid()] *)
  get_nodeid : mds_rank_t;
  get_metadata_pool : Z;
  get_first_data_pool : Z;
  (** The reserved inode ranges of mdstypes.h. *)
  MDS_INO_IS_MDSDIR : inodeno_t → bool;
  MDS_INO_MDSDIR_OWNER : inodeno_t → mds_rank_t;
  MDS_INO_IS_STRAY : inodeno_t → bool;
  MDS_INO_STRAY_OWNER : inodeno_t → mds_rank_t;
}.

(** Modelled from the spec: [is_prefetched()] of OpenFileTable.h, the query
    whether the prefetch has reached its done state. *)
Definition is_prefetched (st : OpenFileTable) : bool :=
  bool_decide (prefetch_state st = DONE).

(** Modelled from the spec: [is_any_committing()] of OpenFileTable.h. *)
Definition is_any_committing (st : OpenFileTable) : bool :=
  0 <? num_pending_commit st.

(** Modelled from the spec: [wait_for_load(c)] of OpenFileTable.h, waiter
    registration, for a load that is not done yet. *)
Definition wait_for_load (c : Context) (st : OpenFileTable) : option OpenFileTable :=
  if load_done st then None
  else Some (set_waiting_for_load st (waiting_for_load st ++ [c])).

(** Modelled from the spec: [wait_for_prefetch(c)] of OpenFileTable.h. *)
Definition wait_for_prefetch (c : Context) (st : OpenFileTable) : option OpenFileTable :=
  if is_prefetched st then None
  else Some (set_waiting_for_prefetch st (waiting_for_prefetch st ++ [c])).

Section prefetch.
Context `{MDSEnv}.

(** The table with the inode cache it drives. *)
Definition world : Type := OpenFileTable * mdcache_t.

(** The functions below call each other in a cycle
    ([_prefetch_inodes] -> [_open_ino_finish] -> [_prefetch_inodes]).
    They are first written against the function [prefetch] that stands for
    [_prefetch_inodes], and the knot is tied on a fuel afterwards: two
    nested calls are all a prefetch makes, one per phase. *)
Section knot.
Context (prefetch : world → result world).

(** [c->complete(r)] *)
Definition complete (c : Context) (r : Z) (w : world) : result world :=
  match c with
  | C_Caller id => Ok (set_completed w.1 (completed w.1 ++ [(id, r)]), w.2)
  | C_Prefetch => prefetch w
  end.

(** [finish_contexts(cct, ls)] on a list already swapped out. *)
Definition finish_contexts (ls : list Context) (w : world) : result world :=
  rfold (λ w' c, complete c 0 w') ls w.

Definition _open_ino_finish_with (ino : inodeno_t) (r : Z) (w : world)
    : result world :=
  let '(st, mc) := w in
  st1 ←r (if bool_decide (prefetch_state st = DIR_INODES) && (0 <=? r)
             && negb (bool_decide (ino = 0%N))
          then match loaded_anchor_map st !! ino with
               | None => Abort
               | Some a =>
                   Ok (set_loaded_anchor_map st
                         (<[ino := Anchor.set_auth r a]> (loaded_anchor_map st)))
               end
          else Ok st);
  let mc1 := if bool_decide (r ≠ get_nodeid)
             then rejoin_prefetch_ino_finish mc ino r else mc in
  let st2 := set_num_opening_inodes st1 (num_opening_inodes st1 - 1) in
  if bool_decide (num_opening_inodes st2 = 0) then
    match prefetch_state st2 with
    | DIR_INODES => prefetch (set_prefetch_state st2 FILE_INODES, mc1)
    | FILE_INODES =>
        let st3 := set_prefetch_state st2 DONE in
        w' ←r finish_contexts (waiting_for_prefetch st3)
                (set_waiting_for_prefetch st3 [], mc1);
        Ok (set_waiting_for_prefetch w'.1 [], w'.2)
    | _ => Abort
    end
  else Ok (st2, mc1).

(** The body of the loop of [_prefetch_inodes] at the entry with key
    [k]; the loop erases no entry, so the entry is looked up where the
    code dereferences its iterator. *)
Definition prefetch_entry (pool : Z) (w : world) (k : inodeno_t)
    : result world :=
  let '(st, mc) := w in
  match loaded_anchor_map st !! k with
  | None => Abort
  | Some a =>
      let set_auth r :=
        Ok (set_loaded_anchor_map st
              (<[k := Anchor.set_auth r a]> (loaded_anchor_map st)), mc) in
      let open (_ : unit) :=
        if get_inode mc k then Ok (st, mc)
        else
          let st1 := set_num_opening_inodes st (num_opening_inodes st + 1) in
          let '(mc1, done) := open_ino mc k pool in
          match done with
          | Some r => _open_ino_finish_with k r (st1, mc1)
          | None => Ok (st1, mc1)
          end in
      if bool_decide (Anchor.d_type a = DT_DIR) then
        if negb (bool_decide (prefetch_state st = DIR_INODES)) then Ok (st, mc)
        else if MDS_INO_IS_MDSDIR k then set_auth (MDS_INO_MDSDIR_OWNER k)
        else if MDS_INO_IS_STRAY k then set_auth (MDS_INO_STRAY_OWNER k)
        else open ()
      else
        if negb (bool_decide (prefetch_state st = FILE_INODES)) then Ok (st, mc)
        else open ()
  end.

Definition _prefetch_inodes_with (w : world) : result world :=
  let '(st, mc) := w in
  if negb (bool_decide (num_opening_inodes st = 0)) then Abort
  else
    let st1 := set_num_opening_inodes st 1 in
    pool ←r match prefetch_state st1 with
            | DIR_INODES => Ok get_metadata_pool
            | FILE_INODES => Ok get_first_data_pool
            | _ => Abort
            end;
    w1 ←r rfold (prefetch_entry pool) (entries (loaded_anchor_map st1)).*1
                (st1, mc);
    _open_ino_finish_with 0%N 0 w1.
End knot.

Fixpoint _prefetch_inodes (fuel : nat) (w : world) : result world :=
  match fuel with
  | O => OutOfFuel
  | S f => _prefetch_inodes_with (_prefetch_inodes f) w
  end.

Definition _open_ino_finish (fuel : nat) (ino : inodeno_t) (r : Z) (w : world)
    : result world :=
  _open_ino_finish_with (_prefetch_inodes fuel) ino r w.

(** [prefetch_inodes]: the new state and the returned boolean. *)
Definition prefetch_inodes (fuel : nat) (w : world) : result (world * bool) :=
  let '(st, mc) := w in
  if negb (bool_decide (prefetch_state st = IDLE)) then Abort
  else
    let st1 := set_prefetch_state st DIR_INODES in
    if negb (load_done st1) then
      match wait_for_load C_Prefetch st1 with
      | None => Abort
      | Some st2 => Ok ((st2, mc), true)
      end
    else
      w' ←r _prefetch_inodes fuel (st1, mc);
      Ok (w', negb (is_prefetched w'.1)).

(** ** The loader *)

Context `{Encoding}.

Inductive load_values_result : Type :=
  | LV_ok (m : gmap inodeno_t Anchor.t)
  | LV_error     (* [buffer::error] thrown *)
  | LV_abort.    (* [assert(ino == anchor.ino)] failed *)

(** The loop over the values of one page, in key order.  The key is parsed
    into a default-constructed [inodeno_t], [emplace_hint] yields the entry
    of that number, the one there or a fresh one, and the anchor is decoded
    into it. *)
Fixpoint load_values (values : list (string * bufferlist))
    (m : gmap inodeno_t Anchor.t) : load_values_result :=
  match values with
  | [] => LV_ok m
  | (k, bl) :: rest =>
      let ino : inodeno_t := default 0%N (sscanf_llx k) in
      let slot := default Anchor.default (m !! ino) in
      match decode_anchor bl slot with
      | None => LV_error
      | Some a =>
          if bool_decide (ino = Anchor.ino a)
          then load_values rest (<[ino := Anchor.set_auth MDS_RANK_NONE a]> m)
          else LV_abort
      end
  end.

(** What [_load_finish] leaves behind: the load is over, or one more page
    is read, after the given key. *)
Inductive load_next : Type :=
  | LoadFinished
  | LoadMore (start_after : string).

Section load_knot.
Context (prefetch : world → result world).

(** From the label [out:] on. *)
Definition load_out (w : world) : result (load_next * world) :=
  let st1 := set_load_done w.1 true in
  w' ←r finish_contexts prefetch (waiting_for_load st1)
          (set_waiting_for_load st1 [], w.2);
  Ok (LoadFinished, (set_waiting_for_load w'.1 [], w'.2)).

(** The [catch (buffer::error&)] handler. *)
Definition load_catch (w : world) : result (load_next * world) :=
  load_out (set_loaded_anchor_map (set_clear_on_commit w.1 true) ∅, w.2).

Definition _load_finish_with (op_r header_r values_r : Z) (first more : bool)
    (header_bl : bufferlist) (values : list (string * bufferlist))
    (w : world) : result (load_next * world) :=
  let '(st, mc) := w in
  if op_r <? 0 then
    let st1 := set_clear_on_commit st true in
    let st2 := if first then st1 else set_loaded_anchor_map st1 ∅ in
    load_out (st2, mc)
  else
    let header :=
      if first then
        match decode_u64 header_bl with
        | None => None
        | Some log_seq =>
            Some (set_committed_log_seq (set_committing_log_seq st log_seq) log_seq,
                  bool_decide (log_seq = 0%N))
        end
      else Some (st, false) in
    match header with
    | None => load_catch (st, mc)
    | Some (st1, true) => load_out (st1, mc)
    | Some (st1, false) =>
        match load_values values (loaded_anchor_map st1) with
        | LV_abort => Abort
        | LV_error => load_catch (st1, mc)
        | LV_ok m =>
            let st2 := set_loaded_anchor_map st1 m in
            if more then
              match last values with
              | None => Abort   (* [values.rbegin()] of an empty map *)
              | Some (last_key, _) => Ok (LoadMore last_key, (st2, mc))
              end
            else load_out (st2, mc)
        end
    end.
End load_knot.

Definition _load_finish (fuel : nat) := _load_finish_with (_prefetch_inodes fuel).

(** [load]: registers the waiter; the read of the header and of the first
    page that it issues is answered by [_load_finish] with [first]. *)
Definition load (onload : option Context) (st : OpenFileTable)
    : option OpenFileTable :=
  if load_done st then None
  else Some match onload with
            | Some c => set_waiting_for_load st (waiting_for_load st ++ [c])
            | None => st
            end.

(** One answer of the object store to a read of the loader. *)
Record load_reply : Type := mk_reply {
  lr_op_r : Z;
  lr_header_r : Z;
  lr_values_r : Z;
  lr_more : bool;
  lr_header_bl : bufferlist;
  lr_values : list (string * bufferlist);
}.

(** The load as the replies drive it: each reply is handed to
    [_load_finish], the first one with [first], until the load is over or
    the replies are. *)
Fixpoint load_pages (fuel : nat) (first : bool) (replies : list load_reply)
    (w : world) : result (load_next * world) :=
  match replies with
  | [] => Ok (LoadMore "", w)
  | rp :: rest =>
      x ←r _load_finish fuel (lr_op_r rp) (lr_header_r rp) (lr_values_r rp)
             first (lr_more rp) (lr_header_bl rp) (lr_values rp) w;
      match x.1, rest with
      | LoadMore _, _ :: _ => load_pages fuel false rest x.2
      | _, _ => Ok x
      end
  end.
End prefetch.

(** ** [get_ancestors] *)

Record inode_backpointer_t : Type := mk_backpointer {
  bp_dirino : inodeno_t;
  bp_dname : string;
  bp_version : N;
}.

(** The [while (true)] loop, entered with the current [dirino], the name held
    by the anchor [p] points at, and [first]; the fuel bounds the number of
    turns. *)
Fixpoint get_ancestors_loop (fuel : nat) (loaded : gmap inodeno_t Anchor.t)
    (dirino : inodeno_t) (name : string) (first : bool)
    (ancestors : list inode_backpointer_t) (auth_hint : mds_rank_t)
    : result (list inode_backpointer_t * mds_rank_t) :=
  match fuel with
  | O => OutOfFuel
  | S f =>
      let ancestors := ancestors ++ [mk_backpointer dirino name 0%N] in
      match loaded !! dirino with
      | None => Ok (ancestors, auth_hint)
      | Some p =>
          let auth_hint := if first then Anchor.auth p else auth_hint in
          if bool_decide (Anchor.dirino p = 0%N) then Ok (ancestors, auth_hint)
          else get_ancestors_loop f loaded (Anchor.dirino p) (Anchor.d_name p)
                                  false ancestors auth_hint
      end
  end.

(** [get_ancestors]: the returned boolean with the two out-parameters as the
    call leaves them. *)
Definition get_ancestors (fuel : nat) (st : OpenFileTable) (ino : inodeno_t)
    (ancestors : list inode_backpointer_t) (auth_hint : mds_rank_t)
    : result (bool * list inode_backpointer_t * mds_rank_t) :=
  match loaded_anchor_map st !! ino with
  | None => Ok (false, ancestors, auth_hint)
  | Some p =>
      if bool_decide (Anchor.dirino p = 0%N) then Ok (false, ancestors, auth_hint)
      else
        x ←r get_ancestors_loop fuel (loaded_anchor_map st) (Anchor.dirino p)
               (Anchor.d_name p) true [] auth_hint;
        Ok (true, x.1, x.2)
  end.


(** ** Notions the properties are stated with *)

(** The reference count of [i], zero when [i] has no anchor. *)
Definition nref_of (m : gmap inodeno_t Anchor.t) (i : inodeno_t) : Z :=
  from_option Anchor.nref 0 (m !! i).

(** The anchors whose parent directory is [i]. *)
Definition children (m : gmap inodeno_t Anchor.t) (i : inodeno_t)
    : gmap inodeno_t Anchor.t :=
  filter (λ kv : inodeno_t * Anchor.t, Anchor.dirino kv.2 = i) m.

Definition num_children (m : gmap inodeno_t Anchor.t) (i : inodeno_t) : Z :=
  Z.of_nat (size (children m i)).

(** The pin of direct tracking: [D] is the set of inodes the cache has added
    with [add_inode] and not removed since. *)
Definition direct (D : gset inodeno_t) (i : inodeno_t) : Z :=
  if bool_decide (i ∈ D) then 1 else 0.

(** Inode number zero is the null inode: no inode of a parent chain has
    it. *)
Definition valid_inode (i : CInode) : Prop :=
  Forall (λ n : inodeno_t, n ≠ 0%N) (Inode.chain i).

(** The states the four hooks of the reference engine lead to from [st0],
    each call passing its assertions, with the set of directly tracked
    inodes: the cache adds an inode it does not track yet and removes one it
    tracks. *)
Inductive reachable_from (st0 : OpenFileTable)
    : OpenFileTable → gset inodeno_t → Prop :=
  | reach_start : reachable_from st0 st0 ∅
  | reach_add st D i st' :
      reachable_from st0 st D → valid_inode i → Inode.ino i ∉ D →
      add_inode i st = Some st' →
      reachable_from st0 st' ({[Inode.ino i]} ∪ D)
  | reach_remove st D i st' :
      reachable_from st0 st D → valid_inode i → Inode.ino i ∈ D →
      remove_inode i st = Some st' →
      reachable_from st0 st' (D ∖ {[Inode.ino i]})
  | reach_link st D i st' :
      reachable_from st0 st D → valid_inode i →
      notify_link i st = Some st' →
      reachable_from st0 st' D
  | reach_unlink st D i st' :
      reachable_from st0 st D → valid_inode i →
      notify_unlink i st = Some st' →
      reachable_from st0 st' D.

(** A dirty entry flagged [DIRTY_NEW] belongs to a live anchor: the flag is
    set when an anchor is created and the entry goes when the anchor does. *)
Definition dirty_new_anchored (st : OpenFileTable) : Prop :=
  ∀ i f, dirty_items st !! i = Some f → Z.land f DIRTY_NEW ≠ 0 →
         is_Some (anchor_map st !! i).

(** The live anchors are the loaded ones: the same keys, and under each key
    anchors that [operator==] holds equal. *)
Definition same_anchors (live loaded : gmap inodeno_t Anchor.t) : Prop :=
  ∀ i, match live !! i, loaded !! i with
       | Some a, Some l => Anchor.eqb a l = true
       | None, None => True
       | _, _ => False
       end.


(** The walk of [get_ancestors] as the specification words it: from a parent
    [d] reached under the name [n], the tuple [(d, n, 0)], and then the walk
    from the parent of [d] as long as [d] is in the loaded map with a parent
    of its own. *)
Inductive ancestors_walk (loaded : gmap inodeno_t Anchor.t)
    : inodeno_t → string → list inode_backpointer_t → Prop :=
  | walk_absent d n :
      loaded !! d = None →
      ancestors_walk loaded d n [mk_backpointer d n 0%N]
  | walk_top d n p :
      loaded !! d = Some p → Anchor.dirino p = 0%N →
      ancestors_walk loaded d n [mk_backpointer d n 0%N]
  | walk_step d n p rest :
      loaded !! d = Some p → Anchor.dirino p ≠ 0%N →
      ancestors_walk loaded (Anchor.dirino p) (Anchor.d_name p) rest →
      ancestors_walk loaded d n (mk_backpointer d n 0%N :: rest).


(** ** Concrete inodes and tables the statements are tried on *)

(** Scenario 1 of the specification: the file [0x10] named [a] in the
    directory [0x1], and a second file beside it. *)
Definition dir_1 : CInode := mk_CInode 1%N DT_DIR 0%N None.
Definition file_10 : CInode := mk_CInode 16%N 8%N 7%N (Some ("a", dir_1)).
Definition file_11 : CInode := mk_CInode 17%N 8%N 0%N (Some ("b", dir_1)).

(** A table that tracks [file_10], holds a dirty entry for it, and has begun
    a commit at the given sequence. *)
Definition tracking_10 (seq : N) : OpenFileTable :=
  set_committing_log_seq
    (set_dirty_items (set_tracked_by_oft empty_table {[16%N]}) {[16%N := DIRTY_NEW]})
    seq.

(** [ind o] is the unit of reference count at the inode [o]. *)
Definition ind (o i : inodeno_t) : Z := if bool_decide (i = o) then 1 else 0.

(** The anchor map [m] is balanced against the directly tracked set [D] up
    to the offset [off]: every anchor sits under its own non-null number
    with a positive count, and at every inode the count (zero without an
    anchor) plus the offset is the direct pin plus the number of children.
    The offset is zero between calls; inside [get_ref] and [put_ref] it is
    the one reference the loop still has to give to, or take from, the
    inode it is about to visit. *)
Definition balanced (m : gmap inodeno_t Anchor.t) (D : gset inodeno_t)
    (off : inodeno_t → Z) : Prop :=
  (∀ i a, m !! i = Some a → Anchor.ino a = i ∧ i ≠ 0%N ∧ 0 < Anchor.nref a) ∧
  (∀ i, i ≠ 0%N → nref_of m i + off i = direct D i + num_children m i).

(** What the table holds about the inode [k]: its anchor and its dirty
    entry; and whether the inode carries the tracked flag. *)
Definition entry_at (k : inodeno_t) (st : OpenFileTable) : option Anchor.t * option Z :=
  (anchor_map st !! k, dirty_items st !! k).

Definition flagged_at (k : inodeno_t) (st : OpenFileTable) : bool :=
  bool_decide (k ∈ tracked_by_oft st).

(** The table after [add_inode file_10], scenario 1 of the specification. *)
Definition after_add_10 : OpenFileTable :=
  default empty_table (add_inode file_10 empty_table).

(** The two state updates [get_ref] and [put_ref] make when they create and
    erase an anchor, named so that lemmas can speak of them. *)
Definition created (n pino : inodeno_t) (name : string) (ty : N)
    (st : OpenFileTable) : OpenFileTable :=
  let st1 := set_anchor_map st
               (<[n := Anchor.make n pino name ty 1]> (anchor_map st)) in
  let st2 := set_tracked_by_oft st1 ({[n]} ∪ tracked_by_oft st1) in
  set_dirty_items st2 (emplace n DIRTY_NEW (dirty_items st2)).

Definition erased (n : inodeno_t) (st : OpenFileTable) : OpenFileTable :=
  let st1 := set_anchor_map st (delete n (anchor_map st)) in
  let st2 := set_tracked_by_oft st1 (tracked_by_oft st1 ∖ {[n]}) in
  set_dirty_items st2
    match dirty_items st2 !! n with
    | None => <[n := 0]> (dirty_items st2)
    | Some f =>
        if bool_decide (Z.land f DIRTY_NEW ≠ 0)
        then delete n (dirty_items st2)
        else dirty_items st2
    end.

(** [sscanf(s, "%llx", &v)] as the C library reads a string: white space is
    skipped, then come an optional sign, an optional [0x] and the
    hexadecimal digits of either case that follow, up to the first character
    that is none.  The value saturates at [2^64 - 1]; a minus sign negates
    it modulo [2^64].  [None] when there is no digit to convert. *)
Definition xdigit (c : Ascii.ascii) : option N :=
  let n := N_of_ascii c in
  if (48 <=? n)%N && (n <=? 57)%N then Some (n - 48)%N
  else if (97 <=? n)%N && (n <=? 102)%N then Some (n - 87)%N
  else if (65 <=? n)%N && (n <=? 70)%N then Some (n - 55)%N
  else None.

Definition isspace (c : Ascii.ascii) : bool :=
  let n := N_of_ascii c in ((9 <=? n)%N && (n <=? 13)%N) || (n =? 32)%N.

Fixpoint skip_space (s : string) : string :=
  match s with
  | String c s' => if isspace c then skip_space s' else s
  | EmptyString => s
  end.

Fixpoint read_xdigits (s : string) (acc : N) (any : bool) : option N :=
  match s with
  | String c s' =>
      match xdigit c with
      | Some d => read_xdigits s' (16 * acc + d)%N true
      | None => if any then Some acc else None
      end
  | EmptyString => if any then Some acc else None
  end.

(** The [0x] is taken off when a digit follows it; otherwise its [0] is the
    number and the [x] ends it. *)
Definition strip_0x (s : string) : string :=
  match s with
  | String z (String x (String c rest)) =>
      if bool_decide (z = "0"%char)
         && (bool_decide (x = "x"%char) || bool_decide (x = "X"%char))
         && bool_decide (is_Some (xdigit c))
      then String c rest else s
  | _ => s
  end.

Definition scan_llx (s : string) : option N :=
  let s := skip_space s in
  let '(neg, s) :=
    match s with
    | String c s' =>
        if bool_decide (c = "-"%char) then (true, s')
        else if bool_decide (c = "+"%char) then (false, s')
        else (false, s)
    | EmptyString => (false, s)
    end in
  match read_xdigits (strip_0x s) 0 false with
  | None => None
  | Some v =>
      if (2 ^ 64 <=? v)%N then Some (2 ^ 64 - 1)%N
      else Some (if neg then (2 ^ 64 - v) mod 2 ^ 64 else v)%N
  end.

(** A small encoding to run the commit planner and the loader on: a 64-bit
    value is one byte, an anchor is the bytes of its number, its parent and
    its name; keys are read as [sscanf] reads them. *)
Definition toy_encoding : Encoding := {|
  encode_anchor a :=
    default Byte.x00 (Byte.of_N (Anchor.ino a))
    :: default Byte.x00 (Byte.of_N (Anchor.dirino a))
    :: list_byte_of_string (Anchor.d_name a);
  decode_anchor bl slot :=
    match bl with
    | i :: d :: nm =>
        Some (Anchor.mk (Byte.to_N i) (Byte.to_N d) (string_of_list_byte nm)
                        (Anchor.d_type slot) (Anchor.nref slot) (Anchor.auth slot))
    | _ => None
    end;
  decode_u64 bl :=
    match bl with
    | [b] => Some (Byte.to_N b)
    | _ => None
    end;
  sscanf_llx := scan_llx;
|}.

(** Scenario 2 of the specification goes on from [after_add_10]: commit at
    sequence 5, then stop tracking the file. *)
Definition after_commit_5 : OpenFileTable :=
  match @commit toy_encoding 5 0 4096 None after_add_10 with
  | Some (st, _, _) => st
  | None => empty_table
  end.

Definition after_remove_10 : OpenFileTable :=
  default empty_table (remove_inode file_10 after_commit_5).


(** [after_add_10] once more, committed with a write cap so small that every
    entry is flushed in a sub-operation of its own. *)
Definition small_cap_commit : list ObjectOperation :=
  match @commit toy_encoding 5 0 1 None after_add_10 with
  | Some (_, ops, _) => ops
  | None => []
  end.

(** Every anchor has a dirty entry flagged [DIRTY_NEW] and nothing else is
    dirty: the state of the dirty set as long as all the anchors were created
    after the last commit (or after the boot). *)
Definition freshly_dirty (st : OpenFileTable) : Prop :=
  ∀ k, dirty_items st !! k = (λ _, DIRTY_NEW) <$> anchor_map st !! k.

(** The parts of the table the reference engine does not touch. *)
Definition same_store (st0 st : OpenFileTable) : Prop :=
  loaded_anchor_map st = loaded_anchor_map st0 ∧
  clear_on_commit st = clear_on_commit st0 ∧
  committing_log_seq st = committing_log_seq st0 ∧
  committed_log_seq st = committed_log_seq st0.

(** Scenario 2 of the specification after the reboot: the loader has filled
    the loaded map with the two committed anchors, and the cache tracks the
    file again. *)
Definition rebooted : OpenFileTable :=
  set_committed_log_seq
    (set_committing_log_seq
       (set_loaded_anchor_map empty_table (anchor_map after_add_10)) 5) 5.

Definition rebooted_add_10 : OpenFileTable :=
  default empty_table (add_inode file_10 rebooted).


(** A context registered by a caller, as all the prefetch waiters are. *)
Definition is_caller (c : Context) : Prop :=
  match c with
  | C_Caller _ => True
  | C_Prefetch => False
  end.

(** What the prefetch driver leaves alone: it writes the authority of loaded
    anchors, its phase, its counter, its waiters and the log of
    completions, and nothing else. *)
Definition untouched (st st' : OpenFileTable) : Prop :=
  anchor_map st' = anchor_map st ∧
  dirty_items st' = dirty_items st ∧
  dom (loaded_anchor_map st') = dom (loaded_anchor_map st) ∧
  committed_log_seq st' = committed_log_seq st ∧
  committing_log_seq st' = committing_log_seq st ∧
  num_pending_commit st' = num_pending_commit st ∧
  clear_on_commit st' = clear_on_commit st ∧
  load_done st' = load_done st ∧
  waiting_for_load st' = waiting_for_load st ∧
  tracked_by_oft st' = tracked_by_oft st.

(** What holds of the table all along the loop of [_prefetch_inodes] in the
    phase [ph]: the phase stays, the count of opens stays positive (it
    starts at 1), and no loaded anchor or waiter comes or goes. *)
Definition in_phase (ph : prefetch_state_t) (st0 st : OpenFileTable) : Prop :=
  prefetch_state st = ph ∧
  1 ≤ num_opening_inodes st ∧
  dom (loaded_anchor_map st) = dom (loaded_anchor_map st0) ∧
  waiting_for_prefetch st = waiting_for_prefetch st0.

(** Two inode caches to run the prefetch on, for the rank 0 with the
    reserved ranges of a 256-rank cluster.  Both hold no inode and record the
    opens they are asked for; the first finishes every open inside the call,
    the second leaves every open in flight. *)
Definition sync_cache : MDSEnv := {|
  mdcache_t := list (inodeno_t * Z);
  get_inode mc k := false;
  open_ino mc k pool := (mc ++ [(k, pool)], Some 0);
  rejoin_prefetch_ino_finish mc k r := mc;
  get_nodeid := 0;
  get_metadata_pool := 1;
  get_first_data_pool := 2;
  MDS_INO_IS_MDSDIR k := (256 <=? k)%N && (k <? 512)%N;
  MDS_INO_MDSDIR_OWNER k := Z.of_N k - 256;
  MDS_INO_IS_STRAY k := (1536 <=? k)%N && (k <? 4096)%N;
  MDS_INO_STRAY_OWNER k := (Z.of_N k - 1536) / 10;
|}.

Definition async_cache : MDSEnv := {|
  mdcache_t := list (inodeno_t * Z);
  get_inode mc k := false;
  open_ino mc k pool := (mc ++ [(k, pool)], None);
  rejoin_prefetch_ino_finish mc k r := mc;
  get_nodeid := 0;
  get_metadata_pool := 1;
  get_first_data_pool := 2;
  MDS_INO_IS_MDSDIR k := (256 <=? k)%N && (k <? 512)%N;
  MDS_INO_MDSDIR_OWNER k := Z.of_N k - 256;
  MDS_INO_IS_STRAY k := (1536 <=? k)%N && (k <? 4096)%N;
  MDS_INO_STRAY_OWNER k := (Z.of_N k - 1536) / 10;
|}.

(** [rebooted] once the load is done. *)
Definition rebooted_loaded : OpenFileTable := set_load_done rebooted true.

(** A fresh table on which [load] was called with a waiter of a caller. *)
Definition loading : OpenFileTable :=
  default empty_table (load (Some (C_Caller 1)) empty_table).

(** The first page of an object whose header is the marker 0 of an
    interrupted commit, with one stale key; and the same read failing. *)
Definition incomplete_page : load_reply :=
  mk_reply 0 0 0 false [Byte.x00] [("1", [Byte.x01; Byte.x00])].

Definition failed_page : load_reply :=
  mk_reply (-5) 0 0 false [] [].

(** The first page of the object the commit of scenario 2 leaves behind:
    the header 5, and under the keys [1] and [10] the two anchors as
    [toy_encoding] encodes them. *)
Definition committed_page : load_reply :=
  mk_reply 0 0 0 false [Byte.x05]
    [("1", [Byte.x01; Byte.x00]); ("10", [Byte.x10; Byte.x01; Byte.x61])].

(** The load of [committed_page] into [loading]. *)
Definition after_load : load_next * (OpenFileTable * list (inodeno_t * Z)) :=
  match @load_pages sync_cache toy_encoding 2 true [committed_page] (loading, []) with
  | Ok x => x
  | _ => (LoadFinished, (empty_table, []))
  end.

(** The table after the load of [incomplete_page], and after the load of
    [failed_page]; then the file of scenario 1 is tracked and a commit is
    made at sequence 6. *)
Definition after_incomplete : OpenFileTable :=
  match @load_pages sync_cache toy_encoding 2 true [incomplete_page] (loading, []) with
  | Ok x => x.2.1
  | _ => empty_table
  end.

Definition after_failed : OpenFileTable :=
  match @load_pages sync_cache toy_encoding 2 true [failed_page] (loading, []) with
  | Ok x => x.2.1
  | _ => empty_table
  end.

Definition next_commit (st : OpenFileTable) : list ObjectOperation :=
  match add_inode file_10 st with
  | Some st1 =>
      match @commit toy_encoding 6 0 4096 None st1 with
      | Some (_, ops, _) => ops
      | None => []
      end
  | None => []
  end.

(** What the two loops of [commit] leave alone: the anchors, the dirty
    set, the sequence the commit has begun at; and the loaded map too, once
    it is empty. *)
Definition commit_keeps (st0 : OpenFileTable)
    (s : OpenFileTable * commit_locals) : Prop :=
  anchor_map s.1 = anchor_map st0 ∧ dirty_items s.1 = dirty_items st0 ∧
  committing_log_seq s.1 = committing_log_seq st0 ∧
  (loaded_anchor_map st0 = ∅ → loaded_anchor_map s.1 = ∅).

(** ** Histories of calls *)

(** One call into the table: a hook of the reference engine, a commit, or
    the completion of a commit. *)
Inductive table_call : Type :=
  | Call_add_inode (i : CInode)
  | Call_remove_inode (i : CInode)
  | Call_notify_link (i : CInode)
  | Call_notify_unlink (i : CInode)
  | Call_commit (c : option Context) (log_seq : N) (op_prio max_write_size : Z)
  | Call_commit_finish (r : Z) (log_seq : N) (fin : option Context).

Definition run_call `{Encoding} (call : table_call) (st : OpenFileTable)
    : option OpenFileTable :=
  match call with
  | Call_add_inode i => add_inode i st
  | Call_remove_inode i => remove_inode i st
  | Call_notify_link i => notify_link i st
  | Call_notify_unlink i => notify_unlink i st
  | Call_commit c log_seq op_prio max_write_size =>
      match commit log_seq op_prio max_write_size c st with
      | Some x => Some x.1.1
      | None => None
      end
  | Call_commit_finish r log_seq fin => _commit_finish r log_seq fin st
  end.

(** The calls of a history one after the other; [None] as soon as one of
    them fails an assertion. *)
Fixpoint run_calls `{Encoding} (calls : list table_call) (st : OpenFileTable)
    : option OpenFileTable :=
  match calls with
  | [] => Some st
  | call :: rest =>
      match run_call call st with
      | Some st' => run_calls rest st'
      | None => None
      end
  end.

(** The state updates of the hooks that are not [created] or [erased]: a
    count going up or down by one, and a parent written by [notify_link] or
    [notify_unlink]. *)
Definition recounted (n : inodeno_t) (z : Z) (st : OpenFileTable) : OpenFileTable :=
  match anchor_map st !! n with
  | Some a => set_anchor_map st (<[n := Anchor.set_nref (Anchor.nref a + z) a]> (anchor_map st))
  | None => st
  end.

Definition reparented (n p : inodeno_t) (nm : string) (st : OpenFileTable)
    : OpenFileTable :=
  match anchor_map st !! n with
  | Some a =>
      let st1 := set_anchor_map st (<[n := Anchor.set_parent p nm a]> (anchor_map st)) in
      set_dirty_items st1 (emplace n 0 (dirty_items st1))
  | None => st
  end.

(** What holds of the anchors, of the tracked flags and of the commit
    counters between any two calls. *)
Definition well_anchored (st : OpenFileTable) : Prop :=
  ∀ i a, anchor_map st !! i = Some a →
    Anchor.ino a = i ∧ 1 ≤ Anchor.nref a ∧ Anchor.auth a = MDS_RANK_NONE.

Definition table_ok (st : OpenFileTable) : Prop :=
  well_anchored st ∧
  tracked_by_oft st = dom (anchor_map st) ∧
  dirty_new_anchored st ∧
  (committed_log_seq st ≤ committing_log_seq st)%N.

(** The parts of the table that belong to the loader, the commit and the
    prefetch, which the reference engine has no business with. *)
Definition engine_frame (st st' : OpenFileTable) : Prop :=
  loaded_anchor_map st' = loaded_anchor_map st ∧
  committed_log_seq st' = committed_log_seq st ∧
  committing_log_seq st' = committing_log_seq st ∧
  num_pending_commit st' = num_pending_commit st ∧
  clear_on_commit st' = clear_on_commit st ∧
  load_done st' = load_done st ∧
  waiting_for_load st' = waiting_for_load st ∧
  prefetch_state st' = prefetch_state st ∧
  num_opening_inodes st' = num_opening_inodes st ∧
  waiting_for_prefetch st' = waiting_for_prefetch st ∧
  completed st' = completed st.

(** Scenario 2 of the specification as a history. *)
Definition scenario_2 : list table_call :=
  [Call_add_inode file_10; Call_commit None 5 0 4096;
   Call_commit_finish 0 5 None; Call_remove_inode file_10].

(** What a commit leaves alone: the anchors, the tracked flags, the sequence
    already committed, and all that belongs to the loader and the prefetch. *)
Definition commit_frame (st st' : OpenFileTable) : Prop :=
  anchor_map st' = anchor_map st ∧
  committed_log_seq st' = committed_log_seq st ∧
  load_done st' = load_done st ∧
  waiting_for_load st' = waiting_for_load st ∧
  prefetch_state st' = prefetch_state st ∧
  num_opening_inodes st' = num_opening_inodes st ∧
  waiting_for_prefetch st' = waiting_for_prefetch st ∧
  tracked_by_oft st' = tracked_by_oft st ∧
  completed st' = completed st.

(** The stages of [commit], named: the state and the locals after the loop
    over the dirty set, and after the loop over what is left of the loaded
    map. *)
Section commit_stages.
Context `{Encoding}.
Context (log_seq : N) (op_prio : Z) (max_write_size : Z).

Definition is_first_commit (st : OpenFileTable) : bool :=
  negb (bool_decide (loaded_anchor_map st = ∅)).

Definition after_dirty_loop (st : OpenFileTable) : OpenFileTable * commit_locals :=
  foldl (commit_dirty_item log_seq op_prio max_write_size (is_first_commit st))
        (set_committing_log_seq st log_seq, mk_locals true 0 ∅ ∅ [])
        (entries (dirty_items st)).

Definition after_loaded_loop (st : OpenFileTable) : OpenFileTable * commit_locals :=
  let s1 := after_dirty_loop st in
  let s2 := (set_dirty_items s1.1 ∅, s1.2) in
  if is_first_commit st then
    let s := foldl (commit_loaded_item log_seq op_prio max_write_size) s2
                   (entries (loaded_anchor_map s2.1)) in
    (set_loaded_anchor_map s.1 ∅, s.2)
  else s2.
End commit_stages.

(** A table that holds no anchor yet, as the constructor leaves it and as
    the loader leaves it: the loader fills the loaded map and the commit
    counters only. *)
Definition booted (st : OpenFileTable) : Prop :=
  anchor_map st = ∅ ∧ dirty_items st = ∅ ∧ tracked_by_oft st = ∅ ∧
  (committed_log_seq st ≤ committing_log_seq st)%N.

(** A history on the two files of scenario 1, with a commit in between. *)
Definition history_1 : list table_call :=
  [Call_add_inode file_10; Call_commit None 5 0 4096;
   Call_commit_finish 0 5 None; Call_add_inode file_11].

Definition after_history_1 : OpenFileTable :=
  default empty_table (@run_calls toy_encoding history_1 empty_table).

(** What a list of object operations does to the keys: [wrote ops key bl]
    when one of them sets [key] to [bl], [removed ops key] when one of them
    removes [key]. *)
Definition wrote (ops : list ObjectOperation) (key : string) (bl : bufferlist) : Prop :=
  ∃ op, op ∈ ops ∧ op_set op !! key = Some bl.

Definition removed (ops : list ObjectOperation) (key : string) : Prop :=
  ∃ op, op ∈ ops ∧ key ∈ op_rm op.

(** The operations [commit] has planned so far: the ones submitted and the
    one its locals are building up. *)
Definition planned (l : commit_locals) : list ObjectOperation :=
  cl_submitted l ++ [mk_op 0 false None (cl_to_update l) (cl_to_remove l)].

(** The dirty inode [k] has the anchor [a], and the loaded map does not hold
    an anchor for [k] that [operator==] finds equal to it. *)
Definition to_write (st : OpenFileTable) (k : inodeno_t) (a : Anchor.t) : Prop :=
  is_Some (dirty_items st !! k) ∧ anchor_map st !! k = Some a ∧
  ∀ q, loaded_anchor_map st !! k = Some q → Anchor.eqb a q = false.

(** The inode [k] is dirty and has no anchor any more, or it is not dirty
    and the loaded map still has an anchor for it. *)
Definition to_erase (st : OpenFileTable) (k : inodeno_t) : Prop :=
  (is_Some (dirty_items st !! k) ∧ anchor_map st !! k = None) ∨
  (dirty_items st !! k = None ∧ is_Some (loaded_anchor_map st !! k)).

(** The commit of the removal of scenario 2, at sequence 6; and the first
    commit after the load that failed, with the file of scenario 1 tracked
    again. *)
Definition removal_commit
    : option (OpenFileTable * list ObjectOperation * (N * option Context)) :=
  @commit toy_encoding 6 0 4096 None after_remove_10.

Definition failed_add_10 : OpenFileTable :=
  default empty_table (add_inode file_10 after_failed).

(** What [commit_func] has done with the clear flag [b0] the commit began
    with: nothing submitted yet and the flag as it was, or a first operation
    that took the flag, operations after it that do not clear, and the flag
    lowered. *)
Definition clear_so_far (b0 : bool) (s : OpenFileTable * commit_locals) : Prop :=
  (cl_submitted s.2 = [] ∧ clear_on_commit s.1 = b0) ∨
  (∃ op rest, cl_submitted s.2 = op :: rest ∧ op_omap_clear op = b0 ∧
              Forall (λ o, op_omap_clear o = false) rest ∧
              clear_on_commit s.1 = false).

(** Reading a key back: the value of a hexadecimal digit and of a string of
    digits, most significant first. *)
Definition digit_value (c : Ascii.ascii) : N :=
  let n := N_of_ascii c in
  if (n <=? 57)%N then (n - 48)%N else (n - 87)%N.

Fixpoint hex_value (s : string) (acc : N) : N :=
  match s with
  | EmptyString => acc
  | String c s' => hex_value s' (16 * acc + digit_value c)%N
  end.

(** The order of the phases of the prefetch. *)
Definition phase_rank (ph : prefetch_state_t) : nat :=
  match ph with
  | IDLE => 0
  | DIR_INODES => 1
  | FILE_INODES => 2
  | DONE => 3
  end.

(** What the prefetch driver does to the loaded map and to its own state: a
    loaded anchor changes in its authority at most, the phase does not go
    back, and the log of completions only gets longer. *)
Definition advances (st st' : OpenFileTable) : Prop :=
  (∀ k, Anchor.set_auth 0 <$> loaded_anchor_map st' !! k
        = Anchor.set_auth 0 <$> loaded_anchor_map st !! k) ∧
  (phase_rank (prefetch_state st) ≤ phase_rank (prefetch_state st'))%nat ∧
  completed st `prefix_of` completed st'.

(** The prefetch of the two loaded anchors of [rebooted_loaded], with every
    open finished inside the call. *)
Definition prefetching : OpenFileTable :=
  set_prefetch_state rebooted_loaded DIR_INODES.

Definition after_prefetch : OpenFileTable * list (inodeno_t * Z) :=
  match @_prefetch_inodes sync_cache 2 (prefetching, []) with
  | Ok w => w
  | _ => (empty_table, [])
  end.

(** The completions [finish_contexts] hands to a list of waiters of
    callers. *)
Definition completions (ls : list Context) : list (nat * Z) :=
  omap (λ c, match c with C_Caller id => Some (id, 0) | C_Prefetch => None end) ls.

(** A table in the file phase with one open left and one waiter. *)
Definition last_open : OpenFileTable :=
  set_waiting_for_prefetch
    (set_num_opening_inodes (set_prefetch_state rebooted_loaded FILE_INODES) 1)
    [C_Caller 7].

(** A table whose load is done and has found nothing, with one waiter for
    the prefetch. *)
Definition nothing_loaded : OpenFileTable :=
  set_waiting_for_prefetch (set_load_done empty_table true) [C_Caller 7].

(** Every anchor of a loaded map sits under its own inode number and has no
    authority recorded yet. *)
Definition loaded_ok (m : gmap inodeno_t Anchor.t) : Prop :=
  ∀ k a, m !! k = Some a → Anchor.ino a = k ∧ Anchor.auth a = MDS_RANK_NONE.

(** The inode number the loader reads a key as. *)
Definition parsed_key `{Encoding} (kv : string * bufferlist) : inodeno_t :=
  default 0%N (sscanf_llx kv.1).

(** A page whose second value does not decode. *)
Definition corrupt_page : load_reply :=
  mk_reply 0 0 0 false [Byte.x05] [("1", [Byte.x01; Byte.x00]); ("10", [Byte.x10])].

Definition after_corrupt : load_next * (OpenFileTable * list (inodeno_t * Z)) :=
  match @load_pages sync_cache toy_encoding 2 true [corrupt_page] (loading, []) with
  | Ok x => x
  | _ => (LoadMore "", (empty_table, []))
  end.

(** The loaded map the values of [committed_page] give. *)
Definition committed_anchors : gmap inodeno_t Anchor.t :=
  match @load_values toy_encoding (lr_values committed_page) ∅ with
  | LV_ok m => m
  | _ => ∅
  end.

(** A table that tracks the file of scenario 1 without a parent, as after
    an unlink, beside the directory tracked for itself. *)
Definition unlinked_10 : OpenFileTable :=
  set_tracked_by_oft
    (set_anchor_map empty_table
       {[ 16%N := Anchor.make 16 0 "" 8 1; 1%N := Anchor.make 1 0 "" DT_DIR 1 ]})
    {[ 16%N; 1%N ]}.

(** The anchors along the parent chain of [i] are the ones [get_ref] would
    make for these inodes: each sits under the number of its inode, has the
    type of its inode, and has no authority recorded. *)
Fixpoint chain_canonical (i : CInode) (m : gmap inodeno_t Anchor.t) : Prop :=
  match i with
  | mk_CInode n ty _ dn =>
      (∀ a, m !! n = Some a →
         Anchor.ino a = n ∧ Anchor.d_type a = ty ∧ Anchor.auth a = MDS_RANK_NONE) ∧
      match dn with
      | Some (_, pin) => chain_canonical pin m
      | None => True
      end
  end.

(** ** The name of the object *)

Definition dec_digit (d : N) : Ascii.ascii :=
  match d with
  | 0 => "0" | 1 => "1" | 2 => "2" | 3 => "3" | 4 => "4" | 5 => "5"
  | 6 => "6" | 7 => "7" | 8 => "8" | _ => "9"
  end%N%char.

Fixpoint to_dec (fuel : nat) (n : N) (acc : string) : string :=
  match fuel with
  | O => acc
  | S f =>
      let acc' := String (dec_digit (n mod 10)) acc in
      if (n / 10 =? 0)%N then acc' else to_dec f (n / 10)%N acc'
  end.

(** The conversion [int(...)] to a 32-bit integer. *)
Definition to_int32 (z : Z) : Z := (z + 2 ^ 31) mod 2 ^ 32 - 2 ^ 31.

(** The conversion [%d] of a 32-bit integer: at most ten digits after the
    sign. *)
Definition snprintf_d (v : Z) : string :=
  if v <? 0 then String "-" (to_dec 10 (Z.to_N (- v)) "")
  else to_dec 10 (Z.to_N v) "".

(** [snprintf] stores at most the given number of characters. *)
Fixpoint truncate (n : nat) (s : string) : string :=
  match n, s with
  | S n', String c s' => String c (truncate n' s')
  | _, _ => ""
  end.

(** [snprintf(s, sizeof(s), "mds%d_openfiles", int(rank))] into the 30 bytes
    of [s], of which the last is the terminator. *)
Definition object_name (rank : mds_rank_t) : string :=
  truncate 29 ("mds" +:+ snprintf_d (to_int32 rank) +:+ "_openfiles").

Definition get_object_name `{MDSEnv} : string := object_name get_nodeid.

(** Reading a decimal number back. *)
Fixpoint dec_value (s : string) (acc : N) : N :=
  match s with
  | EmptyString => acc
  | String c s' => dec_value s' (10 * acc + digit_value c)%N
  end.

Definition dec_read (s : string) : Z :=
  match s with
  | String c s' =>
      if bool_decide (c = "-"%char) then - Z.of_N (dec_value s' 0)
      else Z.of_N (dec_value s 0)
  | EmptyString => 0
  end.

(** The dirty loop writes [k] when it has an anchor that the loaded map, if
    this is a first commit, does not hold an equal of. *)
Definition writes_item (fc : bool) (st : OpenFileTable) (k : inodeno_t)
    (a : Anchor.t) : Prop :=
  anchor_map st !! k = Some a ∧
  ∀ q, (if fc then loaded_anchor_map st !! k else None) = Some q →
       Anchor.eqb a q = false.



(** The strings of digits [to_hex] prints: not empty, and each character a
    digit of [hex_digit]. *)
Inductive hex_string : string → Prop :=
  | hex_one d : (d < 16)%N → hex_string (String (hex_digit d) "")
  | hex_more d s : (d < 16)%N → hex_string s → hex_string (String (hex_digit d) s).

(** * Properties *)

(** ** [should_log_open] *)

Lemma state_test_spec i st :
  state_test i st = true ↔ Inode.ino i ∈ tracked_by_oft st.
Proof. unfold state_test. apply bool_decide_eq_true. Qed.

(** C4.  [should_log_open] is true for an inode that is not tracked; for a
    tracked one it is false when the inode was journaled at or after
    [committing_log_seq], else false when the dirty set has no entry for its
    number, and true otherwise. *)
Theorem should_log_open_cases (i : CInode) (st : OpenFileTable) :
  (Inode.ino i ∉ tracked_by_oft st → should_log_open i st = true) ∧
  (Inode.ino i ∈ tracked_by_oft st →
     (committing_log_seq st ≤ Inode.last_journaled i)%N →
     should_log_open i st = false) ∧
  (Inode.ino i ∈ tracked_by_oft st →
     (Inode.last_journaled i < committing_log_seq st)%N →
     dirty_items st !! Inode.ino i = None →
     should_log_open i st = false) ∧
  (Inode.ino i ∈ tracked_by_oft st →
     (Inode.last_journaled i < committing_log_seq st)%N →
     is_Some (dirty_items st !! Inode.ino i) →
     should_log_open i st = true).
Proof.
  unfold should_log_open.
  destruct (state_test i st) eqn:Ht.
  - apply state_test_spec in Ht.
    destruct (N.leb_spec (committing_log_seq st) (Inode.last_journaled i)) as [Hle|Hlt].
    + repeat split; intros; try done; lia.
    + repeat split; intros; try done; try lia.
      * by rewrite H1.
      * destruct H1 as [f ->]. done.
  - assert (Inode.ino i ∉ tracked_by_oft st) as Hn.
    { intros Hin. apply state_test_spec in Hin. congruence. }
    repeat split; intros; done.
Qed.

(** C3, as the code has it.  For a tracked inode last journaled at 7 with a
    dirty entry, [should_log_open] is false while [committing_log_seq] is 5
    (the inode was journaled at or after it) and true once it is 10. *)
Theorem should_log_open_scenario (i : CInode) (st : OpenFileTable) :
  Inode.ino i ∈ tracked_by_oft st →
  Inode.last_journaled i = 7%N →
  is_Some (dirty_items st !! Inode.ino i) →
  (committing_log_seq st = 5%N → should_log_open i st = false) ∧
  (committing_log_seq st = 10%N → should_log_open i st = true).
Proof.
  intros Ht Hlj [f Hf].
  unfold should_log_open.
  rewrite (proj2 (state_test_spec i st) Ht), Hlj, Hf.
  split; intros ->; reflexivity.
Qed.

Lemma should_log_open_scenario_witness :
  (should_log_open file_10 (tracking_10 5) = false) ∧
  (should_log_open file_10 (tracking_10 10) = true).
Proof.
  split.
  - apply (should_log_open_scenario file_10 (tracking_10 5));
      [vm_compute; done | reflexivity | by eexists | reflexivity].
  - apply (should_log_open_scenario file_10 (tracking_10 10));
      [vm_compute; done | reflexivity | by eexists | reflexivity].
Defined.

(** C3, the claim as it is worded, fails: with [committing_log_seq] at 5 the
    predicate is false for the inode of the scenario, and with 10 it is
    true. *)
Lemma should_log_open_scenario_counterexample :
  Inode.ino file_10 ∈ tracked_by_oft (tracking_10 5) ∧
  Inode.last_journaled file_10 = 7%N ∧
  is_Some (dirty_items (tracking_10 5) !! Inode.ino file_10) ∧
  should_log_open file_10 (tracking_10 5) = false ∧
  should_log_open file_10 (tracking_10 10) = true.
Proof.
  split; [vm_compute; done|].
  split; [reflexivity|].
  split; [by eexists|].
  split; reflexivity.
Qed.

(** ** The reference engine keeps the counts balanced *)

Lemma CInode_ind (P : CInode → Prop) :
  (∀ n ty lj, P (mk_CInode n ty lj None)) →
  (∀ n ty lj nm pin, P pin → P (mk_CInode n ty lj (Some (nm, pin)))) →
  ∀ i, P i.
Proof.
  intros Htop Hstep. fix IH 1.
  intros [n ty lj [[nm pin]|]].
  - apply Hstep, IH.
  - apply Htop.
Qed.

Lemma nref_of_insert m n a j :
  nref_of (<[n:=a]> m) j = if bool_decide (j = n) then Anchor.nref a else nref_of m j.
Proof.
  unfold nref_of. case_bool_decide as Hj.
  - subst. by rewrite lookup_insert_eq.
  - by rewrite lookup_insert_ne.
Qed.

Lemma nref_of_delete m n j :
  nref_of (delete n m) j = if bool_decide (j = n) then 0 else nref_of m j.
Proof.
  unfold nref_of. case_bool_decide as Hj.
  - subst. by rewrite lookup_delete_eq.
  - by rewrite lookup_delete_ne.
Qed.

Lemma num_children_insert_fresh m n a j :
  m !! n = None →
  num_children (<[n:=a]> m) j = num_children m j + ind j (Anchor.dirino a).
Proof.
  intros Hn. unfold num_children, children, ind. case_bool_decide as Hd.
  - rewrite map_filter_insert_True by done.
    rewrite map_size_insert_None; [lia|].
    apply map_lookup_filter_None. by left.
  - rewrite map_filter_insert_False by done.
    rewrite delete_id by done. lia.
Qed.

Lemma num_children_delete m n a j :
  m !! n = Some a →
  num_children (delete n m) j = num_children m j - ind j (Anchor.dirino a).
Proof.
  intros Hn.
  rewrite <-(insert_id m n a) at 2 by done.
  rewrite <-insert_delete_eq.
  rewrite num_children_insert_fresh by apply lookup_delete_eq. lia.
Qed.

Lemma num_children_insert m n a a' j :
  m !! n = Some a →
  num_children (<[n:=a']> m) j
  = num_children m j - ind j (Anchor.dirino a) + ind j (Anchor.dirino a').
Proof.
  intros Hn. rewrite <-insert_delete_eq.
  rewrite num_children_insert_fresh by apply lookup_delete_eq.
  by rewrite (num_children_delete m n a).
Qed.

Lemma direct_add D n j : n ∉ D → direct ({[n]} ∪ D) j = direct D j + ind n j.
Proof.
  intros Hn. unfold direct, ind.
  repeat case_bool_decide; simplify_eq; try lia; set_solver.
Qed.

Lemma direct_remove D n j : n ∈ D → direct (D ∖ {[n]}) j = direct D j - ind n j.
Proof.
  intros Hn. unfold direct, ind.
  repeat case_bool_decide; simplify_eq; try lia; set_solver.
Qed.

Lemma ind_null j : j ≠ 0%N → ind 0%N j = 0 ∧ ind j 0%N = 0.
Proof. intros Hj. unfold ind. split; case_bool_decide; congruence. Qed.

Lemma ind_sym o j : ind o j = ind j o.
Proof. unfold ind. repeat case_bool_decide; congruence. Qed.

Lemma ind_same o : ind o o = 1.
Proof. unfold ind. by rewrite bool_decide_eq_true_2. Qed.

Lemma ind_other o j : j ≠ o → ind o j = 0.
Proof. intros. unfold ind. by rewrite bool_decide_eq_false_2. Qed.

Lemma balanced_ext m D off off' :
  (∀ j, j ≠ 0%N → off j = off' j) → balanced m D off → balanced m D off'.
Proof.
  intros Hoff [HK HR]. split; [done|].
  intros j Hj. rewrite <-Hoff by done. by apply HR.
Qed.

(** The six updates of the anchor map the engine is made of. *)

Ltac balance_arith Hn :=
  unfold ind, nref_of in *;
  repeat case_bool_decide; simplify_eq; rewrite ?Hn in *; simpl in *; lia.

Lemma balanced_bump m D n a :
  balanced m D (ind n) → m !! n = Some a →
  balanced (<[n := Anchor.set_nref (Anchor.nref a + 1) a]> m) D (λ _, 0).
Proof.
  intros [HK HR] Hn. split.
  - intros j b [[-> <-]|[Hne Hj]]%lookup_insert_Some; [|by apply HK].
    destruct (HK _ _ Hn) as (? & ? & ?). simpl. repeat split; [done..|lia].
  - intros j Hj. specialize (HR j Hj).
    rewrite nref_of_insert, (num_children_insert m n a) by done. simpl.
    balance_arith Hn.
Qed.

Lemma balanced_create m D n p nm ty :
  balanced m D (ind n) → m !! n = None → n ≠ 0%N →
  balanced (<[n := Anchor.make n p nm ty 1]> m) D (ind p).
Proof.
  intros [HK HR] Hn Hn0. split.
  - intros j b [[-> <-]|[Hne Hj]]%lookup_insert_Some; [|by apply HK].
    simpl. repeat split; [done..|lia].
  - intros j Hj. specialize (HR j Hj).
    rewrite nref_of_insert, num_children_insert_fresh by done. simpl.
    rewrite (ind_sym j p).
    balance_arith Hn.
Qed.

Lemma balanced_drop m D n a :
  balanced m D (λ j, - ind n j) → m !! n = Some a → 1 < Anchor.nref a →
  balanced (<[n := Anchor.set_nref (Anchor.nref a - 1) a]> m) D (λ _, 0).
Proof.
  intros [HK HR] Hn Hgt. split.
  - intros j b [[-> <-]|[Hne Hj]]%lookup_insert_Some; [|by apply HK].
    destruct (HK _ _ Hn) as (? & ? & ?). simpl. repeat split; [done..|lia].
  - intros j Hj. specialize (HR j Hj).
    rewrite nref_of_insert, (num_children_insert m n a) by done. simpl.
    balance_arith Hn.
Qed.

Lemma balanced_erase m D n a :
  balanced m D (λ j, - ind n j) → m !! n = Some a → Anchor.nref a = 1 →
  balanced (delete n m) D (λ j, - ind (Anchor.dirino a) j).
Proof.
  intros [HK HR] Hn Hone. split.
  - intros j b [Hne Hj]%lookup_delete_Some. by apply HK.
  - intros j Hj. specialize (HR j Hj).
    rewrite nref_of_delete, (num_children_delete m n a) by done.
    rewrite (ind_sym j).
    balance_arith Hn.
Qed.

Lemma balanced_link m D n a p nm :
  balanced m D (λ _, 0) → m !! n = Some a → Anchor.dirino a = 0%N →
  balanced (<[n := Anchor.set_parent p nm a]> m) D (ind p).
Proof.
  intros [HK HR] Hn Hd. split.
  - intros j b [[-> <-]|[Hne Hj]]%lookup_insert_Some; [|by apply HK].
    destruct (HK _ _ Hn) as (? & ? & ?). done.
  - intros j Hj. specialize (HR j Hj).
    rewrite nref_of_insert, (num_children_insert m n a) by done. simpl.
    rewrite Hd, (ind_sym j p). destruct (ind_null j Hj) as [_ ->].
    balance_arith Hn.
Qed.

Lemma balanced_unlink m D n a :
  balanced m D (λ _, 0) → m !! n = Some a →
  balanced (<[n := Anchor.set_parent 0%N "" a]> m) D (λ j, - ind (Anchor.dirino a) j).
Proof.
  intros [HK HR] Hn. split.
  - intros j b [[-> <-]|[Hne Hj]]%lookup_insert_Some; [|by apply HK].
    destruct (HK _ _ Hn) as (? & ? & ?). done.
  - intros j Hj. specialize (HR j Hj).
    rewrite nref_of_insert, (num_children_insert m n a) by done. simpl.
    rewrite (ind_sym j (Anchor.dirino a)). destruct (ind_null j Hj) as [_ ->].
    balance_arith Hn.
Qed.

Lemma valid_inode_ino i : valid_inode i → Inode.ino i ≠ 0%N.
Proof.
  unfold valid_inode. destruct i as [n ty lj [[nm pin]|]]; simpl;
    intros Hv; by inversion Hv.
Qed.

Lemma valid_inode_parent n ty lj nm pin :
  valid_inode (mk_CInode n ty lj (Some (nm, pin))) → valid_inode pin.
Proof. unfold valid_inode. simpl. intros Hv. by inversion Hv. Qed.

(** [get_ref] gives the inode it is called on the reference it is owed. *)
Lemma get_ref_balanced i :
  ∀ st st' D, valid_inode i →
    balanced (anchor_map st) D (ind (Inode.ino i)) →
    get_ref i st = Some st' →
    balanced (anchor_map st') D (λ _, 0).
Proof.
  induction i as [n ty lj|n ty lj nm pin IH] using CInode_ind;
    intros st st' D Hv Hb Hget; simpl in Hget, Hb;
    pose proof (valid_inode_ino _ Hv) as Hn0; simpl in Hn0;
    destruct (anchor_map st !! n) as [a|] eqn:Ha.
  - repeat case_match; simplify_eq. simpl. by apply balanced_bump.
  - simplify_eq. simpl.
    eapply balanced_ext; [|by apply balanced_create].
    intros j Hj. simpl. by destruct (ind_null j Hj) as [-> _].
  - repeat case_match; simplify_eq. simpl. by apply balanced_bump.
  - eapply IH; [by eapply valid_inode_parent| |exact Hget].
    simpl. by apply balanced_create.
Qed.

(** [put_ref] takes from the inode it is called on the reference it has in
    excess. *)
Lemma put_ref_balanced i :
  ∀ st st' D, valid_inode i →
    balanced (anchor_map st) D (λ j, - ind (Inode.ino i) j) →
    put_ref i st = Some st' →
    balanced (anchor_map st') D (λ _, 0).
Proof.
  induction i as [n ty lj|n ty lj nm pin IH] using CInode_ind;
    intros st st' D Hv Hb Hput; simpl in Hput, Hb;
    destruct (bool_decide (n ∈ tracked_by_oft st)); simpl in Hput; try done;
    destruct (anchor_map st !! n) as [a|] eqn:Ha; try done;
    destruct (Z.ltb_spec 0 (Anchor.nref a)); simpl in Hput; try done;
    destruct (Z.ltb_spec 1 (Anchor.nref a)); simpl in Hput.
  - simplify_eq. simpl. by apply balanced_drop.
  - destruct (bool_decide (Anchor.dirino a = 0%N)) eqn:Hd; simpl in Hput; [|done].
    apply bool_decide_eq_true in Hd.
    destruct (bool_decide (Anchor.d_name a = "")); simpl in Hput; [|done].
    simplify_eq. simpl.
    eapply balanced_ext; [|apply (balanced_erase _ _ _ a); [done..|lia]].
    intros j Hj. simpl. rewrite Hd. destruct (ind_null j Hj) as [-> _]. done.
  - simplify_eq. simpl. by apply balanced_drop.
  - destruct (bool_decide (Anchor.dirino a = Inode.ino pin)) eqn:Hd;
      simpl in Hput; [|done].
    apply bool_decide_eq_true in Hd.
    destruct (bool_decide (Anchor.d_name a = nm)); simpl in Hput; [|done].
    eapply IH; [by eapply valid_inode_parent| |exact Hput].
    simpl. rewrite <-Hd. apply balanced_erase; [done..|lia].
Qed.

(** Between the calls of the hooks the counts are balanced. *)
Lemma reachable_balanced st0 st D :
  anchor_map st0 = ∅ →
  reachable_from st0 st D → balanced (anchor_map st) D (λ _, 0).
Proof.
  intros Hempty Hreach.
  induction Hreach as [|st D i st' _ IH Hv HD Hop|st D i st' _ IH Hv HD Hop
                       |st D i st' _ IH Hv Hop|st D i st' _ IH Hv Hop].
  - rewrite Hempty. split.
    + intros i a. by rewrite lookup_empty.
    + intros i _. unfold nref_of, num_children, children, direct.
      rewrite lookup_empty, map_filter_empty, map_size_empty.
      rewrite bool_decide_eq_false_2 by set_solver. done.
  - unfold add_inode in Hop. case_match; [done|].
    eapply get_ref_balanced; [done| |exact Hop].
    destruct IH as [HK HR]. split; [done|].
    intros j Hj. rewrite direct_add by done. specialize (HR j Hj). lia.
  - unfold remove_inode in Hop. case_match; [done|].
    eapply put_ref_balanced; [done| |exact Hop].
    destruct IH as [HK HR]. split; [done|].
    intros j Hj. rewrite direct_remove by done. specialize (HR j Hj). lia.
  - unfold notify_link in Hop.
    destruct (anchor_map st !! Inode.ino i) as [a|] eqn:Ha; [|done].
    destruct (0 <? Anchor.nref a); simpl in Hop; [|done].
    destruct (bool_decide (Anchor.dirino a = 0%N)) eqn:Hd; simpl in Hop; [|done].
    apply bool_decide_eq_true in Hd.
    destruct (bool_decide (Anchor.d_name a = "")); simpl in Hop; [|done].
    destruct i as [n ty lj [[nm pin]|]]; simpl in *; [|done].
    eapply get_ref_balanced; [by eapply valid_inode_parent| |exact Hop].
    simpl. by apply balanced_link.
  - unfold notify_unlink in Hop.
    destruct (anchor_map st !! Inode.ino i) as [a|] eqn:Ha; [|done].
    destruct (0 <? Anchor.nref a); simpl in Hop; [|done].
    destruct i as [n ty lj [[nm pin]|]]; simpl in *; [|done].
    destruct (bool_decide (Anchor.dirino a = Inode.ino pin)) eqn:Hd;
      simpl in Hop; [|done].
    apply bool_decide_eq_true in Hd.
    destruct (bool_decide (Anchor.d_name a = nm)); simpl in Hop; [|done].
    eapply put_ref_balanced; [by eapply valid_inode_parent| |exact Hop].
    simpl. rewrite <-Hd. by apply balanced_unlink.
Qed.

(** C5.  In every state the four hooks lead to from the empty table, each
    anchor's count is one if its inode is directly tracked, else zero, plus
    the number of anchors whose parent directory it is. *)
Theorem nref_is_direct_plus_children (st : OpenFileTable) (D : gset inodeno_t)
    (i : inodeno_t) (a : Anchor.t) :
  reachable_from empty_table st D →
  anchor_map st !! i = Some a →
  Anchor.nref a = direct D (Anchor.ino a) + num_children (anchor_map st) (Anchor.ino a).
Proof.
  intros Hreach Ha.
  destruct (reachable_balanced empty_table _ _ eq_refl Hreach) as [HK HR].
  destruct (HK _ _ Ha) as (Hino & Hi0 & _).
  specialize (HR i Hi0). unfold nref_of in HR. rewrite Ha in HR. simpl in HR.
  rewrite Hino. lia.
Qed.

Lemma nref_is_direct_plus_children_witness :
  Anchor.nref (Anchor.make 1%N 0%N "" DT_DIR 1)
  = direct ({[16%N]} ∪ ∅) 1%N + num_children (anchor_map after_add_10) 1%N.
Proof.
  apply (nref_is_direct_plus_children after_add_10 ({[16%N]} ∪ ∅) 1%N
           (Anchor.make 1%N 0%N "" DT_DIR 1)).
  - apply (reach_add empty_table empty_table ∅ file_10).
    + apply reach_start.
    + repeat constructor; done.
    + set_solver.
    + reflexivity.
  - reflexivity.
Defined.

(** The two invariants of the data model that come with the balance: a live
    anchor has a positive count, and the parent it names has an anchor. *)
Lemma reachable_nref_positive st D i a :
  reachable_from empty_table st D → anchor_map st !! i = Some a →
  1 ≤ Anchor.nref a.
Proof.
  intros Hreach Ha.
  destruct (reachable_balanced empty_table _ _ eq_refl Hreach) as [HK _].
  destruct (HK _ _ Ha) as (_ & _ & ?). lia.
Qed.

Lemma reachable_parent_anchored st D i a :
  reachable_from empty_table st D → anchor_map st !! i = Some a →
  Anchor.dirino a ≠ 0%N → is_Some (anchor_map st !! Anchor.dirino a).
Proof.
  intros Hreach Ha Hd.
  destruct (reachable_balanced empty_table _ _ eq_refl Hreach) as [HK HR].
  specialize (HR _ Hd).
  destruct (anchor_map st !! Anchor.dirino a) as [p|] eqn:Hp; [by eexists|].
  exfalso. unfold nref_of in HR. rewrite Hp in HR. simpl in HR.
  assert (0 < num_children (anchor_map st) (Anchor.dirino a)) as Hpos.
  { rewrite <-(insert_id (anchor_map st) i a), <-insert_delete_eq by done.
    rewrite num_children_insert_fresh by apply lookup_delete_eq.
    rewrite ind_same. unfold num_children. lia. }
  unfold direct in HR. case_bool_decide; lia.
Qed.

(** ** Acquire then release *)

Lemma emplace_lookup {V} (k : inodeno_t) (v : V) (m : gmap inodeno_t V) j :
  emplace k v m !! j
  = if bool_decide (j = k) then Some (default v (m !! k)) else m !! j.
Proof.
  unfold emplace. case_bool_decide as Hj.
  - subst. destruct (m !! k) eqn:Hk; simpl; [done|]. by rewrite lookup_insert_eq.
  - destruct (m !! k); [done|]. by rewrite lookup_insert_ne.
Qed.

(** [get_ref] leaves alone what the table holds about an inode that is not
    on the chain it climbs. *)
Lemma get_ref_frame i :
  ∀ st st' k, get_ref i st = Some st' → k ∉ Inode.chain i →
    entry_at k st' = entry_at k st ∧ flagged_at k st' = flagged_at k st.
Proof.
  induction i as [n ty lj|n ty lj nm pin IH] using CInode_ind;
    intros st st' k Hget Hk; simpl in Hget, Hk;
    destruct (anchor_map st !! n) as [a|] eqn:Ha.
  - repeat case_match; simplify_eq. unfold entry_at, flagged_at. simpl.
    rewrite lookup_insert_ne by set_solver. done.
  - simplify_eq. unfold entry_at, flagged_at. simpl.
    rewrite lookup_insert_ne, emplace_lookup by set_solver.
    rewrite bool_decide_eq_false_2 by set_solver.
    split; [done|]. apply bool_decide_ext. set_solver.
  - repeat case_match; simplify_eq. unfold entry_at, flagged_at. simpl.
    rewrite lookup_insert_ne by set_solver. done.
  - apply (IH _ _ k) in Hget; [|set_solver].
    destruct Hget as [-> ->]. unfold entry_at, flagged_at. simpl.
    rewrite lookup_insert_ne, emplace_lookup by set_solver.
    rewrite bool_decide_eq_false_2 by set_solver.
    split; [done|]. apply bool_decide_ext. set_solver.
Qed.

Lemma set_nref_undo a z : Anchor.set_nref (z + 1 - 1) (Anchor.set_nref (z + 1) a)
                          = Anchor.set_nref z a.
Proof. unfold Anchor.set_nref. simpl. f_equal. lia. Qed.

Lemma set_nref_id a : Anchor.set_nref (Anchor.nref a) a = a.
Proof. by destruct a. Qed.

(** The dirty entry of [n] after an acquire that created the anchor of [n]
    and a release that erased it, from the entry [d] before the acquire. *)
Lemma dirty_cancel (n : inodeno_t) (d : gmap inodeno_t Z) (d1 : gmap inodeno_t Z) :
  (∀ f, d !! n = Some f → Z.land f DIRTY_NEW = 0) →
  d1 !! n = emplace n DIRTY_NEW d !! n →
  match d1 !! n with
  | None => <[n := 0]> d1
  | Some f => if bool_decide (Z.land f DIRTY_NEW ≠ 0) then delete n d1 else d1
  end !! n = d !! n.
Proof.
  intros Hclean Hd1. rewrite emplace_lookup, bool_decide_eq_true_2 in Hd1 by done.
  destruct (d !! n) as [f|] eqn:Hd; simpl in Hd1; rewrite Hd1.
  - rewrite bool_decide_eq_false_2; [done|].
    intros Hne. apply Hne, (Hclean f eq_refl).
  - rewrite bool_decide_eq_true_2 by done. apply lookup_delete_eq.
Qed.

Lemma dirty_cancel_ne (n k : inodeno_t) (d1 : gmap inodeno_t Z) :
  k ≠ n →
  match d1 !! n with
  | None => <[n := 0]> d1
  | Some f => if bool_decide (Z.land f DIRTY_NEW ≠ 0) then delete n d1 else d1
  end !! k = d1 !! k.
Proof.
  intros Hk. destruct (d1 !! n) as [f|]; [case_bool_decide|].
  - by rewrite lookup_delete_ne.
  - done.
  - by rewrite lookup_insert_ne.
Qed.

Lemma get_ref_create n ty lj dn st :
  anchor_map st !! n = None →
  get_ref (mk_CInode n ty lj dn) st
  = match dn with
    | Some (nm, pin) => get_ref pin (created n (Inode.ino pin) nm ty st)
    | None => Some (created n 0%N "" ty st)
    end.
Proof. intros Ha. simpl. rewrite Ha. by destruct dn as [[? ?]|]. Qed.

Lemma get_ref_bump n ty lj dn st a st' :
  anchor_map st !! n = Some a →
  get_ref (mk_CInode n ty lj dn) st = Some st' →
  flagged_at n st = true ∧ 0 < Anchor.nref a ∧
  st' = set_anchor_map st (<[n := Anchor.set_nref (Anchor.nref a + 1) a]> (anchor_map st)).
Proof.
  intros Ha. simpl. rewrite Ha. unfold flagged_at.
  destruct (bool_decide (n ∈ tracked_by_oft st)); simpl; [|done].
  destruct (Z.ltb_spec 0 (Anchor.nref a)); simpl; [|done].
  intros [= <-]. done.
Qed.

Lemma put_ref_drop n ty lj dn st a :
  flagged_at n st = true → anchor_map st !! n = Some a → 1 < Anchor.nref a →
  put_ref (mk_CInode n ty lj dn) st
  = Some (set_anchor_map st
            (<[n := Anchor.set_nref (Anchor.nref a - 1) a]> (anchor_map st))).
Proof.
  unfold flagged_at. intros Hf Ha Hgt. simpl. rewrite Hf, Ha. simpl.
  destruct (Z.ltb_spec 0 (Anchor.nref a)); [|lia].
  destruct (Z.ltb_spec 1 (Anchor.nref a)); [|lia]. done.
Qed.

Lemma put_ref_erase n ty lj dn st a :
  flagged_at n st = true → anchor_map st !! n = Some a → Anchor.nref a = 1 →
  Anchor.dirino a = match dn with Some (_, pin) => Inode.ino pin | None => 0%N end →
  Anchor.d_name a = match dn with Some (nm, _) => nm | None => "" end →
  put_ref (mk_CInode n ty lj dn) st
  = match dn with
    | Some (_, pin) => put_ref pin (erased n st)
    | None => Some (erased n st)
    end.
Proof.
  unfold flagged_at. intros Hf Ha Hone Hd Hnm. simpl. rewrite Hf, Ha, Hone. simpl.
  destruct dn as [[nm pin]|]; rewrite !bool_decide_eq_true_2 by done; done.
Qed.

Lemma entry_at_created n p nm ty st k :
  entry_at k (created n p nm ty st)
  = if bool_decide (k = n)
    then (Some (Anchor.make n p nm ty 1),
          Some (default DIRTY_NEW (dirty_items st !! n)))
    else entry_at k st.
Proof.
  unfold entry_at, created. simpl. rewrite emplace_lookup.
  case_bool_decide as Hk.
  - subst. by rewrite lookup_insert_eq.
  - by rewrite lookup_insert_ne.
Qed.

Lemma flagged_at_created n p nm ty st k :
  flagged_at k (created n p nm ty st)
  = if bool_decide (k = n) then true else flagged_at k st.
Proof.
  unfold flagged_at, created. simpl. destruct (decide (k = n)) as [->|Hk].
  - rewrite (bool_decide_eq_true_2 (n = n)) by done.
    apply bool_decide_eq_true_2. set_solver.
  - rewrite (bool_decide_eq_false_2 (k = n)) by done.
    apply bool_decide_ext. set_solver.
Qed.

Lemma entry_at_erased_ne n st k :
  k ≠ n → entry_at k (erased n st) = entry_at k st
          ∧ flagged_at k (erased n st) = flagged_at k st.
Proof.
  intros Hk. unfold entry_at, flagged_at, erased. simpl.
  rewrite lookup_delete_ne, dirty_cancel_ne by done.
  split; [done|]. apply bool_decide_ext. set_solver.
Qed.

(** A release undoes an acquire along the same chain: whatever else has
    happened to the table off the chain, the release runs to its end, puts
    back what the table held about the inodes of the chain before the
    acquire, and touches nothing else. *)
Lemma get_put_cancel i :
  ∀ st st1 st1',
    NoDup (Inode.chain i) →
    (∀ k f, k ∈ Inode.chain i → anchor_map st !! k = None →
            dirty_items st !! k = Some f → Z.land f DIRTY_NEW = 0) →
    get_ref i st = Some st1 →
    (∀ k, k ∈ Inode.chain i →
          entry_at k st1' = entry_at k st1 ∧ flagged_at k st1' = flagged_at k st1) →
    ∃ st2, put_ref i st1' = Some st2 ∧
      (∀ k, k ∈ Inode.chain i → entry_at k st2 = entry_at k st) ∧
      (∀ k, k ∉ Inode.chain i → entry_at k st2 = entry_at k st1').
Proof.
  induction i as [n ty lj|n ty lj nm pin IH] using CInode_ind;
    intros st st1 st1' Hnd Hclean Hget Hagree;
    destruct (anchor_map st !! n) as [a|] eqn:Ha.
  - (* the top of the chain had an anchor: one reference more, one less *)
    apply (get_ref_bump _ _ _ _ _ a) in Hget as (Hf & Hpos & ->); [|done].
    destruct (Hagree n) as [He Hf']; [simpl; set_solver|].
    unfold entry_at in He. simpl in He. rewrite lookup_insert_eq in He.
    injection He as Ha' Hd'. unfold flagged_at in Hf'. simpl in Hf'.
    eexists. split; [apply (put_ref_drop _ _ _ _ _ _ (eq_trans Hf' Hf) Ha'); simpl; lia|].
    simpl. split.
    + intros k ->%list_elem_of_singleton. unfold entry_at. simpl.
      rewrite lookup_insert_eq, set_nref_undo, set_nref_id. congruence.
    + intros k Hk. unfold entry_at. simpl.
      rewrite lookup_insert_ne by set_solver. done.
  - (* the top of the chain got its anchor from the acquire *)
    rewrite get_ref_create in Hget by done. simplify_eq.
    destruct (Hagree n) as [He Hf']; [simpl; set_solver|].
    rewrite entry_at_created, bool_decide_eq_true_2 in He by done.
    rewrite flagged_at_created, bool_decide_eq_true_2 in Hf' by done.
    injection He as Ha' Hd'.
    eexists. split; [by apply (put_ref_erase _ _ _ None _ _ Hf' Ha')|].
    split.
    + intros k ->%list_elem_of_singleton. unfold entry_at, erased. simpl.
      rewrite lookup_delete_eq, Ha. f_equal.
      apply dirty_cancel.
      * intros f Hf. apply (Hclean n f); [simpl; set_solver|done..].
      * by rewrite Hd', emplace_lookup, bool_decide_eq_true_2.
    + intros k Hk. apply entry_at_erased_ne. simpl in Hk. set_solver.
  - apply (get_ref_bump _ _ _ _ _ a) in Hget as (Hf & Hpos & ->); [|done].
    destruct (Hagree n) as [He Hf']; [simpl; set_solver|].
    unfold entry_at in He. simpl in He. rewrite lookup_insert_eq in He.
    injection He as Ha' Hd'. unfold flagged_at in Hf'. simpl in Hf'.
    eexists. split; [apply (put_ref_drop _ _ _ _ _ _ (eq_trans Hf' Hf) Ha'); simpl; lia|].
    simpl. split.
    + intros k Hk. unfold entry_at. simpl.
      destruct (decide (k = n)) as [->|Hne].
      * rewrite lookup_insert_eq, set_nref_undo, set_nref_id. congruence.
      * rewrite lookup_insert_ne by done.
        destruct (Hagree k Hk) as [Hek _]. unfold entry_at in Hek. simpl in Hek.
        rewrite lookup_insert_ne in Hek by done. done.
    + intros k Hk. unfold entry_at. simpl.
      rewrite lookup_insert_ne by set_solver. done.
  - rewrite get_ref_create in Hget by done.
    simpl in Hnd. apply NoDup_cons in Hnd as [Hn Hnd].
    destruct (get_ref_frame _ _ _ n Hget Hn) as [Hen Hfn].
    rewrite entry_at_created, bool_decide_eq_true_2 in Hen by done.
    rewrite flagged_at_created, bool_decide_eq_true_2 in Hfn by done.
    destruct (Hagree n) as [He Hf']; [simpl; set_solver|].
    rewrite Hen in He. rewrite Hfn in Hf'. injection He as Ha' Hd'.
    rewrite (put_ref_erase _ _ _ (Some (nm, pin)) _ _ Hf' Ha') by done.
    destruct (IH (created n (Inode.ino pin) nm ty st) st1 (erased n st1'))
      as (st2 & Hput & Hin & Hout); [done| |done| |].
    { intros k f Hk HNone Hdirty. apply (Hclean k f); [simpl; set_solver|..].
      - unfold created in HNone. simpl in HNone.
        rewrite lookup_insert_ne in HNone by set_solver. done.
      - unfold created in Hdirty. simpl in Hdirty.
        rewrite emplace_lookup, bool_decide_eq_false_2 in Hdirty by set_solver.
        done. }
    { intros k Hk.
      destruct (entry_at_erased_ne n st1' k) as [-> ->]; [set_solver|].
      apply Hagree. simpl. set_solver. }
    exists st2. split; [done|]. split.
    + intros k Hk. simpl in Hk. destruct (decide (k = n)) as [->|Hne].
      * rewrite Hout by done. unfold entry_at, erased. simpl.
        rewrite lookup_delete_eq, Ha. f_equal.
        apply dirty_cancel.
        -- intros f Hf. apply (Hclean n f); [simpl; set_solver|done..].
        -- by rewrite Hd', emplace_lookup, bool_decide_eq_true_2.
      * rewrite Hin by set_solver.
        rewrite entry_at_created, bool_decide_eq_false_2 by done. done.
    + intros k Hk. simpl in Hk. rewrite Hout by set_solver.
      apply entry_at_erased_ne. set_solver.
Qed.

(** [dirty_new_anchored] holds of the empty table and is kept by the
    reference engine and by [commit]. *)

Lemma get_ref_dirty_new_anchored i :
  ∀ st st', get_ref i st = Some st' → dirty_new_anchored st → dirty_new_anchored st'.
Proof.
  induction i as [n ty lj|n ty lj nm pin IH] using CInode_ind;
    intros st st' Hget Hdna;
    destruct (anchor_map st !! n) as [a|] eqn:Ha.
  1,3: apply (get_ref_bump _ _ _ _ _ a) in Hget as (_ & _ & ->); [|done];
    intros k f Hk Hf; simpl in *;
    destruct (decide (k = n)) as [->|];
    [rewrite lookup_insert_eq; by eexists
    |rewrite lookup_insert_ne by done; by eapply Hdna].
  - rewrite get_ref_create in Hget by done. simplify_eq.
    intros k f Hk Hf. unfold created in *. simpl in *.
    destruct (decide (k = n)) as [->|Hne].
    + rewrite lookup_insert_eq. by eexists.
    + rewrite lookup_insert_ne by done.
      rewrite emplace_lookup, bool_decide_eq_false_2 in Hk by done.
      by eapply Hdna.
  - rewrite get_ref_create in Hget by done.
    eapply IH; [exact Hget|].
    intros k f Hk Hf. unfold created in *. simpl in *.
    destruct (decide (k = n)) as [->|Hne].
    + rewrite lookup_insert_eq. by eexists.
    + rewrite lookup_insert_ne by done.
      rewrite emplace_lookup, bool_decide_eq_false_2 in Hk by done.
      by eapply Hdna.
Qed.

Lemma erased_dirty_new_anchored n st :
  dirty_new_anchored st → dirty_new_anchored (erased n st).
Proof.
  intros Hdna k f Hk Hf. unfold erased in *. simpl in *.
  destruct (decide (k = n)) as [->|Hne].
  - exfalso. destruct (dirty_items st !! n) as [g|] eqn:Hg.
    + destruct (decide (Z.land g DIRTY_NEW ≠ 0)) as [Hnew|Hnew].
      * rewrite bool_decide_eq_true_2, lookup_delete_eq in Hk by done. done.
      * rewrite bool_decide_eq_false_2 in Hk by done.
        rewrite Hg in Hk. by simplify_eq.
    + rewrite lookup_insert_eq in Hk. by simplify_eq.
  - rewrite lookup_delete_ne by done.
    rewrite dirty_cancel_ne in Hk by done. by eapply Hdna.
Qed.

Lemma put_ref_dirty_new_anchored i :
  ∀ st st', put_ref i st = Some st' → dirty_new_anchored st → dirty_new_anchored st'.
Proof.
  induction i as [n ty lj|n ty lj nm pin IH] using CInode_ind;
    intros st st' Hput Hdna; simpl in Hput;
    destruct (bool_decide (n ∈ tracked_by_oft st)); simpl in Hput; try done;
    destruct (anchor_map st !! n) as [a|] eqn:Ha; try done;
    destruct (0 <? Anchor.nref a); simpl in Hput; try done;
    destruct (1 <? Anchor.nref a); simpl in Hput.
  1,3: simplify_eq; intros k f Hk Hf; simpl in *;
    destruct (decide (k = n)) as [->|];
    [rewrite lookup_insert_eq; by eexists
    |rewrite lookup_insert_ne by done; by eapply Hdna].
  - case_match; simpl in Hput; try done. simplify_eq.
    by apply (erased_dirty_new_anchored n).
  - case_match; simpl in Hput; try done.
    eapply IH; [exact Hput|]. by apply (erased_dirty_new_anchored n).
Qed.

Lemma reachable_dirty_new_anchored st0 st D :
  dirty_new_anchored st0 → reachable_from st0 st D → dirty_new_anchored st.
Proof.
  intros Hdna0 Hreach.
  induction Hreach as [|st D i st' _ IH Hv HD Hop|st D i st' _ IH Hv HD Hop
                       |st D i st' _ IH Hv Hop|st D i st' _ IH Hv Hop]; [done|..].
  - unfold add_inode in Hop. case_match; [done|].
    by eapply get_ref_dirty_new_anchored.
  - unfold remove_inode in Hop. case_match; [done|].
    by eapply put_ref_dirty_new_anchored.
  - unfold notify_link in Hop.
    destruct (anchor_map st !! Inode.ino i) as [a|] eqn:Ha; [|done].
    repeat (case_match; simpl in Hop; try done). simplify_eq.
    eapply get_ref_dirty_new_anchored; [exact Hop|].
    intros k f Hk Hf. simpl in *.
    destruct (decide (k = Inode.ino i)) as [->|Hne].
    + rewrite lookup_insert_eq. by eexists.
    + rewrite lookup_insert_ne by done.
      rewrite emplace_lookup, bool_decide_eq_false_2 in Hk by done.
      by eapply IH.
  - unfold notify_unlink in Hop.
    destruct (anchor_map st !! Inode.ino i) as [a|] eqn:Ha; [|done].
    repeat (case_match; simpl in Hop; try done). simplify_eq.
    eapply put_ref_dirty_new_anchored; [exact Hop|].
    intros k f Hk Hf. simpl in *.
    destruct (decide (k = Inode.ino i)) as [->|Hne].
    + rewrite lookup_insert_eq. by eexists.
    + rewrite lookup_insert_ne by done.
      rewrite emplace_lookup, bool_decide_eq_false_2 in Hk by done.
      by eapply IH.
Qed.

Lemma foldl_inv {A B} (P : B → Prop) (f : B → A → B) l :
  (∀ b a, P b → P (f b a)) → ∀ b, P b → P (foldl f b l).
Proof.
  intros Hf. induction l as [|a l IH]; intros b Hb; simpl; [done|].
  by apply IH, Hf.
Qed.

Section commit_post.
Context `{Encoding}.
Context (log_seq : N) (op_prio : Z) (max_write_size : Z).

Lemma flush_if_full_keeps st0 s :
  commit_keeps st0 s →
  commit_keeps st0 (flush_if_full log_seq op_prio max_write_size s).
Proof.
  destruct s as [st l]. unfold flush_if_full, commit_keeps. by case_match.
Qed.

Lemma commit_dirty_item_keeps st0 first_commit s it :
  commit_keeps st0 s →
  commit_keeps st0
    (commit_dirty_item log_seq op_prio max_write_size first_commit s it).
Proof.
  destruct s as [st l]. intros (Ha & Hd & Hc & Hl). cbn [fst] in Ha, Hd, Hc, Hl.
  unfold commit_dirty_item.
  assert (commit_keeps st0
            (match (if first_commit then loaded_anchor_map st !! it.1 else None) with
             | Some _ => set_loaded_anchor_map st (delete it.1 (loaded_anchor_map st))
             | None => st
             end, l)) as (Ha' & Hd' & Hc' & Hl').
  { destruct (if first_commit then _ else _); [|done].
    repeat split; simpl; try done. intros Hempty. rewrite (Hl Hempty).
    apply delete_empty. }
  repeat case_match; try done; by apply flush_if_full_keeps.
Qed.

Lemma commit_loaded_item_keeps st0 s it :
  commit_keeps st0 s →
  commit_keeps st0 (commit_loaded_item log_seq op_prio max_write_size s it).
Proof.
  destruct s as [st l]. intros Hs. unfold commit_loaded_item.
  by apply flush_if_full_keeps.
Qed.

(** Whatever it writes, a commit that passes its assertion leaves the
    anchors as they are, empties the dirty set and the loaded map, lowers
    the clear flag, and has begun at [log_seq]. *)
Lemma commit_post c st x :
  commit log_seq op_prio max_write_size c st = Some x →
  anchor_map x.1.1 = anchor_map st ∧ dirty_items x.1.1 = ∅ ∧
  loaded_anchor_map x.1.1 = ∅ ∧ clear_on_commit x.1.1 = false ∧
  committing_log_seq x.1.1 = log_seq.
Proof.
  unfold commit. case_match; [done|]. intros [= <-].
  set (first_commit := negb (bool_decide (loaded_anchor_map st = ∅))).
  set (s1 := foldl (commit_dirty_item _ _ _ first_commit) _ (entries (dirty_items st))).
  assert (commit_keeps (set_committing_log_seq st log_seq) s1)
    as (Ha1 & Hd1 & Hc1 & Hl1).
  { apply (foldl_inv (commit_keeps (set_committing_log_seq st log_seq)));
      [intros; by apply commit_dirty_item_keeps|done]. }
  simpl in Ha1, Hd1, Hc1, Hl1.
  set (s2 := foldl (commit_loaded_item _ _ _) _ _).
  assert (commit_keeps (set_dirty_items s1.1 ∅) s2) as (Ha2 & Hd2 & Hc2 & Hl2).
  { apply (foldl_inv (commit_keeps (set_dirty_items s1.1 ∅)));
      [intros; by apply commit_loaded_item_keeps|done]. }
  simpl in Ha2, Hd2, Hc2, Hl2.
  destruct first_commit eqn:Hfirst; simpl.
  - by rewrite Ha2, Hd2, Hc2, Ha1, Hc1.
  - rewrite Ha1, Hc1. repeat split; try done. apply Hl1.
    unfold first_commit in Hfirst. apply negb_false_iff in Hfirst.
    by apply bool_decide_eq_true in Hfirst.
Qed.

End commit_post.

Lemma commit_dirty_new_anchored `{Encoding} log_seq op_prio max_write_size c st x :
  commit log_seq op_prio max_write_size c st = Some x →
  dirty_new_anchored x.1.1.
Proof.
  intros (_ & Hd & _)%commit_post k f Hk. by rewrite Hd, lookup_empty in Hk.
Qed.

Lemma dirty_new_anchored_clean st k f :
  dirty_new_anchored st → anchor_map st !! k = None →
  dirty_items st !! k = Some f → Z.land f DIRTY_NEW = 0.
Proof.
  intros Hdna Ha Hd. destruct (decide (Z.land f DIRTY_NEW = 0)) as [|Hne]; [done|].
  destruct (Hdna k f Hd Hne) as [a Ha']. congruence.
Qed.

(** C8, as the code has it.  For an inode that has no anchor, on an acyclic
    parent chain, [add_inode] followed by [remove_inode] leaves the anchor map
    and the dirty set as they were before [add_inode]: the [DIRTY_NEW]
    entries the acquire made are erased by the release, and a dirty entry
    that was there before (a removal not yet committed) stays. *)
Theorem add_then_remove_restores (i : CInode) (st st1 : OpenFileTable) :
  NoDup (Inode.chain i) →
  dirty_new_anchored st →
  anchor_map st !! Inode.ino i = None →
  add_inode i st = Some st1 →
  ∃ st2, remove_inode i st1 = Some st2 ∧
         anchor_map st2 = anchor_map st ∧ dirty_items st2 = dirty_items st.
Proof.
  intros Hnd Hdna Ha Hadd.
  unfold add_inode in Hadd. case_match; [done|]. clear H.
  destruct (get_put_cancel i st st1 st1 Hnd) as (st2 & Hput & Hin & Hout);
    [by intros k f _; apply dirty_new_anchored_clean|done|done|].
  assert (∀ k, entry_at k st2 = entry_at k st) as Hall.
  { intros k. destruct (decide (k ∈ Inode.chain i)) as [Hk|Hk]; [by apply Hin|].
    rewrite Hout by done. by apply (get_ref_frame i). }
  exists st2. split; [|split].
  - unfold remove_inode.
    assert (∃ a, anchor_map st1 !! Inode.ino i = Some a ∧ Anchor.nref a = 1)
      as (a & -> & ->).
    { destruct i as [n ty lj dn]. simpl in Ha, Hnd |- *.
      rewrite get_ref_create in Hadd by done. destruct dn as [[nm pin]|].
      - apply NoDup_cons in Hnd as [Hn _].
        destruct (get_ref_frame _ _ _ n Hadd Hn) as [He _].
        rewrite entry_at_created, bool_decide_eq_true_2 in He by done.
        injection He as -> _. by eexists.
      - simplify_eq. unfold created. simpl. rewrite lookup_insert_eq. by eexists. }
    rewrite bool_decide_eq_true_2 by done. by rewrite orb_true_r.
  - apply map_eq. intros k. specialize (Hall k). by injection Hall.
  - apply map_eq. intros k. specialize (Hall k). by injection Hall.
Qed.

Lemma add_then_remove_restores_witness :
  ∃ st2, remove_inode file_11 (default empty_table (add_inode file_11 after_remove_10))
         = Some st2 ∧
         anchor_map st2 = anchor_map after_remove_10 ∧
         dirty_items st2 = dirty_items after_remove_10.
Proof.
  apply (add_then_remove_restores file_11 after_remove_10).
  - vm_compute. repeat constructor; set_solver.
  - intros k f Hk Hf. exfalso. apply Hf. clear Hf. revert Hk. vm_compute.
    intros Hk. repeat case_match; simplify_eq; done.
  - vm_compute. reflexivity.
  - vm_compute. reflexivity.
Defined.

(** C8, the claim as it is worded, fails.  The directory [0x1] was anchored
    for [file_10], committed, and released: its removal waits in the dirty
    set.  [file_11] was never anchored; adding it creates the anchor of the
    directory anew, and removing it leaves the anchor map as before, but the
    dirty set still holds the entry of the directory. *)
Lemma add_then_remove_counterexample :
  add_inode file_10 empty_table = Some after_add_10 ∧
  (∃ ops, @commit toy_encoding 5 0 4096 None after_add_10
          = Some (after_commit_5, ops, (5%N, None))) ∧
  remove_inode file_10 after_commit_5 = Some after_remove_10 ∧
  anchor_map after_remove_10 = ∅ ∧
  ∃ st1 st2,
    add_inode file_11 after_remove_10 = Some st1 ∧
    is_Some (anchor_map st1 !! 1%N) ∧
    remove_inode file_11 st1 = Some st2 ∧
    anchor_map st2 = anchor_map after_remove_10 ∧
    dirty_items st2 !! 1%N = Some 0.
Proof.
  split; [vm_compute; reflexivity|].
  split; [eexists; vm_compute; reflexivity|].
  split; [vm_compute; reflexivity|].
  split; [vm_compute; reflexivity|].
  eexists _, _.
  split; [vm_compute; reflexivity|].
  split; [vm_compute; by eexists|].
  split; [vm_compute; reflexivity|].
  split; vm_compute; reflexivity.
Qed.

(** ** The commit marker *)

Section commit_header.
Context `{Encoding}.
Context (log_seq : N) (op_prio : Z) (max_write_size : Z).









End commit_header.



(** The commit of the witness has three sub-operations: the marker with the
    first entry, the second entry, and the sequence number alone. *)
Example small_cap_commit_headers :
  op_header <$> small_cap_commit = [Some 0%N; None; Some 5%N].
Proof. vm_compute. reflexivity. Qed.

(** ** The first commit after a load *)

Lemma elem_of_entries {V} (m : gmap inodeno_t V) k v :
  (k, v) ∈ entries m ↔ m !! k = Some v.
Proof.
  unfold entries. rewrite merge_sort_Permutation. apply elem_of_map_to_list.
Qed.

Lemma NoDup_entries {V} (m : gmap inodeno_t V) : NoDup (entries m).*1.
Proof.
  unfold entries. rewrite merge_sort_Permutation. apply NoDup_fst_map_to_list.
Qed.

Lemma entries_empty {V} : entries (∅ : gmap inodeno_t V) = [].
Proof. unfold entries. by rewrite map_to_list_empty. Qed.

Lemma set_loaded_anchor_map_id st :
  set_loaded_anchor_map st (loaded_anchor_map st) = st.
Proof. by destruct st. Qed.

Lemma get_ref_keeps i :
  ∀ st st', get_ref i st = Some st' → freshly_dirty st →
    freshly_dirty st' ∧ same_store st st'.
Proof.
  induction i as [n ty lj|n ty lj nm pin IH] using CInode_ind;
    intros st st' Hget Hfd;
    destruct (anchor_map st !! n) as [a|] eqn:Ha.
  1,3: apply (get_ref_bump _ _ _ _ _ a) in Hget as (_ & _ & ->); [|done];
    split; [|done]; intros k; simpl; specialize (Hfd k);
    destruct (decide (k = n)) as [->|]; 
    [rewrite lookup_insert_eq, Hfd, Ha; done|by rewrite lookup_insert_ne].
  - rewrite get_ref_create in Hget by done. simplify_eq. split; [|done].
    intros k. unfold created. simpl. rewrite emplace_lookup.
    specialize (Hfd k). case_bool_decide as Hk.
    + subst. rewrite lookup_insert_eq. simpl. specialize (Hfd). 
      rewrite Ha in Hfd. simpl in Hfd. by rewrite Hfd.
    + by rewrite lookup_insert_ne.
  - rewrite get_ref_create in Hget by done.
    apply IH in Hget as [Hfd' Hsame]; [done|].
    intros k. unfold created. simpl. rewrite emplace_lookup.
    specialize (Hfd k). case_bool_decide as Hk.
    + subst. rewrite lookup_insert_eq. simpl.
      rewrite Ha in Hfd. simpl in Hfd. by rewrite Hfd.
    + by rewrite lookup_insert_ne.
Qed.

Lemma put_ref_keeps i :
  ∀ st st', put_ref i st = Some st' → freshly_dirty st →
    freshly_dirty st' ∧ same_store st st'.
Proof.
  assert (Z.land DIRTY_NEW DIRTY_NEW ≠ 0) as Hnew by done.
  induction i as [n ty lj|n ty lj nm pin IH] using CInode_ind;
    intros st st' Hput Hfd; simpl in Hput;
    destruct (bool_decide (n ∈ tracked_by_oft st)); simpl in Hput; try done;
    destruct (anchor_map st !! n) as [a|] eqn:Ha; try done;
    destruct (0 <? Anchor.nref a); simpl in Hput; try done;
    destruct (1 <? Anchor.nref a); simpl in Hput.
  1,3: simplify_eq; split; [|done]; intros k; simpl; specialize (Hfd k);
    destruct (decide (k = n)) as [->|];
    [rewrite lookup_insert_eq, Hfd, Ha; done|by rewrite lookup_insert_ne].
  - case_match; simpl in Hput; try done. simplify_eq. split; [|done].
    intros k. simpl. pose proof (Hfd n) as Hn. rewrite Ha in Hn. simpl in Hn.
    rewrite Hn, bool_decide_eq_true_2 by done. specialize (Hfd k).
    destruct (decide (k = n)) as [->|].
    + by rewrite !lookup_delete_eq.
    + by rewrite !lookup_delete_ne.
  - case_match; simpl in Hput; try done.
    apply IH in Hput as [Hfd' Hsame]; [done|].
    intros k. simpl. pose proof (Hfd n) as Hn. rewrite Ha in Hn. simpl in Hn.
    rewrite Hn, bool_decide_eq_true_2 by done. specialize (Hfd k).
    destruct (decide (k = n)) as [->|].
    + by rewrite !lookup_delete_eq.
    + by rewrite !lookup_delete_ne.
Qed.

Lemma same_store_trans st0 st1 st2 :
  same_store st0 st1 → same_store st1 st2 → same_store st0 st2.
Proof. unfold same_store. intuition congruence. Qed.

(** From a table without anchors and without dirty entries, the hooks lead
    to tables whose dirty set is the set of their anchors. *)
Lemma reachable_freshly_dirty st0 st D :
  anchor_map st0 = ∅ → dirty_items st0 = ∅ →
  reachable_from st0 st D → freshly_dirty st ∧ same_store st0 st.
Proof.
  intros Ha0 Hd0 Hreach.
  induction Hreach as [|st D i st' _ [IH IHs] Hv HD Hop|st D i st' _ [IH IHs] Hv HD Hop
                       |st D i st' _ [IH IHs] Hv Hop|st D i st' _ [IH IHs] Hv Hop].
  - split; [|done]. intros k. by rewrite Ha0, Hd0, !lookup_empty.
  - unfold add_inode in Hop. case_match; [done|].
    apply get_ref_keeps in Hop as [? ?]; [|done].
    split; [done|by eapply same_store_trans].
  - unfold remove_inode in Hop. case_match; [done|].
    apply put_ref_keeps in Hop as [? ?]; [|done].
    split; [done|by eapply same_store_trans].
  - unfold notify_link in Hop.
    destruct (anchor_map st !! Inode.ino i) as [a|] eqn:Ha; [|done].
    repeat (case_match; simpl in Hop; try done). simplify_eq.
    apply get_ref_keeps in Hop as [? ?].
    + split; [done|by eapply same_store_trans].
    + intros k. simpl. rewrite emplace_lookup.
      destruct (decide (k = Inode.ino i)) as [->|Hk].
      * rewrite bool_decide_eq_true_2, lookup_insert_eq by done. simpl.
        pose proof (IH (Inode.ino i)) as IH'. rewrite Ha in IH'. simpl in IH'.
        by rewrite IH'.
      * rewrite bool_decide_eq_false_2, lookup_insert_ne by done. apply IH.
  - unfold notify_unlink in Hop.
    destruct (anchor_map st !! Inode.ino i) as [a|] eqn:Ha; [|done].
    repeat (case_match; simpl in Hop; try done). simplify_eq.
    apply put_ref_keeps in Hop as [? ?].
    + split; [done|by eapply same_store_trans].
    + intros k. simpl. rewrite emplace_lookup.
      destruct (decide (k = Inode.ino i)) as [->|Hk].
      * rewrite bool_decide_eq_true_2, lookup_insert_eq by done. simpl.
        pose proof (IH (Inode.ino i)) as IH'. rewrite Ha in IH'. simpl in IH'.
        by rewrite IH'.
      * rewrite bool_decide_eq_false_2, lookup_insert_ne by done. apply IH.
Qed.

Section first_commit.
Context `{Encoding}.
Context (log_seq : N) (op_prio : Z) (max_write_size : Z).

(** The loop over the dirty set when every dirty entry has a live anchor
    equal to the loaded one: each entry is skipped and taken out of the
    loaded map, and nothing is collected or submitted. *)
Lemma commit_dirty_reconciled (items : list (inodeno_t * Z)) :
  ∀ st l,
    NoDup items.*1 →
    (∀ k, k ∈ items.*1 →
       ∃ p q, anchor_map st !! k = Some p ∧ loaded_anchor_map st !! k = Some q ∧
              Anchor.eqb p q = true) →
    ∃ L, foldl (commit_dirty_item log_seq op_prio max_write_size true) (st, l) items
         = (set_loaded_anchor_map st L, l) ∧
         ∀ k, L !! k = if bool_decide (k ∈ items.*1) then None
                       else loaded_anchor_map st !! k.
Proof.
  induction items as [|[k f] items IH]; intros st l Hnd Hall.
  - exists (loaded_anchor_map st). simpl. rewrite set_loaded_anchor_map_id.
    by split.
  - rewrite fmap_cons in Hnd. apply NoDup_cons in Hnd as [Hk Hnd]. cbn [fst] in Hk.
    destruct (Hall k) as (p & q & Hp & Hq & Heq); [set_solver|].
    destruct (IH (set_loaded_anchor_map st (delete k (loaded_anchor_map st))) l Hnd)
      as (L & Hfold & HL).
    { intros k' Hk'. destruct (Hall k') as (p' & q' & Hp' & Hq' & Heq'); [set_solver|].
      exists p', q'. cbn [anchor_map loaded_anchor_map set_loaded_anchor_map].
      rewrite lookup_delete_ne by set_solver. done. }
    exists L. split.
    + cbn [foldl]. unfold commit_dirty_item at 2. cbn [fst].
      rewrite Hp, Hq, Heq. exact Hfold.
    + intros k'. rewrite HL.
      cbn [loaded_anchor_map set_loaded_anchor_map].
      destruct (decide (k' = k)) as [->|Hne].
      * rewrite lookup_delete_eq.
        rewrite (bool_decide_eq_true_2 (k ∈ ((k, f) :: items).*1)) by set_solver.
        by case_bool_decide.
      * rewrite lookup_delete_ne by done.
        rewrite (bool_decide_ext (k' ∈ items.*1) (k' ∈ ((k, f) :: items).*1))
          by set_solver.
        done.
Qed.

(** C7.  After a reboot the loader has filled the loaded map without an error
    ([st0]), the hooks have re-established live anchors ([st]), and these are
    the loaded ones.  Then the commit submits one sub-operation, which sets
    the header and neither updates nor removes a key: every dirty entry is
    skipped and taken out of the loaded map, which leaves nothing to
    remove. *)
Theorem commit_after_reload_writes_no_key (c : option Context)
    (st0 st : OpenFileTable) (D : gset inodeno_t) :
  anchor_map st0 = ∅ → dirty_items st0 = ∅ → clear_on_commit st0 = false →
  reachable_from st0 st D →
  same_anchors (anchor_map st) (loaded_anchor_map st0) →
  (committing_log_seq st0 ≤ log_seq)%N →
  ∃ st',
    commit log_seq op_prio max_write_size c st
    = Some (st', [mk_op op_prio false (Some log_seq) ∅ ∅], (log_seq, c)) ∧
    loaded_anchor_map st' = ∅ ∧ dirty_items st' = ∅ ∧
    anchor_map st' = anchor_map st.
Proof.
  intros Ha0 Hd0 Hclear Hreach Hsame Hseq.
  destruct (reachable_freshly_dirty _ _ _ Ha0 Hd0 Hreach)
    as (Hfd & Hloaded & Hclear' & Hcommitting & _).
  rewrite <-Hloaded in Hsame. rewrite <-Hclear' in Hclear.
  unfold commit. rewrite Hcommitting.
  destruct (N.ltb_spec log_seq (committing_log_seq st0)); [lia|].
  set (stc := set_committing_log_seq st log_seq).
  destruct (decide (loaded_anchor_map stc = ∅)) as [Hempty|Hnonempty].
  - (* nothing was loaded: no live anchor, hence no dirty entry *)
    rewrite bool_decide_eq_true_2 by done. simpl.
    assert (dirty_items st = ∅) as ->.
    { apply map_eq. intros k. rewrite Hfd, lookup_empty.
      specialize (Hsame k). simpl in Hempty. rewrite Hempty, lookup_empty in Hsame.
      by destruct (anchor_map st !! k). }
    rewrite entries_empty. simpl. rewrite Hclear.
    eexists. split; [reflexivity|]. simpl in Hempty. done.
  - rewrite bool_decide_eq_false_2 by done. simpl.
    destruct (commit_dirty_reconciled (entries (dirty_items st)) stc
                (mk_locals true 0 ∅ ∅ [])) as (L & -> & HL).
    { apply NoDup_entries. }
    { intros k [[k' f] [Hk Hin%elem_of_entries]]%list_elem_of_fmap.
      simpl in Hk. subst k'. cbn [anchor_map loaded_anchor_map stc set_committing_log_seq].
      rewrite Hfd in Hin. specialize (Hsame k).
      destruct (anchor_map st !! k) as [p|]; [|done].
      destruct (loaded_anchor_map st !! k) as [q|]; [|done]. by exists p, q. }
    assert (L = ∅) as ->.
    { apply map_eq. intros k. rewrite HL, lookup_empty. simpl.
      case_bool_decide as Hk; [done|].
      specialize (Hsame k). destruct (loaded_anchor_map st !! k) as [q|]; [|done].
      destruct (anchor_map st !! k) as [p|] eqn:Hp; [|done].
      exfalso. apply Hk. apply list_elem_of_fmap. exists (k, DIRTY_NEW).
      split; [done|]. apply elem_of_entries. by rewrite Hfd, Hp. }
    simpl. rewrite entries_empty. simpl. rewrite Hclear.
    eexists. split; [reflexivity|]. done.
Qed.

End first_commit.

Lemma commit_after_reload_writes_no_key_witness :
  ∃ st',
    @commit toy_encoding 6 0 4096 None rebooted_add_10
    = Some (st', [mk_op 0 false (Some 6%N) ∅ ∅], (6%N, None)) ∧
    loaded_anchor_map st' = ∅ ∧ dirty_items st' = ∅ ∧
    anchor_map st' = anchor_map rebooted_add_10.
Proof.
  apply (@commit_after_reload_writes_no_key toy_encoding 6 0 4096 None
           rebooted rebooted_add_10 ({[16%N]} ∪ ∅)).
  - reflexivity.
  - reflexivity.
  - reflexivity.
  - apply (reach_add rebooted rebooted ∅ file_10).
    + apply reach_start.
    + repeat constructor; done.
    + set_solver.
    + vm_compute. reflexivity.
  - intros i. vm_compute.
    repeat (case_match; simplify_eq; try done).
  - vm_compute. discriminate.
Defined.

(** ** [get_ancestors] *)



(** The walk is a function of the loaded map: there is one vector of
    tuples, whatever the vector held before the call. *)
Lemma ancestors_walk_det loaded d n vec1 vec2 :
  ancestors_walk loaded d n vec1 → ancestors_walk loaded d n vec2 → vec1 = vec2.
Proof.
  intros Hw1. revert vec2.
  induction Hw1 as [d n Hd|d n p Hd Hp|d n p rest Hd Hp _ IH]; intros vec2 Hw2;
    inversion Hw2; simplify_eq; try done.
  f_equal. by apply IH.
Qed.



(** The walk of scenario 1: one hop, to the directory [0x1] under the name
    [a], with the authority of that directory as hint. *)
Example get_ancestors_file_10 :
  get_ancestors 1 rebooted 16%N [] 0
  = Ok (true, [mk_backpointer 1 "a" 0], MDS_RANK_NONE).
Proof. reflexivity. Qed.






(** ** The prefetch driver *)

Lemma rfold_inv {A B} (P : B → Prop) (body : B → A → result B) l :
  (∀ b a b', P b → body b a = Ok b' → P b') →
  ∀ b b', P b → rfold body l b = Ok b' → P b'.
Proof.
  intros Hbody. induction l as [|a l IH]; intros b b' Hb Hrun; simpl in Hrun.
  - by simplify_eq.
  - destruct (body b a) as [b1| |] eqn:Hb1; simpl in Hrun; try done.
    eapply IH; [|done]. by eapply Hbody.
Qed.

Lemma rfold_total {A B} (I : B → Prop) (body : B → A → result B) l :
  (∀ b a, a ∈ l → I b → ∃ b', body b a = Ok b' ∧ I b') →
  ∀ b, I b → ∃ b', rfold body l b = Ok b' ∧ I b'.
Proof.
  induction l as [|a l IH]; intros Hbody b Hb; simpl.
  - by exists b.
  - destruct (Hbody b a) as (b1 & -> & Hb1); [set_solver|done|]. simpl.
    apply IH; [|done]. intros b2 a2 Ha2. apply Hbody. set_solver.
Qed.

Lemma untouched_refl st : untouched st st.
Proof. by repeat split. Qed.

Lemma untouched_trans st1 st2 st3 :
  untouched st1 st2 → untouched st2 st3 → untouched st1 st3.
Proof. unfold untouched. intros. intuition congruence. Qed.

Lemma untouched_set_auth st k a r :
  loaded_anchor_map st !! k = Some a →
  untouched st (set_loaded_anchor_map st
                  (<[k := Anchor.set_auth r a]> (loaded_anchor_map st))).
Proof.
  intros Hk. repeat split. simpl. by apply dom_insert_lookup_L.
Qed.

Section prefetch_frame.
Context `{MDSEnv}.
Context (prefetch : world → result world).
Context (prefetch_untouched : ∀ w w', prefetch w = Ok w' → untouched w.1 w'.1).

Lemma complete_untouched c r w w' :
  complete prefetch c r w = Ok w' → untouched w.1 w'.1.
Proof.
  destruct c as [id|]; simpl.
  - intros [= <-]. by repeat split.
  - apply prefetch_untouched.
Qed.

Lemma finish_contexts_untouched ls w w' :
  finish_contexts prefetch ls w = Ok w' → untouched w.1 w'.1.
Proof.
  unfold finish_contexts. intros Hrun.
  apply (rfold_inv (λ w1 : world, untouched w.1 w1.1)) in Hrun; [done| |].
  - intros w1 c w2 Hw1 Hc. eapply untouched_trans; [done|].
    by eapply complete_untouched.
  - apply untouched_refl.
Qed.

Lemma open_ino_finish_untouched ino r w w' :
  _open_ino_finish_with prefetch ino r w = Ok w' → untouched w.1 w'.1.
Proof.
  destruct w as [st mc]. unfold _open_ino_finish_with.
  set (cond := _ && _ && _).
  assert (∀ st1, (if cond
                  then match loaded_anchor_map st !! ino with
                       | None => Abort
                       | Some a => Ok (set_loaded_anchor_map st
                             (<[ino := Anchor.set_auth r a]> (loaded_anchor_map st)))
                       end
                  else Ok st) = Ok st1 → untouched st st1) as Hauth.
  { intros st1. destruct cond; [|intros [= <-]; apply untouched_refl].
    destruct (loaded_anchor_map st !! ino) as [a|] eqn:Ha; [|done].
    intros [= <-]. by apply untouched_set_auth. }
  destruct (if cond then _ else _) as [st1| |]; simpl; try done.
  specialize (Hauth st1 eq_refl).
  case_bool_decide as Hzero.
  - destruct (prefetch_state st1) eqn:Hph; try done.
    + intros Hrun%prefetch_untouched. simpl in Hrun.
      eapply untouched_trans; [exact Hauth|].
      eapply untouched_trans; [|exact Hrun]. by repeat split.
    + destruct (finish_contexts _ _ _) as [w1| |] eqn:Hfin; simpl; try done.
      intros [= <-]. apply finish_contexts_untouched in Hfin. simpl in *.
      eapply untouched_trans; [exact Hauth|].
      eapply untouched_trans; [|eapply untouched_trans; [exact Hfin|]];
        by repeat split.
  - intros [= <-]. simpl. eapply untouched_trans; [exact Hauth|]. by repeat split.
Qed.

Lemma prefetch_entry_untouched pool w k w' :
  prefetch_entry prefetch pool w k = Ok w' → untouched w.1 w'.1.
Proof.
  destruct w as [st mc]. unfold prefetch_entry.
  destruct (loaded_anchor_map st !! k) as [a|] eqn:Ha; [|done].
  assert (∀ w', (if get_inode mc k then Ok (st, mc)
                 else let st1 := set_num_opening_inodes st (num_opening_inodes st + 1) in
                      let '(mc1, done) := open_ino mc k pool in
                      match done with
                      | Some r => _open_ino_finish_with prefetch k r (st1, mc1)
                      | None => Ok (st1, mc1)
                      end) = Ok w' → untouched st w'.1) as Hopen.
  { intros w1. destruct (get_inode mc k); [intros [= <-]; apply untouched_refl|].
    cbv zeta. destruct (open_ino mc k pool) as [mc1 [r|]].
    - intros Hfin%open_ino_finish_untouched. simpl in Hfin.
      eapply untouched_trans; [|exact Hfin]. by repeat split.
    - intros [= <-]. by repeat split. }
  repeat case_match; try (intros [= <-]; simpl;
                          (apply untouched_refl || by apply untouched_set_auth));
    apply Hopen.
Qed.

Lemma prefetch_inodes_with_untouched w w' :
  _prefetch_inodes_with prefetch w = Ok w' → untouched w.1 w'.1.
Proof.
  destruct w as [st mc]. unfold _prefetch_inodes_with.
  case_match; [done|].
  destruct (match prefetch_state _ with DIR_INODES => _ | _ => _ end)
    as [pool| |]; simpl; try done.
  destruct (rfold _ _ _) as [w1| |] eqn:Hloop; simpl; try done.
  intros Hfin%open_ino_finish_untouched.
  apply (rfold_inv (λ w2 : world, untouched st w2.1)) in Hloop.
  - by eapply untouched_trans.
  - intros w2 k w3 Hw2 Hk%prefetch_entry_untouched. by eapply untouched_trans.
  - by repeat split.
Qed.

End prefetch_frame.

Lemma prefetch_inodes_untouched `{MDSEnv} fuel :
  ∀ w w', _prefetch_inodes fuel w = Ok w' → untouched w.1 w'.1.
Proof.
  induction fuel as [|fuel IH]; intros w w' Hrun; [done|].
  simpl in Hrun. by eapply prefetch_inodes_with_untouched.
Qed.

Lemma set_completed_nil st : set_completed st (completed st ++ []) = st.
Proof. rewrite app_nil_r. by destruct st. Qed.

Lemma elem_of_entries_keys {V} (m : gmap inodeno_t V) k :
  k ∈ (entries m).*1 → k ∈ dom m.
Proof.
  intros [[k' v] [Hk Hin%elem_of_entries]]%list_elem_of_fmap. simpl in Hk. subst k'.
  apply elem_of_dom. by eexists.
Qed.

Section prefetch_total.
Context `{MDSEnv}.
Context (prefetch : world → result world).

(** Firing waiters of callers only adds to the log of completions. *)
Lemma finish_contexts_callers ls :
  Forall is_caller ls →
  ∀ w, ∃ log, finish_contexts prefetch ls w
              = Ok (set_completed w.1 (completed w.1 ++ log), w.2).
Proof.
  unfold finish_contexts.
  induction 1 as [|c ls Hc _ IH]; intros [st mc]; simpl.
  - exists []. by rewrite set_completed_nil.
  - destruct c as [id|]; [|done]. simpl.
    destruct (IH (set_completed st (completed st ++ [(id, 0)]), mc)) as [log ->].
    exists ((id, 0) :: log). simpl. by rewrite <-app_assoc.
Qed.

(** A completion that arrives while other opens are counted leaves the
    phase as it is. *)
Lemma open_ino_finish_pending ph st0 ino r st mc :
  in_phase ph st0 st → 2 ≤ num_opening_inodes st →
  ino ∈ dom (loaded_anchor_map st) →
  ∃ w', _open_ino_finish_with prefetch ino r (st, mc) = Ok w' ∧
        in_phase ph st0 w'.1.
Proof.
  intros (Hph & Hnum & Hdom & Hwait) Hnum2 [a Ha]%elem_of_dom.
  unfold _open_ino_finish_with. rewrite Ha.
  destruct (_ && _ && _); simpl;
    (rewrite bool_decide_eq_false_2 by lia); eexists; (split; [done|]);
    repeat split; simpl; try done; try lia.
  rewrite <-Hdom. by apply dom_insert_lookup_L.
Qed.

Lemma prefetch_entry_in_phase pool ph st0 w k :
  in_phase ph st0 w.1 → k ∈ dom (loaded_anchor_map st0) →
  ∃ w', prefetch_entry prefetch pool w k = Ok w' ∧ in_phase ph st0 w'.1.
Proof.
  destruct w as [st mc]. intros Hin Hk. cbn [fst] in Hin.
  pose proof Hin as (Hph & Hnum & Hdom & Hwait).
  rewrite <-Hdom in Hk. pose proof Hk as [a Ha]%elem_of_dom.
  unfold prefetch_entry. rewrite Ha.
  assert (∀ r, in_phase ph st0
                 (set_loaded_anchor_map st
                    (<[k := Anchor.set_auth r a]> (loaded_anchor_map st)))) as Hauth.
  { intros r. repeat split; simpl; try done.
    rewrite <-Hdom. by apply dom_insert_lookup_L. }
  assert (∃ w', (if get_inode mc k then Ok (st, mc)
                 else let st1 := set_num_opening_inodes st (num_opening_inodes st + 1) in
                      let '(mc1, done) := open_ino mc k pool in
                      match done with
                      | Some r => _open_ino_finish_with prefetch k r (st1, mc1)
                      | None => Ok (st1, mc1)
                      end) = Ok w' ∧ in_phase ph st0 w'.1) as Hopen.
  { destruct (get_inode mc k); [by eexists|].
    cbv zeta. destruct (open_ino mc k pool) as [mc1 [r|]].
    - apply open_ino_finish_pending; simpl; [|lia|done].
      repeat split; simpl; try done; lia.
    - eexists. split; [done|]. repeat split; simpl; try done; lia. }
  destruct (bool_decide (Anchor.d_type a = DT_DIR)).
  - destruct (negb (bool_decide (prefetch_state st = DIR_INODES)));
      [eexists; split; [done|exact Hin]|].
    destruct (MDS_INO_IS_MDSDIR k); [eexists; split; [done|apply Hauth]|].
    destruct (MDS_INO_IS_STRAY k); [eexists; split; [done|apply Hauth]|].
    exact Hopen.
  - destruct (negb (bool_decide (prefetch_state st = FILE_INODES)));
      [eexists; split; [done|exact Hin]|].
    exact Hopen.
Qed.

(** The completion that closes the file phase ends the prefetch. *)
Lemma open_ino_finish_closes_file st0 w :
  in_phase FILE_INODES st0 w.1 → Forall is_caller (waiting_for_prefetch st0) →
  ∃ w', _open_ino_finish_with prefetch 0%N 0 w = Ok w'.
Proof.
  destruct w as [st mc]. cbn [fst]. intros (Hph & Hnum & Hdom & Hwait) Hcallers.
  unfold _open_ino_finish_with.
  rewrite (bool_decide_eq_true_2 (0%N = 0%N)) by done.
  rewrite andb_false_r. simpl. rewrite Hph, Hwait.
  case_bool_decide; [|by eexists].
  edestruct (finish_contexts_callers _ Hcallers) as [log ->]. simpl. by eexists.
Qed.

(** The completion that closes the directory phase starts the file phase. *)
Lemma open_ino_finish_closes_dir st0 w :
  (∀ w1, prefetch_state w1.1 = FILE_INODES → num_opening_inodes w1.1 = 0 →
         Forall is_caller (waiting_for_prefetch w1.1) →
         ∃ w', prefetch w1 = Ok w') →
  in_phase DIR_INODES st0 w.1 → Forall is_caller (waiting_for_prefetch st0) →
  ∃ w', _open_ino_finish_with prefetch 0%N 0 w = Ok w'.
Proof.
  destruct w as [st mc]. cbn [fst]. intros Hfile (Hph & Hnum & Hdom & Hwait) Hcallers.
  unfold _open_ino_finish_with.
  rewrite (bool_decide_eq_true_2 (0%N = 0%N)) by done.
  rewrite andb_false_r. simpl. rewrite Hph.
  case_bool_decide as Hzero; [|by eexists].
  apply Hfile; simpl; [done|done|by rewrite Hwait].
Qed.

Lemma prefetch_loop_in_phase pool ph st mc :
  prefetch_state st = ph →
  ∃ w', rfold (prefetch_entry prefetch pool)
              (entries (loaded_anchor_map (set_num_opening_inodes st 1))).*1
              (set_num_opening_inodes st 1, mc) = Ok w' ∧
        in_phase ph st w'.1.
Proof.
  intros Hph.
  apply (rfold_total (λ w : world, in_phase ph st w.1)).
  - intros w k Hk Hw. apply prefetch_entry_in_phase; [done|].
    by apply elem_of_entries_keys in Hk.
  - repeat split; simpl; try done.
Qed.

Lemma prefetch_file_phase_total w :
  prefetch_state w.1 = FILE_INODES → num_opening_inodes w.1 = 0 →
  Forall is_caller (waiting_for_prefetch w.1) →
  ∃ w', _prefetch_inodes_with prefetch w = Ok w'.
Proof.
  destruct w as [st mc]. cbn [fst]. intros Hph Hnum Hcallers.
  unfold _prefetch_inodes_with. rewrite bool_decide_eq_true_2 by done.
  cbn [negb]. cbv zeta.
  change (prefetch_state (set_num_opening_inodes st 1)) with (prefetch_state st).
  rewrite Hph. cbn [rbind].
  destruct (prefetch_loop_in_phase get_first_data_pool FILE_INODES st mc Hph)
    as (w1 & -> & Hin). cbn [rbind].
  by eapply open_ino_finish_closes_file.
Qed.

Lemma prefetch_dir_phase_total w :
  (∀ w1, prefetch_state w1.1 = FILE_INODES → num_opening_inodes w1.1 = 0 →
         Forall is_caller (waiting_for_prefetch w1.1) →
         ∃ w', prefetch w1 = Ok w') →
  prefetch_state w.1 = DIR_INODES → num_opening_inodes w.1 = 0 →
  Forall is_caller (waiting_for_prefetch w.1) →
  ∃ w', _prefetch_inodes_with prefetch w = Ok w'.
Proof.
  destruct w as [st mc]. cbn [fst]. intros Hfile Hph Hnum Hcallers.
  unfold _prefetch_inodes_with. rewrite bool_decide_eq_true_2 by done.
  cbn [negb]. cbv zeta.
  change (prefetch_state (set_num_opening_inodes st 1)) with (prefetch_state st).
  rewrite Hph. cbn [rbind].
  destruct (prefetch_loop_in_phase get_metadata_pool DIR_INODES st mc Hph)
    as (w1 & -> & Hin). cbn [rbind].
  by eapply open_ino_finish_closes_dir.
Qed.

End prefetch_total.

(** With fuel for its two phases, [_prefetch_inodes] entered in the
    directory phase runs to its end. *)
Lemma prefetch_inodes_total `{MDSEnv} fuel w :
  (2 ≤ fuel)%nat →
  prefetch_state w.1 = DIR_INODES → num_opening_inodes w.1 = 0 →
  Forall is_caller (waiting_for_prefetch w.1) →
  ∃ w', _prefetch_inodes fuel w = Ok w'.
Proof.
  intros Hfuel. destruct fuel as [|[|fuel]]; [lia..|]. intros Hph Hnum Hcallers.
  change (_prefetch_inodes (S (S fuel)) w)
    with (_prefetch_inodes_with (_prefetch_inodes (S fuel)) w).
  apply prefetch_dir_phase_total; [|done..].
  intros w1 Hph1 Hnum1 Hcallers1.
  change (_prefetch_inodes (S fuel) w1)
    with (_prefetch_inodes_with (_prefetch_inodes fuel) w1).
  by apply prefetch_file_phase_total.
Qed.

(** C1, as the code has it.  Called in the idle state, [prefetch_inodes]
    returns, and the boolean it returns is true exactly when the prefetch has
    not reached [DONE] by then: it is false when the two phases completed
    inside the call, and true when the call registered itself as a load
    waiter, which leaves the phase at [DIR_INODES]. *)
Theorem prefetch_inodes_returns_not_done `{MDSEnv} (fuel : nat)
    (st : OpenFileTable) (mc : mdcache_t) :
  prefetch_state st = IDLE → num_opening_inodes st = 0 →
  Forall is_caller (waiting_for_prefetch st) →
  (2 ≤ fuel)%nat →
  ∃ st' mc' b,
    prefetch_inodes fuel (st, mc) = Ok ((st', mc'), b) ∧
    (b = true ↔ prefetch_state st' ≠ DONE) ∧
    (load_done st = false →
       b = true ∧ prefetch_state st' = DIR_INODES ∧
       waiting_for_load st' = waiting_for_load st ++ [C_Prefetch]).
Proof.
  intros Hidle Hnum Hcallers Hfuel. unfold prefetch_inodes.
  rewrite bool_decide_eq_true_2 by done. cbn [negb]. cbv zeta.
  change (load_done (set_prefetch_state st DIR_INODES)) with (load_done st).
  destruct (load_done st) eqn:Hload; cbn [negb].
  - destruct (prefetch_inodes_total fuel (set_prefetch_state st DIR_INODES, mc))
      as [[st' mc'] ->]; [done..|]. cbn [rbind fst].
    eexists _, _, _. split; [done|]. split; [|done].
    unfold is_prefetched. rewrite negb_true_iff. apply bool_decide_eq_false.
  - unfold wait_for_load.
    change (load_done (set_prefetch_state st DIR_INODES)) with (load_done st).
    rewrite Hload. eexists _, _, _. split; [done|]. simpl. done.
Qed.

Lemma prefetch_inodes_returns_not_done_witness :
  ∃ st' mc' b,
    @prefetch_inodes async_cache 2 (rebooted_loaded, []) = Ok ((st', mc'), b) ∧
    (b = true ↔ prefetch_state st' ≠ DONE) ∧
    (load_done rebooted_loaded = false →
       b = true ∧ prefetch_state st' = DIR_INODES ∧
       waiting_for_load st' = waiting_for_load rebooted_loaded ++ [C_Prefetch]).
Proof.
  apply (@prefetch_inodes_returns_not_done async_cache 2 rebooted_loaded []).
  - reflexivity.
  - reflexivity.
  - constructor.
  - lia.
Defined.

(** C1, the claim as it is worded, fails both ways.  With both inodes opened
    inside the call the prefetch is done when [prefetch_inodes] returns, and
    it returns false; before the load is done the call only registers a load
    waiter, and it returns true. *)
Lemma prefetch_inodes_counterexample :
  (∃ st' mc',
     @prefetch_inodes sync_cache 2 (rebooted_loaded, []) = Ok ((st', mc'), false) ∧
     prefetch_state st' = DONE ∧
     mc' = [(1%N, 1); (16%N, 2)]) ∧
  (∃ st' mc',
     @prefetch_inodes sync_cache 2 (rebooted, []) = Ok ((st', mc'), true) ∧
     prefetch_state st' = DIR_INODES ∧
     waiting_for_load st' = [C_Prefetch]).
Proof.
  split; eexists _, _; (split; [vm_compute; reflexivity|]); split; reflexivity.
Qed.

(** With the opens in flight the call returns true in the directory phase,
    one open counted besides the initial one. *)
Example prefetch_inodes_in_flight :
  ∃ st' mc',
    @prefetch_inodes async_cache 2 (rebooted_loaded, []) = Ok ((st', mc'), true) ∧
    prefetch_state st' = DIR_INODES ∧ num_opening_inodes st' = 1 ∧
    mc' = [(1%N, 1)].
Proof.
  eexists _, _. split; [vm_compute; reflexivity|]. repeat split; reflexivity.
Qed.

(** ** The loader *)

Section loader.
Context `{MDSEnv} `{Encoding}.
Context (prefetch : world → result world).
Context (prefetch_untouched : ∀ w w', prefetch w = Ok w' → untouched w.1 w'.1).

(** From [out:] on, the load is marked done and the waiters are fired;
    the commit counters, the clear flag, and the keys of the loaded map stay
    as they are. *)
Lemma load_out_untouched w x :
  load_out prefetch w = Ok x →
  x.1 = LoadFinished ∧ load_done x.2.1 = true ∧ waiting_for_load x.2.1 = [] ∧
  committed_log_seq x.2.1 = committed_log_seq w.1 ∧
  committing_log_seq x.2.1 = committing_log_seq w.1 ∧
  clear_on_commit x.2.1 = clear_on_commit w.1 ∧
  dom (loaded_anchor_map x.2.1) = dom (loaded_anchor_map w.1).
Proof.
  unfold load_out.
  destruct (finish_contexts _ _ _) as [w'| |] eqn:Hfin; simpl; try done.
  intros [= <-]. apply finish_contexts_untouched in Hfin; [|done].
  destruct Hfin as (_ & _ & ? & ? & ? & _ & ? & ? & _). simpl in *. done.
Qed.

(** The first page with a header that decodes: both counters take the
    decoded value, whatever happens to the values of the page. *)
Lemma load_finish_first_page op_r header_r values_r more header_bl values w seq x :
  0 ≤ op_r → decode_u64 header_bl = Some seq →
  _load_finish_with prefetch op_r header_r values_r true more header_bl values w
  = Ok x →
  committed_log_seq x.2.1 = seq ∧ committing_log_seq x.2.1 = seq.
Proof.
  destruct w as [st mc]. intros Hop Hdec. unfold _load_finish_with.
  destruct (Z.ltb_spec op_r 0); [lia|]. rewrite Hdec.
  case_bool_decide.
  - intros (_ & _ & _ & -> & -> & _)%load_out_untouched. done.
  - cbn [loaded_anchor_map set_committed_log_seq set_committing_log_seq].
    destruct (load_values values (loaded_anchor_map st)) as [m| |]; [| |done].
    + destruct more.
      * destruct (last values) as [[k bl]|]; [|done]. intros [= <-]. done.
      * intros (_ & _ & _ & -> & -> & _)%load_out_untouched. done.
    + unfold load_catch.
      intros (_ & _ & _ & -> & -> & _)%load_out_untouched. done.
Qed.

(** A later page leaves the counters alone. *)
Lemma load_finish_next_page op_r header_r values_r more header_bl values w x :
  _load_finish_with prefetch op_r header_r values_r false more header_bl values w
  = Ok x →
  committed_log_seq x.2.1 = committed_log_seq w.1 ∧
  committing_log_seq x.2.1 = committing_log_seq w.1.
Proof.
  destruct w as [st mc]. unfold _load_finish_with.
  destruct (op_r <? 0).
  - intros (_ & _ & _ & -> & -> & _)%load_out_untouched. done.
  - destruct (load_values values (loaded_anchor_map st)) as [m| |]; [| |done].
    + destruct more.
      * destruct (last values) as [[k bl]|]; [|done]. intros [= <-]. done.
      * intros (_ & _ & _ & -> & -> & _)%load_out_untouched. done.
    + unfold load_catch.
      intros (_ & _ & _ & -> & -> & _)%load_out_untouched. done.
Qed.

(** The first page with the header 0: the load is over at once, and the
    clear flag is what it was. *)
Lemma load_finish_incomplete op_r header_r values_r more header_bl values w x :
  0 ≤ op_r → decode_u64 header_bl = Some 0%N →
  _load_finish_with prefetch op_r header_r values_r true more header_bl values w
  = Ok x →
  x.1 = LoadFinished ∧ load_done x.2.1 = true ∧ waiting_for_load x.2.1 = [] ∧
  clear_on_commit x.2.1 = clear_on_commit w.1 ∧
  dom (loaded_anchor_map x.2.1) = dom (loaded_anchor_map w.1).
Proof.
  destruct w as [st mc]. intros Hop Hdec. unfold _load_finish_with.
  destruct (Z.ltb_spec op_r 0); [lia|]. rewrite Hdec.
  rewrite bool_decide_eq_true_2 by done.
  intros (? & ? & ? & _ & _ & ? & ?)%load_out_untouched. done.
Qed.

End loader.

Lemma load_pages_next_pages `{MDSEnv} `{Encoding} fuel replies :
  ∀ w x, load_pages fuel false replies w = Ok x →
    committed_log_seq x.2.1 = committed_log_seq w.1 ∧
    committing_log_seq x.2.1 = committing_log_seq w.1.
Proof.
  induction replies as [|rp replies IH]; intros w x; simpl.
  - by intros [= <-].
  - destruct (_load_finish _ _ _ _ _ _ _ _ _) as [x1| |] eqn:Hpage; simpl; try done.
    unfold _load_finish in Hpage.
    apply (load_finish_next_page _ (prefetch_inodes_untouched fuel))
      in Hpage as [Hed Hing].
    destruct x1 as [[|key] w1], replies as [|rp' replies]; simpl;
      try (intros [= <-]; done).
    intros [-> ->]%IH. done.
Qed.

(** C10.  A load whose first page comes back without an error and with a
    header that decodes leaves both commit counters at the decoded value,
    zero or not, and whatever the pages hold; a commit after it passes its
    assertion exactly from that value on. *)
Theorem load_sets_commit_counters `{MDSEnv} `{Encoding} (fuel : nat)
    (rp : load_reply) (replies : list load_reply) (w : world) (seq : N)
    (x : load_next * world) :
  0 ≤ lr_op_r rp → decode_u64 (lr_header_bl rp) = Some seq →
  load_pages fuel true (rp :: replies) w = Ok x →
  committed_log_seq x.2.1 = seq ∧ committing_log_seq x.2.1 = seq ∧
  ∀ log_seq op_prio max_write_size c,
    is_Some (commit log_seq op_prio max_write_size c x.2.1) ↔ (seq ≤ log_seq)%N.
Proof.
  intros Hop Hdec Hrun.
  assert (committed_log_seq x.2.1 = seq ∧ committing_log_seq x.2.1 = seq)
    as [Hed Hing].
  { simpl in Hrun.
    destruct (_load_finish _ _ _ _ _ _ _ _ _) as [x1| |] eqn:Hpage;
      simpl in Hrun; try done.
    unfold _load_finish in Hpage.
    apply (load_finish_first_page _ (prefetch_inodes_untouched fuel)
             _ _ _ _ _ _ _ seq) in Hpage as [Hed Hing]; [|done..].
    destruct x1 as [[|key] w1], replies as [|rp' replies]; simpl in Hrun;
      try (injection Hrun as <-; done).
    pose proof (load_pages_next_pages fuel (rp' :: replies) w1 x Hrun) as [-> ->].
    done. }
  split; [done|]. split; [done|].
  intros log_seq op_prio max_write_size c. unfold commit. rewrite Hing.
  destruct (N.ltb_spec log_seq seq).
  - split; [by intros [? ?]|lia].
  - split; [done|by eexists].
Qed.

Lemma load_sets_commit_counters_witness :
  committed_log_seq after_load.2.1 = 5%N ∧
  committing_log_seq after_load.2.1 = 5%N ∧
  ∀ log_seq op_prio max_write_size c,
    is_Some (@commit toy_encoding log_seq op_prio max_write_size c after_load.2.1)
    ↔ (5 ≤ log_seq)%N.
Proof.
  apply (@load_sets_commit_counters sync_cache toy_encoding 2 committed_page []
           (loading, []) 5%N after_load).
  - vm_compute. discriminate.
  - reflexivity.
  - vm_compute. reflexivity.
Defined.

(** What that load leaves in the table: the two anchors, the load done, the
    waiter fired. *)
Example after_load_state :
  after_load.1 = LoadFinished ∧
  dom (loaded_anchor_map after_load.2.1) = {[1%N; 16%N]} ∧
  load_done after_load.2.1 = true ∧
  completed after_load.2.1 = [(1%nat, 0)] ∧
  clear_on_commit after_load.2.1 = false.
Proof. vm_compute. repeat split; reflexivity. Qed.

(** C2, on the code.  The first page of the load comes back with the header
    0.  The load ends there: the loaded map is empty, the load is done, the
    waiter is fired, both counters are 0.  But [clear_on_commit] is not set:
    it is still false. *)
Theorem load_incomplete_header_leaves_clear_flag :
  @_load_finish sync_cache toy_encoding 2
     (lr_op_r incomplete_page) (lr_header_r incomplete_page)
     (lr_values_r incomplete_page) true (lr_more incomplete_page)
     (lr_header_bl incomplete_page) (lr_values incomplete_page) (loading, [])
  = Ok (LoadFinished, (after_incomplete, [])) ∧
  @decode_u64 toy_encoding (lr_header_bl incomplete_page) = Some 0%N ∧
  loaded_anchor_map after_incomplete = ∅ ∧
  load_done after_incomplete = true ∧
  waiting_for_load loading = [C_Caller 1] ∧
  waiting_for_load after_incomplete = [] ∧
  completed after_incomplete = [(1%nat, 0)] ∧
  committed_log_seq after_incomplete = 0%N ∧
  committing_log_seq after_incomplete = 0%N ∧
  clear_on_commit after_incomplete = false.
Proof. vm_compute. repeat split; reflexivity. Qed.

(** The commit that follows writes the new anchors over the object as it is:
    no [omap_clear] is issued, and the stale keys of the interrupted commit
    stay.  After a failed read, the sibling path, the flag is set and the
    same commit clears the object first. *)
Example next_commit_after_incomplete :
  op_omap_clear <$> next_commit after_incomplete = [false].
Proof. vm_compute. reflexivity. Qed.

Example next_commit_after_failed :
  clear_on_commit after_failed = true ∧
  op_omap_clear <$> next_commit after_failed = [true].
Proof. vm_compute. split; reflexivity. Qed.

(** ** The keys of the object *)

(** The key of an inode is its number in lowercase hexadecimal, without
    prefix and without leading zeros. *)
Example snprintf_llx_examples :
  snprintf_llx 0 = "0" ∧ snprintf_llx 16 = "10" ∧ snprintf_llx 255 = "ff" ∧
  snprintf_llx 1099511627776 = "10000000000" ∧
  snprintf_llx (2 ^ 64 - 1) = "ffffffffffffffff".
Proof. vm_compute. repeat split; reflexivity. Qed.

(** The commit of scenario 2: one sub-operation that sets the header to 5
    and the keys [1] and [10], and removes none. *)
Example commit_scenario_2 :
  ∃ st' op,
    @commit toy_encoding 5 0 4096 None after_add_10 = Some (st', [op], (5%N, None)) ∧
    op_header op = Some 5%N ∧ op_omap_clear op = false ∧
    dom (op_set op) = {["1"; "10"]} ∧ op_rm op = ∅.
Proof.
  eexists _, _. split; [vm_compute; reflexivity|].
  vm_compute. repeat split; reflexivity.
Qed.

(** * Further properties of the code *)

(** ** The steps of the reference engine *)

(** [get_ref] is a run of [created] ended by at most one count going up;
    [put_ref] is a run of [erased] ended by at most one count going down.
    What every such step keeps, the loops keep. *)
Section engine_steps.
Context (P : OpenFileTable → Prop).

Lemma get_ref_steps i :
  (∀ st n a, anchor_map st !! n = Some a → flagged_at n st = true →
             0 < Anchor.nref a → P st → P (recounted n 1 st)) →
  (∀ st n p nm ty, anchor_map st !! n = None → P st → P (created n p nm ty st)) →
  ∀ st st', get_ref i st = Some st' → P st → P st'.
Proof.
  intros Hbump Hcreate.
  induction i as [n ty lj|n ty lj nm pin IH] using CInode_ind;
    intros st st' Hget HP;
    destruct (anchor_map st !! n) as [a|] eqn:Ha.
  1,3: apply (get_ref_bump _ _ _ _ _ a) in Hget as (Hf & Hpos & ->); [|done];
    specialize (Hbump st n a Ha Hf Hpos HP); unfold recounted in Hbump;
    by rewrite Ha in Hbump.
  - rewrite get_ref_create in Hget by done. simplify_eq. by apply Hcreate.
  - rewrite get_ref_create in Hget by done.
    eapply IH; [exact Hget|]. by apply Hcreate.
Qed.

Lemma put_ref_steps i :
  (∀ st n a, anchor_map st !! n = Some a → flagged_at n st = true →
             1 < Anchor.nref a → P st → P (recounted n (-1) st)) →
  (∀ st n a, anchor_map st !! n = Some a → flagged_at n st = true →
             Anchor.nref a = 1 → P st → P (erased n st)) →
  ∀ st st', put_ref i st = Some st' → P st → P st'.
Proof.
  intros Hdrop Herase.
  induction i as [n ty lj|n ty lj nm pin IH] using CInode_ind;
    intros st st' Hput HP; simpl in Hput;
    destruct (bool_decide (n ∈ tracked_by_oft st)) eqn:Hf; simpl in Hput; try done;
    destruct (anchor_map st !! n) as [a|] eqn:Ha; try done;
    destruct (0 <? Anchor.nref a) eqn:Hpos; simpl in Hput; try done;
    destruct (1 <? Anchor.nref a) eqn:Hone; simpl in Hput.
  1,3: simplify_eq;
    specialize (Hdrop st n a Ha Hf ltac:(lia) HP); unfold recounted in Hdrop;
    by rewrite Ha in Hdrop.
  - case_match; simpl in Hput; try done. simplify_eq.
    apply (Herase st n a); try done. lia.
  - case_match; simpl in Hput; try done.
    eapply IH; [exact Hput|]. apply (Herase st n a); try done. lia.
Qed.
End engine_steps.

Section hook_steps.
Context (P : OpenFileTable → Prop).
Context (P_up : ∀ st n a, anchor_map st !! n = Some a → flagged_at n st = true →
                  0 < Anchor.nref a → P st → P (recounted n 1 st)).
Context (P_down : ∀ st n a, anchor_map st !! n = Some a → flagged_at n st = true →
                    1 < Anchor.nref a → P st → P (recounted n (-1) st)).
Context (P_created : ∀ st n p nm ty, anchor_map st !! n = None → P st →
                       P (created n p nm ty st)).
Context (P_erased : ∀ st n a, anchor_map st !! n = Some a → flagged_at n st = true →
                      Anchor.nref a = 1 → P st → P (erased n st)).
Context (P_reparented : ∀ st n a p nm, anchor_map st !! n = Some a →
                          0 < Anchor.nref a → P st → P (reparented n p nm st)).

Lemma add_inode_steps i st st' : add_inode i st = Some st' → P st → P st'.
Proof.
  unfold add_inode. case_match; [done|]. by apply get_ref_steps.
Qed.

Lemma remove_inode_steps i st st' : remove_inode i st = Some st' → P st → P st'.
Proof.
  unfold remove_inode. case_match; [done|]. by apply put_ref_steps.
Qed.

Lemma notify_link_steps i st st' : notify_link i st = Some st' → P st → P st'.
Proof.
  unfold notify_link. intros Hop HP.
  destruct (anchor_map st !! Inode.ino i) as [a|] eqn:Ha; [|done].
  destruct (0 <? Anchor.nref a) eqn:Hpos; simpl in Hop; [|done].
  repeat (case_match; simpl in Hop; try done). simplify_eq.
  eapply get_ref_steps; [done..|exact Hop|].
  specialize (P_reparented st (Inode.ino i) a (Inode.ino c) s Ha ltac:(lia) HP).
  unfold reparented in P_reparented. by rewrite Ha in P_reparented.
Qed.

Lemma notify_unlink_steps i st st' : notify_unlink i st = Some st' → P st → P st'.
Proof.
  unfold notify_unlink. intros Hop HP.
  destruct (anchor_map st !! Inode.ino i) as [a|] eqn:Ha; [|done].
  destruct (0 <? Anchor.nref a) eqn:Hpos; simpl in Hop; [|done].
  repeat (case_match; simpl in Hop; try done). simplify_eq.
  eapply put_ref_steps; [done..|exact Hop|].
  specialize (P_reparented st (Inode.ino i) a 0%N "" Ha ltac:(lia) HP).
  unfold reparented in P_reparented. by rewrite Ha in P_reparented.
Qed.
End hook_steps.

(** ** What holds between any two calls *)

Lemma well_anchored_insert st n a a' :
  anchor_map st !! n = Some a →
  Anchor.ino a' = Anchor.ino a → 1 ≤ Anchor.nref a' → Anchor.auth a' = Anchor.auth a →
  well_anchored st → well_anchored (set_anchor_map st (<[n := a']> (anchor_map st))).
Proof.
  intros Ha Hino Hnref Hauth Hwell i b Hb. simpl in Hb.
  destruct (decide (i = n)) as [->|Hne].
  - rewrite lookup_insert_eq in Hb. simplify_eq.
    destruct (Hwell n a Ha) as (? & ? & ?). repeat split; congruence.
  - rewrite lookup_insert_ne in Hb by done. by apply Hwell.
Qed.

Lemma table_ok_recounted st n a z :
  anchor_map st !! n = Some a → 1 ≤ Anchor.nref a + z →
  table_ok st → table_ok (recounted n z st).
Proof.
  intros Ha Hz (Hwell & Htr & Hdna & Hseq). unfold recounted. rewrite Ha.
  split; [|split; [|split]]; simpl.
  - by apply (well_anchored_insert st n a).
  - rewrite Htr. symmetry. apply dom_insert_lookup_L. by eexists.
  - intros k f Hk Hf. simpl in *.
    destruct (decide (k = n)) as [->|];
      [rewrite lookup_insert_eq; by eexists
      |rewrite lookup_insert_ne by done; by eapply Hdna].
  - done.
Qed.

Lemma table_ok_created st n p nm ty :
  table_ok st → table_ok (created n p nm ty st).
Proof.
  intros (Hwell & Htr & Hdna & Hseq). unfold created.
  split; [|split; [|split]]; simpl.
  - intros i b Hb. simpl in Hb. destruct (decide (i = n)) as [->|Hne].
    + rewrite lookup_insert_eq in Hb. by simplify_eq.
    + rewrite lookup_insert_ne in Hb by done. by apply Hwell.
  - rewrite Htr. by rewrite dom_insert_L.
  - intros k f Hk Hf. simpl in *. destruct (decide (k = n)) as [->|Hne].
    + rewrite lookup_insert_eq. by eexists.
    + rewrite lookup_insert_ne by done.
      rewrite emplace_lookup, bool_decide_eq_false_2 in Hk by done.
      by eapply Hdna.
  - done.
Qed.

Lemma table_ok_erased st n : table_ok st → table_ok (erased n st).
Proof.
  intros (Hwell & Htr & Hdna & Hseq).
  split; [|split; [|split]].
  - intros i b Hb. unfold erased in Hb. simpl in Hb.
    apply lookup_delete_Some in Hb as [_ Hb]. by apply Hwell.
  - unfold erased. simpl. rewrite Htr. by rewrite dom_delete_L.
  - by apply erased_dirty_new_anchored.
  - done.
Qed.

Lemma table_ok_reparented st n a p nm :
  anchor_map st !! n = Some a → table_ok st → table_ok (reparented n p nm st).
Proof.
  intros Ha (Hwell & Htr & Hdna & Hseq). unfold reparented. rewrite Ha.
  split; [|split; [|split]]; simpl.
  - intros i b Hb. simpl in Hb. revert i b Hb.
    apply (well_anchored_insert st n a); try done.
    destruct (Hwell n a Ha) as (? & ? & ?). done.
  - rewrite Htr. symmetry. apply dom_insert_lookup_L. by eexists.
  - intros k f Hk Hf. simpl in *. destruct (decide (k = n)) as [->|Hne].
    + rewrite lookup_insert_eq. by eexists.
    + rewrite lookup_insert_ne by done.
      rewrite emplace_lookup, bool_decide_eq_false_2 in Hk by done.
      by eapply Hdna.
  - done.
Qed.

Section commit_frame.
Context `{Encoding}.
Context (log_seq : N) (op_prio : Z) (max_write_size : Z).

Lemma flush_if_full_frame st0 s :
  commit_frame st0 s.1 →
  commit_frame st0 (flush_if_full log_seq op_prio max_write_size s).1.
Proof.
  unfold flush_if_full. case_match; [|done]. by destruct s.
Qed.

Lemma commit_dirty_item_frame st0 first_commit s it :
  commit_frame st0 s.1 →
  commit_frame st0
    (commit_dirty_item log_seq op_prio max_write_size first_commit s it).1.
Proof.
  destruct s as [st l]. intros Hs. unfold commit_dirty_item.
  assert (commit_frame st0
            match (if first_commit then loaded_anchor_map st !! it.1 else None) with
            | Some _ => set_loaded_anchor_map st (delete it.1 (loaded_anchor_map st))
            | None => st
            end) as Hst1 by (by case_match).
  match goal with |- context [if ?b then (_, l) else _] => destruct b end;
    [done|]. by apply flush_if_full_frame.
Qed.

Lemma commit_loaded_item_frame st0 s it :
  commit_frame st0 s.1 →
  commit_frame st0 (commit_loaded_item log_seq op_prio max_write_size s it).1.
Proof.
  destruct s as [st l]. intros Hs. unfold commit_loaded_item.
  by apply flush_if_full_frame.
Qed.

Lemma commit_stages c st :
  commit log_seq op_prio max_write_size c st
  = if (log_seq <? committing_log_seq st)%N then None
    else
      let s4 := commit_func log_seq op_prio true
                  (after_loaded_loop log_seq op_prio max_write_size st) in
      Some (set_num_pending_commit s4.1 (num_pending_commit s4.1 + 1),
            cl_submitted s4.2, (log_seq, c)).
Proof. reflexivity. Qed.

Lemma after_dirty_loop_frame st :
  commit_frame st (after_dirty_loop log_seq op_prio max_write_size st).1.
Proof.
  apply (foldl_inv (λ s, commit_frame st s.1)); [|done].
  intros. by apply commit_dirty_item_frame.
Qed.

Lemma after_loaded_loop_frame st :
  commit_frame st (after_loaded_loop log_seq op_prio max_write_size st).1.
Proof.
  pose proof (after_dirty_loop_frame st) as H1.
  unfold after_loaded_loop. destruct (is_first_commit st); [|done].
  cbn [fst snd].
  set (s := foldl _ _ _).
  assert (commit_frame st s.1) as H2; [|done].
  apply (foldl_inv (λ s, commit_frame st s.1)); [|done].
  intros. by apply commit_loaded_item_frame.
Qed.

Lemma commit_commit_frame c st x :
  commit log_seq op_prio max_write_size c st = Some x → commit_frame st x.1.1.
Proof.
  rewrite commit_stages. case_match; [done|]. intros [= <-]. cbn [fst].
  pose proof (after_loaded_loop_frame st) as H2.
  by destruct (after_loaded_loop log_seq op_prio max_write_size st).
Qed.
End commit_frame.

Lemma booted_table_ok st : booted st → table_ok st.
Proof.
  intros (Ha & Hd & Ht & Hseq). repeat split; try done.
  - rewrite Ha in H. by rewrite lookup_empty in H.
  - rewrite Ha in H. by rewrite lookup_empty in H.
  - rewrite Ha in H. by rewrite lookup_empty in H.
  - by rewrite Ha, Ht, dom_empty_L.
  - intros i f Hi. rewrite Hd in Hi. by rewrite lookup_empty in Hi.
Qed.

Lemma table_ok_run_call `{Encoding} call st st' :
  table_ok st → run_call call st = Some st' → table_ok st'.
Proof.
  intros Hok Hrun.
  assert (∀ st n a, anchor_map st !! n = Some a → flagged_at n st = true →
            0 < Anchor.nref a → table_ok st → table_ok (recounted n 1 st)) as Hup.
  { intros. apply (table_ok_recounted _ _ a); [done|lia|done]. }
  assert (∀ st n a, anchor_map st !! n = Some a → flagged_at n st = true →
            1 < Anchor.nref a → table_ok st → table_ok (recounted n (-1) st)) as Hdown.
  { intros. apply (table_ok_recounted _ _ a); [done|lia|done]. }
  assert (∀ st n p nm ty, anchor_map st !! n = None → table_ok st →
            table_ok (created n p nm ty st)) as Hcr.
  { intros. by apply table_ok_created. }
  assert (∀ st n a, anchor_map st !! n = Some a → flagged_at n st = true →
            Anchor.nref a = 1 → table_ok st → table_ok (erased n st)) as Her.
  { intros. by apply table_ok_erased. }
  assert (∀ st n a p nm, anchor_map st !! n = Some a → 0 < Anchor.nref a →
            table_ok st → table_ok (reparented n p nm st)) as Hrp.
  { intros. by apply (table_ok_reparented _ _ a). }
  destruct call as [i|i|i|i|c log_seq op_prio mws|r log_seq fin]; simpl in Hrun.
  - by apply (add_inode_steps table_ok Hup Hcr i st).
  - by apply (remove_inode_steps table_ok Hdown Her i st).
  - by apply (notify_link_steps table_ok Hup Hcr Hrp i st).
  - by apply (notify_unlink_steps table_ok Hdown Her Hrp i st).
  - destruct (commit log_seq op_prio mws c st) as [x|] eqn:Hc; [|done].
    simplify_eq.
    pose proof (commit_post _ _ _ _ _ _ Hc) as (Ha & _ & _ & _ & Hcs).
    pose proof (commit_commit_frame _ _ _ _ _ _ Hc)
      as (_ & Hcd & _ & _ & _ & _ & _ & Htr & _).
    pose proof (commit_dirty_new_anchored _ _ _ _ _ _ Hc) as Hdna.
    rewrite commit_stages in Hc.
    destruct (log_seq <? committing_log_seq st)%N eqn:Hlt; [done|].
    destruct Hok as (Hwell & Htr0 & _ & Hseq).
    split; [|split; [|split]]; try done.
    + intros i a Hi. rewrite Ha in Hi. by apply Hwell.
    + by rewrite Htr, Ha.
    + rewrite Hcd, Hcs. apply N.ltb_ge in Hlt. lia.
  - unfold _commit_finish in Hrun.
    destruct (r <? 0); [by simplify_eq|].
    destruct (log_seq <=? committing_log_seq st)%N eqn:H1; simpl in Hrun; [|done].
    destruct (committed_log_seq st <=? log_seq)%N eqn:H2; simpl in Hrun; [|done].
    destruct Hok as (Hwell & Htr0 & Hdna & Hseq).
    assert (table_ok (set_num_pending_commit (set_committed_log_seq st log_seq)
              (num_pending_commit (set_committed_log_seq st log_seq) - 1))).
    { split; [|split; [|split]]; try done. simpl.
      apply N.leb_le in H1. lia. }
    destruct fin as [[id|]|]; by simplify_eq.
Qed.

Lemma table_ok_run_calls `{Encoding} calls :
  ∀ st st', table_ok st → run_calls calls st = Some st' → table_ok st'.
Proof.
  induction calls as [|call rest IH]; intros st st' Hok Hrun; simpl in Hrun.
  - by simplify_eq.
  - destruct (run_call call st) as [st1|] eqn:H1; [|done].
    eapply IH; [|exact Hrun]. by eapply table_ok_run_call.
Qed.

(** X1.  Through any history of hooks, commits and commit completions on a
    table that starts without anchors, an inode carries the
    [STATE_TRACKEDBYOFT] flag exactly when the anchor map has an anchor
    under its number. *)
Theorem tracked_iff_anchored `{Encoding} (calls : list table_call)
    (st0 st : OpenFileTable) (i : CInode) :
  booted st0 → run_calls calls st0 = Some st →
  state_test i st = true ↔ is_Some (anchor_map st !! Inode.ino i).
Proof.
  intros Hboot Hrun.
  destruct (table_ok_run_calls calls st0 st (booted_table_ok _ Hboot) Hrun)
    as (_ & Htr & _).
  rewrite state_test_spec, Htr. apply elem_of_dom.
Qed.

Lemma tracked_iff_anchored_witness :
  state_test file_11 after_history_1 = true
  ↔ is_Some (anchor_map after_history_1 !! Inode.ino file_11).
Proof.
  apply (@tracked_iff_anchored toy_encoding history_1 empty_table).
  - repeat split; vm_compute; done.
  - vm_compute. reflexivity.
Defined.

(** X2.  Through any such history every anchor of the anchor map sits under
    its own inode number, has a reference count of at least one, and has no
    authority recorded. *)
Theorem anchors_well_formed `{Encoding} (calls : list table_call)
    (st0 st : OpenFileTable) (i : inodeno_t) (a : Anchor.t) :
  booted st0 → run_calls calls st0 = Some st →
  anchor_map st !! i = Some a →
  Anchor.ino a = i ∧ 1 ≤ Anchor.nref a ∧ Anchor.auth a = MDS_RANK_NONE.
Proof.
  intros Hboot Hrun.
  destruct (table_ok_run_calls calls st0 st (booted_table_ok _ Hboot) Hrun)
    as (Hwell & _).
  apply Hwell.
Qed.

Lemma anchors_well_formed_witness :
  Anchor.ino (Anchor.make 1 0 "" DT_DIR 2) = 1%N
  ∧ 1 ≤ Anchor.nref (Anchor.make 1 0 "" DT_DIR 2)
  ∧ Anchor.auth (Anchor.make 1 0 "" DT_DIR 2) = MDS_RANK_NONE.
Proof.
  apply (@anchors_well_formed toy_encoding history_1 empty_table after_history_1).
  - repeat split; vm_compute; done.
  - vm_compute. reflexivity.
  - vm_compute. reflexivity.
Defined.

(** X3.  Through any such history a dirty entry flagged [DIRTY_NEW] belongs
    to an inode that has an anchor: the flag never outlives the anchor it
    was set for, whatever commits come in between. *)
Theorem dirty_new_has_anchor `{Encoding} (calls : list table_call)
    (st0 st : OpenFileTable) (i : inodeno_t) (f : Z) :
  booted st0 → run_calls calls st0 = Some st →
  dirty_items st !! i = Some f → Z.land f DIRTY_NEW ≠ 0 →
  is_Some (anchor_map st !! i).
Proof.
  intros Hboot Hrun.
  destruct (table_ok_run_calls calls st0 st (booted_table_ok _ Hboot) Hrun)
    as (_ & _ & Hdna & _).
  apply Hdna.
Qed.

Lemma dirty_new_has_anchor_witness :
  is_Some (anchor_map after_history_1 !! 17%N).
Proof.
  apply (@dirty_new_has_anchor toy_encoding history_1 empty_table after_history_1
           17%N DIRTY_NEW).
  - repeat split; vm_compute; done.
  - vm_compute. reflexivity.
  - vm_compute. reflexivity.
  - vm_compute. discriminate.
Defined.

(** ** What the reference engine leaves alone *)

Lemma engine_frame_refl st : engine_frame st st.
Proof. by repeat split. Qed.

Lemma engine_frame_hook (i : CInode) (st st' : OpenFileTable) :
  add_inode i st = Some st' ∨ remove_inode i st = Some st' ∨
  notify_link i st = Some st' ∨ notify_unlink i st = Some st' →
  engine_frame st st'.
Proof.
  assert (∀ st1 n z, engine_frame st st1 → engine_frame st (recounted n z st1)) as Hrc.
  { intros st1 n z H1. unfold recounted. by case_match. }
  assert (∀ st1 n p nm ty, engine_frame st st1 →
            engine_frame st (created n p nm ty st1)) as Hcr by done.
  assert (∀ st1 n, engine_frame st st1 → engine_frame st (erased n st1)) as Her by done.
  assert (∀ st1 n p nm, engine_frame st st1 →
            engine_frame st (reparented n p nm st1)) as Hrp.
  { intros st1 n p nm H1. unfold reparented. by case_match. }
  intros [Hop|[Hop|[Hop|Hop]]].
  - eapply (add_inode_steps (engine_frame st)); eauto using engine_frame_refl.
  - eapply (remove_inode_steps (engine_frame st)); eauto using engine_frame_refl.
  - eapply (notify_link_steps (engine_frame st)); eauto using engine_frame_refl.
  - eapply (notify_unlink_steps (engine_frame st)); eauto using engine_frame_refl.
Qed.

(** X4.  The four hooks of the reference engine write the anchor map, the
    dirty set and the tracked flags, and nothing else: the loaded map, the
    commit counters, the clear flag, the state of the load and of the
    prefetch, the waiters and the completions are as before the call. *)
Theorem hooks_leave_rest_alone (i : CInode) (st st' : OpenFileTable) :
  add_inode i st = Some st' ∨ remove_inode i st = Some st' ∨
  notify_link i st = Some st' ∨ notify_unlink i st = Some st' →
  engine_frame st st'.
Proof. apply engine_frame_hook. Qed.

Lemma hooks_leave_rest_alone_witness :
  engine_frame rebooted rebooted_add_10.
Proof.
  apply (hooks_leave_rest_alone file_10). left. vm_compute. reflexivity.
Defined.

(** ** The commit counters *)

Lemma run_call_seq `{Encoding} call st st' :
  run_call call st = Some st' →
  (committed_log_seq st ≤ committed_log_seq st')%N ∧
  (committing_log_seq st ≤ committing_log_seq st')%N.
Proof.
  intros Hrun.
  destruct call as [i|i|i|i|c log_seq op_prio mws|r log_seq fin]; simpl in Hrun.
  1-4: assert (engine_frame st st') as (_ & -> & -> & _);
    [apply (engine_frame_hook i); tauto|done].
  - destruct (commit log_seq op_prio mws c st) as [x|] eqn:Hc; [|done].
    simplify_eq.
    pose proof (commit_post _ _ _ _ _ _ Hc) as (_ & _ & _ & _ & Hcs).
    pose proof (commit_commit_frame _ _ _ _ _ _ Hc) as (_ & Hcd & _).
    rewrite commit_stages in Hc.
    destruct (log_seq <? committing_log_seq st)%N eqn:Hlt; [done|].
    apply N.ltb_ge in Hlt. rewrite Hcd, Hcs. lia.
  - unfold _commit_finish in Hrun.
    destruct (r <? 0); [by simplify_eq|].
    destruct (log_seq <=? committing_log_seq st)%N eqn:H1; simpl in Hrun; [|done].
    destruct (committed_log_seq st <=? log_seq)%N eqn:H2; simpl in Hrun; [|done].
    apply N.leb_le in H2.
    destruct fin as [[id|]|]; by simplify_eq.
Qed.

(** X5.  Through any history of hooks, commits and commit completions the
    two sequence counters only grow, and the committed sequence never
    passes the committing one. *)
Theorem commit_counters_ordered `{Encoding} (calls : list table_call)
    (st0 st : OpenFileTable) :
  (committed_log_seq st0 ≤ committing_log_seq st0)%N →
  run_calls calls st0 = Some st →
  (committed_log_seq st0 ≤ committed_log_seq st)%N ∧
  (committing_log_seq st0 ≤ committing_log_seq st)%N ∧
  (committed_log_seq st ≤ committing_log_seq st)%N.
Proof.
  revert st0. induction calls as [|call rest IH]; intros st0 Hseq Hrun;
    simpl in Hrun.
  - simplify_eq. lia.
  - destruct (run_call call st0) as [st1|] eqn:H1; [|done].
    pose proof (run_call_seq _ _ _ H1) as (Ha & Hb).
    assert (committed_log_seq st1 ≤ committing_log_seq st1)%N as Hseq1.
    { destruct call as [i|i|i|i|c log_seq op_prio mws|r log_seq fin];
        simpl in H1.
      1-4: assert (engine_frame st0 st1) as (_ & -> & -> & _);
        [apply (engine_frame_hook i); tauto|done].
      - destruct (commit log_seq op_prio mws c st0) as [x|] eqn:Hc; [|done].
        simplify_eq.
        pose proof (commit_commit_frame _ _ _ _ _ _ Hc) as (_ & Hcd & _).
        rewrite Hcd. lia.
      - unfold _commit_finish in H1.
        destruct (r <? 0); [by simplify_eq|].
        destruct (log_seq <=? committing_log_seq st0)%N eqn:H2; simpl in H1; [|done].
        destruct (committed_log_seq st0 <=? log_seq)%N; simpl in H1; [|done].
        apply N.leb_le in H2.
        destruct fin as [[id|]|]; by simplify_eq. }
    destruct (IH st1 Hseq1 Hrun) as (? & ? & ?). lia.
Qed.

Lemma commit_counters_ordered_witness :
  (committed_log_seq empty_table ≤ committed_log_seq after_history_1)%N ∧
  (committing_log_seq empty_table ≤ committing_log_seq after_history_1)%N ∧
  (committed_log_seq after_history_1 ≤ committing_log_seq after_history_1)%N.
Proof.
  apply (@commit_counters_ordered toy_encoding history_1).
  - vm_compute. discriminate.
  - vm_compute. reflexivity.
Defined.

(** ** What a commit does to the table *)

Section commit_outcome.
Context `{Encoding}.
Context (log_seq : N) (op_prio : Z) (max_write_size : Z).

(** The two loops of [commit] write the table only by lowering the clear
    flag and by emptying the loaded map and the dirty set. *)
Lemma commit_loops_inv (Q : OpenFileTable → Prop) :
  (∀ st, Q st → Q (set_clear_on_commit st false)) →
  (∀ st m, Q st → Q (set_loaded_anchor_map st m)) →
  (∀ st, Q st → Q (set_dirty_items st ∅)) →
  ∀ st, Q (set_committing_log_seq st log_seq) →
        Q (after_loaded_loop log_seq op_prio max_write_size st).1.
Proof.
  intros Qclear Qloaded Qdirty st Q0.
  assert (∀ s, Q s.1 → Q (flush_if_full log_seq op_prio max_write_size s).1) as Qflush.
  { intros [st1 l] Q1. unfold flush_if_full. case_match; [|done]. by apply Qclear. }
  assert (Q (after_dirty_loop log_seq op_prio max_write_size st).1) as Q1.
  { apply (foldl_inv (λ s, Q s.1)); [|done].
    intros [st1 l] it Q1. unfold commit_dirty_item.
    assert (Q match (if is_first_commit st then loaded_anchor_map st1 !! it.1
                     else None) with
              | Some _ => set_loaded_anchor_map st1 (delete it.1 (loaded_anchor_map st1))
              | None => st1
              end) as Q2 by (case_match; [by apply Qloaded|done]).
    match goal with |- context [if ?b then (_, l) else _] => destruct b end;
      [done|]. by apply Qflush. }
  unfold after_loaded_loop. destruct (is_first_commit st); cbn [fst snd].
  - apply Qloaded. apply (foldl_inv (λ s, Q s.1)); [|by apply Qdirty].
    intros [st1 l] it Q2. unfold commit_loaded_item. by apply Qflush.
  - by apply Qdirty.
Qed.

Lemma commit_pending c st x :
  commit log_seq op_prio max_write_size c st = Some x →
  num_pending_commit x.1.1 = num_pending_commit st + 1.
Proof.
  rewrite commit_stages. case_match; [done|]. intros [= <-]. cbn [fst].
  pose proof (commit_loops_inv
                (λ st', num_pending_commit st' = num_pending_commit st)) as Hinv.
  specialize (Hinv ltac:(done) ltac:(done) ltac:(done) st ltac:(done)).
  destruct (after_loaded_loop log_seq op_prio max_write_size st) as [st3 l3].
  simpl in *. by rewrite Hinv.
Qed.

(** X6.  A commit that passes its assertion was called with a sequence at
    or after the committing one.  It hands [log_seq] and the caller's
    context to the completion, leaves the anchors, the tracked flags and the
    committed sequence alone, empties the dirty set and the loaded map,
    lowers the clear flag, records [log_seq] as the committing sequence and
    counts one more commit in flight. *)
Theorem commit_effects (c : option Context) (st st' : OpenFileTable)
    (ops : list ObjectOperation) (fin : N * option Context) :
  commit log_seq op_prio max_write_size c st = Some (st', ops, fin) →
  (committing_log_seq st ≤ log_seq)%N ∧ fin = (log_seq, c) ∧
  anchor_map st' = anchor_map st ∧ tracked_by_oft st' = tracked_by_oft st ∧
  dirty_items st' = ∅ ∧ loaded_anchor_map st' = ∅ ∧
  clear_on_commit st' = false ∧
  committing_log_seq st' = log_seq ∧
  committed_log_seq st' = committed_log_seq st ∧
  num_pending_commit st' = num_pending_commit st + 1.
Proof.
  intros Hc.
  pose proof (commit_post _ _ _ _ _ _ Hc) as (Ha & Hd & Hl & Hcl & Hcs).
  pose proof (commit_commit_frame _ _ _ _ _ _ Hc)
    as (_ & Hcd & _ & _ & _ & _ & _ & Htr & _).
  pose proof (commit_pending _ _ _ Hc) as Hp.
  rewrite commit_stages in Hc.
  destruct (log_seq <? committing_log_seq st)%N eqn:Hlt; [done|].
  apply N.ltb_ge in Hlt. simpl in *. by simplify_eq.
Qed.
End commit_outcome.

Lemma commit_effects_witness :
  (committing_log_seq after_add_10 ≤ 5)%N ∧ (5%N, @None Context) = (5%N, None) ∧
  anchor_map after_commit_5 = anchor_map after_add_10 ∧
  tracked_by_oft after_commit_5 = tracked_by_oft after_add_10 ∧
  dirty_items after_commit_5 = ∅ ∧ loaded_anchor_map after_commit_5 = ∅ ∧
  clear_on_commit after_commit_5 = false ∧
  committing_log_seq after_commit_5 = 5%N ∧
  committed_log_seq after_commit_5 = committed_log_seq after_add_10 ∧
  num_pending_commit after_commit_5 = num_pending_commit after_add_10 + 1.
Proof.
  apply (@commit_effects toy_encoding 5 0 4096 None after_add_10 after_commit_5
           (default [] (snd <$> (fst <$> @commit toy_encoding 5 0 4096 None after_add_10)))).
  vm_compute. reflexivity.
Defined.

(** ** The keys a commit writes and removes *)

Lemma wrote_app ops1 ops2 key bl :
  wrote (ops1 ++ ops2) key bl ↔ wrote ops1 key bl ∨ wrote ops2 key bl.
Proof.
  unfold wrote. setoid_rewrite elem_of_app. naive_solver.
Qed.

Lemma removed_app ops1 ops2 key :
  removed (ops1 ++ ops2) key ↔ removed ops1 key ∨ removed ops2 key.
Proof.
  unfold removed. setoid_rewrite elem_of_app. naive_solver.
Qed.

Lemma wrote_singleton op key bl : wrote [op] key bl ↔ op_set op !! key = Some bl.
Proof.
  unfold wrote. setoid_rewrite list_elem_of_singleton. naive_solver.
Qed.

Lemma removed_singleton op key : removed [op] key ↔ key ∈ op_rm op.
Proof.
  unfold removed. setoid_rewrite list_elem_of_singleton. naive_solver.
Qed.

Lemma wrote_planned l key bl :
  wrote (planned l) key bl
  ↔ wrote (cl_submitted l) key bl ∨ cl_to_update l !! key = Some bl.
Proof. unfold planned. by rewrite wrote_app, wrote_singleton. Qed.

Lemma removed_planned l key :
  removed (planned l) key ↔ removed (cl_submitted l) key ∨ key ∈ cl_to_remove l.
Proof. unfold planned. by rewrite removed_app, removed_singleton. Qed.

Section commit_plan.
Context `{Encoding}.
Context (log_seq : N) (op_prio : Z) (max_write_size : Z).

Lemma commit_func_planned last s :
  (∀ key bl, wrote (planned (commit_func log_seq op_prio last s).2) key bl
             ↔ wrote (planned s.2) key bl) ∧
  (∀ key, removed (planned (commit_func log_seq op_prio last s).2) key
          ↔ removed (planned s.2) key).
Proof.
  destruct s as [st l]. unfold commit_func. cbn [snd]. split.
  - intros key bl. rewrite !wrote_planned. cbn.
    rewrite wrote_app, wrote_singleton. cbn. rewrite lookup_empty. naive_solver.
  - intros key. rewrite !removed_planned. cbn.
    rewrite removed_app, removed_singleton. cbn. set_solver.
Qed.

Lemma flush_if_full_planned s :
  (∀ key bl, wrote (planned (flush_if_full log_seq op_prio max_write_size s).2) key bl
             ↔ wrote (planned s.2) key bl) ∧
  (∀ key, removed (planned (flush_if_full log_seq op_prio max_write_size s).2) key
          ↔ removed (planned s.2) key).
Proof.
  unfold flush_if_full. case_match; [apply commit_func_planned|done].
Qed.

Lemma flush_if_full_stores s :
  anchor_map (flush_if_full log_seq op_prio max_write_size s).1 = anchor_map s.1 ∧
  loaded_anchor_map (flush_if_full log_seq op_prio max_write_size s).1
  = loaded_anchor_map s.1.
Proof.
  unfold flush_if_full. case_match; [|done]. by destruct s.
Qed.

Lemma commit_dirty_item_plan fc s it :
  let s' := commit_dirty_item log_seq op_prio max_write_size fc s it in
  anchor_map s'.1 = anchor_map s.1 ∧
  (∀ k, loaded_anchor_map s'.1 !! k
        = if fc && bool_decide (k = it.1) then None else loaded_anchor_map s.1 !! k) ∧
  (∀ key bl, wrote (planned s'.2) key bl →
     wrote (planned s.2) key bl ∨
     ∃ a, key = snprintf_llx it.1 ∧ writes_item fc s.1 it.1 a ∧ bl = encode_anchor a) ∧
  (∀ key bl, wrote (planned s.2) key bl → ∃ bl', wrote (planned s'.2) key bl') ∧
  (∀ a, writes_item fc s.1 it.1 a → ∃ bl, wrote (planned s'.2) (snprintf_llx it.1) bl) ∧
  (∀ key, removed (planned s'.2) key
          ↔ removed (planned s.2) key ∨
            (key = snprintf_llx it.1 ∧ anchor_map s.1 !! it.1 = None)).
Proof.
  destruct s as [st l]. cbv zeta. unfold commit_dirty_item. cbn [fst snd].
  set (q := if fc then loaded_anchor_map st !! it.1 else None).
  set (st1 := match q with
              | Some _ => set_loaded_anchor_map st (delete it.1 (loaded_anchor_map st))
              | None => st
              end).
  assert (anchor_map st1 = anchor_map st) as Ha1 by (unfold st1; by case_match).
  assert (∀ k, loaded_anchor_map st1 !! k
               = if fc && bool_decide (k = it.1) then None
                 else loaded_anchor_map st !! k) as Hl1.
  { intros k. unfold st1, q. destruct fc; simpl; [|done].
    destruct (decide (k = it.1)) as [->|Hne].
    - rewrite bool_decide_eq_true_2 by done.
      destruct (loaded_anchor_map st !! it.1) eqn:Hq; simpl;
        [by rewrite lookup_delete_eq|done].
    - rewrite bool_decide_eq_false_2 by done.
      destruct (loaded_anchor_map st !! it.1) eqn:Hq; simpl;
        [by rewrite lookup_delete_ne|done]. }
  clearbody st1.
  destruct (anchor_map st !! it.1) as [pa|] eqn:Hp.
  - destruct (match q with Some qa => Anchor.eqb pa qa | None => false end) eqn:Hsame.
    + cbn [fst snd]. repeat split; try done.
      * intros key bl Hw. by left.
      * intros key bl Hw. by eexists.
      * intros a [Ha Hq]. simplify_eq. exfalso.
        destruct q as [qa|] eqn:Hqa; [|done].
        specialize (Hq qa Hqa). congruence.
      * by left.
      * intros [?|[_ ?]]; [done|congruence].
    + set (l1 := mk_locals _ _ _ _ _).
      pose proof (flush_if_full_planned (st1, l1)) as [Hfw Hfr].
      pose proof (flush_if_full_stores (st1, l1)) as [Hfa Hfl].
      cbn [fst snd] in *. rewrite Hfa, Hfl.
      split; [done|]. split; [done|].
      repeat split.
      * intros key bl Hw. apply Hfw in Hw. apply wrote_planned in Hw.
        cbn in Hw. destruct Hw as [Hw|Hw].
        -- left. apply wrote_planned. by left.
        -- destruct (decide (key = snprintf_llx it.1)) as [->|Hne].
           ++ rewrite lookup_insert_eq in Hw. simplify_eq. right.
              exists pa. repeat split; try done.
              intros qa Hq. fold q in Hq. by rewrite Hq in Hsame.
           ++ rewrite lookup_insert_ne in Hw by done.
              left. apply wrote_planned. by right.
      * intros key bl Hw. apply wrote_planned in Hw.
        destruct Hw as [Hw|Hw].
        -- exists bl. apply Hfw, wrote_planned. by left.
        -- destruct (decide (key = snprintf_llx it.1)) as [->|Hne].
           ++ eexists. apply Hfw, wrote_planned. right. cbn.
              by rewrite lookup_insert_eq.
           ++ exists bl. apply Hfw, wrote_planned. right. cbn.
              by rewrite lookup_insert_ne.
      * intros a _. eexists. apply Hfw, wrote_planned. right. cbn.
        by rewrite lookup_insert_eq.
      * intros Hr. left. apply Hfr, removed_planned in Hr.
        by apply removed_planned.
      * intros [Hr|[_ ?]]; [|done]. apply Hfr, removed_planned.
        by apply removed_planned in Hr.
  - assert (match q with Some _ => false | None => false end = false) as ->
      by (by destruct q).
    set (l1 := mk_locals _ _ _ _ _).
    pose proof (flush_if_full_planned (st1, l1)) as [Hfw Hfr].
    pose proof (flush_if_full_stores (st1, l1)) as [Hfa Hfl].
    cbn [fst snd] in *. rewrite Hfa, Hfl.
    split; [done|]. split; [done|].
    repeat split.
    + intros key bl Hw. left. apply Hfw, wrote_planned in Hw.
      by apply wrote_planned.
    + intros key bl Hw. exists bl. apply Hfw, wrote_planned.
      by apply wrote_planned in Hw.
    + intros a [Ha _]. congruence.
    + intros Hr. apply Hfr, removed_planned in Hr. cbn in Hr.
      rewrite removed_planned.
      rewrite elem_of_union, elem_of_singleton in Hr. tauto.
    + intros Hr. apply Hfr, removed_planned. cbn.
      rewrite removed_planned in Hr.
      rewrite elem_of_union, elem_of_singleton. tauto.
Qed.
Lemma commit_dirty_loop_plan fc items :
  ∀ s, NoDup items.*1 →
    let s' := foldl (commit_dirty_item log_seq op_prio max_write_size fc) s items in
    anchor_map s'.1 = anchor_map s.1 ∧
    (∀ k, loaded_anchor_map s'.1 !! k
          = if fc && bool_decide (k ∈ items.*1) then None
            else loaded_anchor_map s.1 !! k) ∧
    (∀ key bl, wrote (planned s'.2) key bl →
       wrote (planned s.2) key bl ∨
       ∃ k a, k ∈ items.*1 ∧ key = snprintf_llx k ∧ writes_item fc s.1 k a
              ∧ bl = encode_anchor a) ∧
    (∀ key bl, wrote (planned s.2) key bl → ∃ bl', wrote (planned s'.2) key bl') ∧
    (∀ k a, k ∈ items.*1 → writes_item fc s.1 k a →
            ∃ bl, wrote (planned s'.2) (snprintf_llx k) bl) ∧
    (∀ key, removed (planned s'.2) key
            ↔ removed (planned s.2) key ∨
              ∃ k, k ∈ items.*1 ∧ key = snprintf_llx k ∧ anchor_map s.1 !! k = None).
Proof.
  induction items as [|it rest IH]; intros s Hnd; cbv zeta.
  - cbn [foldl fmap list_fmap]. repeat split; try done.
    + intros k. by rewrite andb_false_r.
    + intros key bl Hw. by left.
    + intros key bl Hw. by eexists.
    + intros k a Hk. by apply elem_of_nil in Hk.
    + by left.
    + intros [?|(k & Hk & _)]; [done|]. by apply elem_of_nil in Hk.
  - cbn [foldl]. rewrite fmap_cons in Hnd. apply NoDup_cons in Hnd as [Hit Hnd].
    pose proof (commit_dirty_item_plan fc s it) as (Ha1 & Hl1 & Hw1 & Hk1 & Hn1 & Hr1).
    set (s1 := commit_dirty_item log_seq op_prio max_write_size fc s it) in *.
    destruct (IH s1 Hnd) as (Ha2 & Hl2 & Hw2 & Hk2 & Hn2 & Hr2).
    assert (∀ k a, k ∈ rest.*1 → writes_item fc s1.1 k a ↔ writes_item fc s.1 k a)
      as Hwi.
    { intros k a Hk. unfold writes_item. rewrite Ha1.
      assert (k ≠ it.1) as Hne by (intros ->; done).
      specialize (Hl1 k). rewrite bool_decide_eq_false_2, andb_false_r in Hl1 by done.
      by rewrite Hl1. }
    split; [congruence|]. split; [|split; [|split; [|split]]].
    + intros k. rewrite Hl2, Hl1. rewrite fmap_cons.
      destruct fc; [|done]. cbn [andb].
      destruct (decide (k = it.1)) as [->|Hne].
      * rewrite (bool_decide_eq_true_2 (it.1 ∈ it.1 :: rest.*1)) by left.
        rewrite (bool_decide_eq_true_2 (it.1 = it.1)) by done. by case_match.
      * rewrite (bool_decide_eq_false_2 (k = it.1)) by done.
        destruct (decide (k ∈ rest.*1)) as [Hin|Hnin].
        -- rewrite (bool_decide_eq_true_2 (k ∈ rest.*1)) by done.
           by rewrite (bool_decide_eq_true_2 (k ∈ it.1 :: rest.*1)) by (by right).
        -- rewrite (bool_decide_eq_false_2 (k ∈ rest.*1)) by done.
           rewrite (bool_decide_eq_false_2 (k ∈ it.1 :: rest.*1)); [done|].
           intros [?|?]%elem_of_cons; done.
    + intros key bl Hw. apply Hw2 in Hw as [Hw|(k & a & Hk & -> & Hwk & ->)].
      * apply Hw1 in Hw as [Hw|(a & -> & Hwa & ->)]; [by left|].
        right. exists it.1, a. split_and!; try done. rewrite fmap_cons. left.
      * right. exists k, a. split_and!; try done.
        -- rewrite fmap_cons. by right.
        -- by apply Hwi.
    + intros key bl Hw. apply Hk1 in Hw as [bl1 Hw]. by apply Hk2 in Hw.
    + intros k a Hk Hwk. rewrite fmap_cons in Hk.
      apply elem_of_cons in Hk as [->|Hk].
      * apply Hn1 in Hwk as [bl Hw]. by apply Hk2 in Hw.
      * apply (Hn2 k a Hk). by apply Hwi.
    + intros key. rewrite Hr2, Hr1. rewrite fmap_cons. split.
      * intros [[?|[-> ?]]|(k & Hk & -> & Hn)]; [by left|..].
        -- right. exists it.1. split_and!; try done. left.
        -- right. exists k. split_and!; try done; [by right|congruence].
      * intros [?|(k & Hk & -> & Hn)]; [by left; left|].
        apply elem_of_cons in Hk as [->|Hk].
        -- left. by right.
        -- right. exists k. split_and!; try done. congruence.
Qed.

Lemma commit_loaded_loop_plan (items : list (inodeno_t * Anchor.t)) :
  ∀ s,
    let s' := foldl (commit_loaded_item log_seq op_prio max_write_size) s items in
    (∀ key bl, wrote (planned s'.2) key bl ↔ wrote (planned s.2) key bl) ∧
    (∀ key, removed (planned s'.2) key
            ↔ removed (planned s.2) key ∨ ∃ k, k ∈ items.*1 ∧ key = snprintf_llx k).
Proof.
  induction items as [|it rest IH]; intros s; cbv zeta.
  - cbn [foldl]. split; [done|]. intros key. split; [by left|].
    intros [?|(k & Hk & _)]; [done|]. by apply elem_of_nil in Hk.
  - cbn [foldl].
    set (s1 := commit_loaded_item log_seq op_prio max_write_size s it).
    destruct (IH s1) as [Hw2 Hr2].
    assert ((∀ key bl, wrote (planned s1.2) key bl ↔ wrote (planned s.2) key bl) ∧
            (∀ key, removed (planned s1.2) key
                    ↔ removed (planned s.2) key ∨ key = snprintf_llx it.1))
      as [Hw1 Hr1].
    { unfold s1. destruct s as [st l]. unfold commit_loaded_item.
      set (l1 := mk_locals _ _ _ _ _).
      pose proof (flush_if_full_planned (st, l1)) as [Hfw Hfr]. split.
      - intros key bl. rewrite Hfw, !wrote_planned. done.
      - intros key. rewrite Hfr, !removed_planned. cbn.
        rewrite elem_of_union, elem_of_singleton. tauto. }
    split.
    + intros key bl. by rewrite Hw2, Hw1.
    + intros key. rewrite Hr2, Hr1, fmap_cons. split.
      * intros [[?| ->]|(k & Hk & ->)]; [by left|..].
        -- right. exists it.1. split; [left|done].
        -- right. exists k. split; [by right|done].
      * intros [?|(k & Hk & ->)]; [by left; left|].
        apply elem_of_cons in Hk as [->|Hk]; [left; by right|].
        right. by exists k.
Qed.
End commit_plan.

Lemma elem_of_entries_fst {V} (m : gmap inodeno_t V) k :
  k ∈ (entries m).*1 ↔ is_Some (m !! k).
Proof.
  rewrite list_elem_of_fmap. split.
  - intros ([k' v] & -> & Hin). apply elem_of_entries in Hin. by eexists.
  - intros [v Hv]. exists (k, v). split; [done|]. by apply elem_of_entries.
Qed.

Section commit_keys.
Context `{Encoding}.
Context (log_seq : N) (op_prio : Z) (max_write_size : Z).

Lemma writes_item_to_write st k a :
  is_Some (dirty_items st !! k) →
  writes_item (is_first_commit st) (set_committing_log_seq st log_seq) k a
  ↔ to_write st k a.
Proof.
  intros Hd. unfold writes_item, to_write, is_first_commit. cbn.
  destruct (decide (loaded_anchor_map st = ∅)) as [He|Hne].
  - rewrite bool_decide_eq_true_2 by done. cbn. rewrite He.
    setoid_rewrite lookup_empty. naive_solver.
  - rewrite bool_decide_eq_false_2 by done. cbn. naive_solver.
Qed.

Lemma after_dirty_loop_plan st :
  let s1 := after_dirty_loop log_seq op_prio max_write_size st in
  (∀ k, loaded_anchor_map s1.1 !! k
        = if bool_decide (is_Some (dirty_items st !! k)) then None
          else loaded_anchor_map st !! k) ∧
  (∀ key bl, wrote (planned s1.2) key bl →
     ∃ k a, key = snprintf_llx k ∧ to_write st k a ∧ bl = encode_anchor a) ∧
  (∀ k a, to_write st k a → ∃ bl, wrote (planned s1.2) (snprintf_llx k) bl) ∧
  (∀ key, removed (planned s1.2) key
          ↔ ∃ k, key = snprintf_llx k ∧
                 is_Some (dirty_items st !! k) ∧ anchor_map st !! k = None).
Proof.
  cbv zeta. unfold after_dirty_loop.
  pose proof (commit_dirty_loop_plan log_seq op_prio max_write_size
                (is_first_commit st) (entries (dirty_items st))
                (set_committing_log_seq st log_seq, mk_locals true 0 ∅ ∅ [])
                (NoDup_entries _)) as (_ & Hl & Hw & _ & Hn & Hr).
  set (s1 := foldl _ _ _) in *. cbn [fst snd] in *.
  assert (∀ key bl, ¬ wrote (planned (mk_locals true 0 ∅ ∅ [])) key bl) as Hnw.
  { intros key bl Hw0. apply wrote_planned in Hw0 as [(op & Hop & _)|Hw0].
    - by apply elem_of_nil in Hop.
    - cbn in Hw0. by rewrite lookup_empty in Hw0. }
  assert (∀ key, ¬ removed (planned (mk_locals true 0 ∅ ∅ [])) key) as Hnr.
  { intros key Hr0. apply removed_planned in Hr0 as [(op & Hop & _)|Hr0].
    - by apply elem_of_nil in Hop.
    - cbn in Hr0. by apply elem_of_empty in Hr0. }
  split_and!.
  - intros k. rewrite Hl. cbn.
    destruct (decide (is_Some (dirty_items st !! k))) as [Hd|Hd].
    + rewrite (bool_decide_eq_true_2 (is_Some _)) by done.
      rewrite (bool_decide_eq_true_2 (k ∈ _)) by (by apply elem_of_entries_fst).
      rewrite andb_true_r. unfold is_first_commit.
      destruct (decide (loaded_anchor_map st = ∅)) as [He|Hne].
      * rewrite bool_decide_eq_true_2 by done. cbn. by rewrite He, lookup_empty.
      * by rewrite bool_decide_eq_false_2 by done.
    + rewrite (bool_decide_eq_false_2 (is_Some _)) by done.
      rewrite (bool_decide_eq_false_2 (k ∈ _));
        [by rewrite andb_false_r|by rewrite elem_of_entries_fst].
  - intros key bl Hw1. apply Hw in Hw1 as [Hw1|(k & a & Hk & -> & Hwi & ->)].
    + by apply Hnw in Hw1.
    + apply elem_of_entries_fst in Hk. exists k, a. split_and!; try done.
      by apply writes_item_to_write.
  - intros k a Hwk. apply (Hn k a).
    + apply elem_of_entries_fst. by destruct Hwk.
    + apply writes_item_to_write; [by destruct Hwk|done].
  - intros key. rewrite Hr. split.
    + intros [Hr0|(k & Hk & -> & Hnone)]; [by apply Hnr in Hr0|].
      exists k. split_and!; try done. by apply elem_of_entries_fst.
    + intros (k & -> & Hd & Hnone). right. exists k. split_and!; try done.
      by apply elem_of_entries_fst.
Qed.

Lemma after_loaded_loop_plan st :
  let s3 := after_loaded_loop log_seq op_prio max_write_size st in
  (∀ key bl, wrote (planned s3.2) key bl →
     ∃ k a, key = snprintf_llx k ∧ to_write st k a ∧ bl = encode_anchor a) ∧
  (∀ k a, to_write st k a → ∃ bl, wrote (planned s3.2) (snprintf_llx k) bl) ∧
  (∀ key, removed (planned s3.2) key ↔ ∃ k, key = snprintf_llx k ∧ to_erase st k).
Proof.
  cbv zeta. unfold after_loaded_loop.
  pose proof (after_dirty_loop_plan st) as (Hl & Hw & Hn & Hr).
  set (s1 := after_dirty_loop log_seq op_prio max_write_size st) in *.
  cbv zeta in *.
  destruct (is_first_commit st) eqn:Hfc; cbn [fst snd].
  - pose proof (commit_loaded_loop_plan log_seq op_prio max_write_size
                  (entries (loaded_anchor_map s1.1))
                  (set_dirty_items s1.1 ∅, s1.2)) as [Hw2 Hr2].
    cbv zeta in *. set (s2 := foldl _ _ _) in *. cbn [fst snd] in *.
    split_and!.
    + intros key bl Hw3. apply Hw. by apply Hw2.
    + intros k a Hwk. destruct (Hn k a Hwk) as [bl Hbl]. exists bl. by apply Hw2.
    + intros key. rewrite Hr2, Hr. unfold to_erase. split.
      * intros [(k & -> & Hd & Hnone)|(k & Hk & ->)].
        -- exists k. split; [done|]. by left.
        -- exists k. split; [done|]. right.
           apply elem_of_entries_fst in Hk. rewrite Hl in Hk.
           destruct (decide (is_Some (dirty_items st !! k))) as [Hd|Hd].
           ++ rewrite bool_decide_eq_true_2 in Hk by done. by destruct Hk.
           ++ rewrite bool_decide_eq_false_2 in Hk by done.
              split; [|done]. by apply eq_None_not_Some.
      * intros (k & -> & [[Hd Hnone]|[Hd Hloaded]]).
        -- left. by exists k.
        -- right. exists k. split; [|done]. apply elem_of_entries_fst.
           rewrite Hl, bool_decide_eq_false_2; [done|].
           rewrite Hd. by intros [? ?].
  - split_and!; try done.
    intros key. rewrite Hr. unfold to_erase.
    unfold is_first_commit in Hfc. apply negb_false_iff in Hfc.
    apply bool_decide_eq_true in Hfc. rewrite Hfc.
    setoid_rewrite lookup_empty. split.
    + intros (k & -> & Hd & Hnone). exists k. split; [done|]. by left.
    + intros (k & -> & [[Hd Hnone]|[_ [? ?]]]); [|done]. by exists k.
Qed.

Lemma commit_ops_planned c st st' ops fin :
  commit log_seq op_prio max_write_size c st = Some (st', ops, fin) →
  (∀ key bl, wrote ops key bl
     ↔ wrote (planned (after_loaded_loop log_seq op_prio max_write_size st).2) key bl) ∧
  (∀ key, removed ops key
     ↔ removed (planned (after_loaded_loop log_seq op_prio max_write_size st).2) key).
Proof.
  rewrite commit_stages. case_match; [done|]. intros [= <- <- <-].
  destruct (after_loaded_loop log_seq op_prio max_write_size st) as [st3 l3].
  cbn. split.
  - intros key bl. by rewrite wrote_planned, wrote_app, wrote_singleton.
  - intros key. by rewrite removed_planned, removed_app, removed_singleton.
Qed.

(** X7.  The keys a commit sets are the dirty inodes that have an anchor,
    less those whose loaded anchor is still equal to it: every key set is
    the hexadecimal number of such an inode with the encoding of its anchor
    as value, and the key of every such inode is set by one of the
    sub-operations. *)
Theorem commit_writes (c : option Context) (st st' : OpenFileTable)
    (ops : list ObjectOperation) (fin : N * option Context) :
  commit log_seq op_prio max_write_size c st = Some (st', ops, fin) →
  (∀ key bl, wrote ops key bl →
     ∃ k a, key = snprintf_llx k ∧ to_write st k a ∧ bl = encode_anchor a) ∧
  (∀ k a, to_write st k a → ∃ bl, wrote ops (snprintf_llx k) bl).
Proof.
  intros Hc. destruct (commit_ops_planned _ _ _ _ _ Hc) as [Hw _].
  destruct (after_loaded_loop_plan st) as (Hs & Hn & _). split.
  - intros key bl Hk. apply Hs. by apply Hw.
  - intros k a Hk. destruct (Hn k a Hk) as [bl Hbl]. exists bl. by apply Hw.
Qed.

(** X8.  The keys a commit removes are the dirty inodes that have no anchor
    any more and, on the first commit after a load, the loaded inodes that
    are not dirty: a key is removed by one of the sub-operations exactly
    when it is the hexadecimal number of such an inode. *)
Theorem commit_removes (c : option Context) (st st' : OpenFileTable)
    (ops : list ObjectOperation) (fin : N * option Context) (key : string) :
  commit log_seq op_prio max_write_size c st = Some (st', ops, fin) →
  removed ops key ↔ ∃ k, key = snprintf_llx k ∧ to_erase st k.
Proof.
  intros Hc. destruct (commit_ops_planned _ _ _ _ _ Hc) as [_ Hr].
  destruct (after_loaded_loop_plan st) as (_ & _ & He).
  by rewrite Hr, He.
Qed.
End commit_keys.

Lemma commit_writes_witness :
  (∀ key bl, wrote small_cap_commit key bl →
     ∃ k a, key = snprintf_llx k ∧ to_write after_add_10 k a
            ∧ bl = @encode_anchor toy_encoding a) ∧
  (∀ k a, to_write after_add_10 k a → ∃ bl, wrote small_cap_commit (snprintf_llx k) bl).
Proof.
  apply (@commit_writes toy_encoding 5 0 1 None after_add_10 after_commit_5
           small_cap_commit (5%N, None)).
  vm_compute. reflexivity.
Defined.

Lemma commit_removes_witness :
  removed (default [] ((λ x, x.1.2) <$> removal_commit)) "10"
  ↔ ∃ k, "10" = snprintf_llx k ∧ to_erase after_remove_10 k.
Proof.
  apply (@commit_removes toy_encoding 6 0 4096 None after_remove_10
           (default empty_table ((λ x, x.1.1) <$> removal_commit))
           (default [] ((λ x, x.1.2) <$> removal_commit)) (6%N, None)).
  vm_compute. reflexivity.
Defined.

(** ** The clear flag *)

Section commit_clear.
Context `{Encoding}.
Context (log_seq : N) (op_prio : Z) (max_write_size : Z).

Lemma commit_func_clear b0 last s :
  clear_so_far b0 s → clear_so_far b0 (commit_func log_seq op_prio last s).
Proof.
  destruct s as [st l]. intros [[Hs Hc]|(op & rest & Hs & Hop & Hrest & Hc)];
    right; cbn in *.
  - rewrite Hs. eexists _, []. split_and!; try done.
  - rewrite Hs. exists op, (rest ++ [mk_op op_prio (clear_on_commit st)
                                     (if last then Some log_seq
                                      else if cl_first l then Some 0%N else None)
                                     (cl_to_update l) (cl_to_remove l)]).
    split_and!; try done. apply Forall_app. split; [done|].
    by apply Forall_singleton.
Qed.

Lemma flush_if_full_clear b0 s :
  clear_so_far b0 s → clear_so_far b0 (flush_if_full log_seq op_prio max_write_size s).
Proof.
  unfold flush_if_full. case_match; [apply commit_func_clear|done].
Qed.

Lemma commit_dirty_item_clear b0 fc s it :
  clear_so_far b0 s →
  clear_so_far b0 (commit_dirty_item log_seq op_prio max_write_size fc s it).
Proof.
  destruct s as [st l]. intros Hs. unfold commit_dirty_item.
  set (st1 := match (if fc then loaded_anchor_map st !! it.1 else None) with
              | Some _ => set_loaded_anchor_map st (delete it.1 (loaded_anchor_map st))
              | None => st
              end).
  assert (clear_on_commit st1 = clear_on_commit st) as Hst1
    by (unfold st1; by case_match).
  assert (∀ l', cl_submitted l' = cl_submitted l → clear_so_far b0 (st1, l')) as Hl.
  { intros l' Hl'. unfold clear_so_far in *. cbn in *. by rewrite Hl', Hst1. }
  match goal with |- context [if ?b then (_, l) else _] => destruct b end.
  - by apply Hl.
  - apply flush_if_full_clear, Hl. by case_match.
Qed.

Lemma commit_loaded_item_clear b0 s it :
  clear_so_far b0 s →
  clear_so_far b0 (commit_loaded_item log_seq op_prio max_write_size s it).
Proof.
  destruct s as [st l]. intros Hs. unfold commit_loaded_item.
  by apply flush_if_full_clear.
Qed.

(** X9.  A commit clears the object at most once, and only in its first
    sub-operation: the first sub-operation carries [omap_clear] exactly when
    the clear flag was set, and no later one carries it. *)
Theorem commit_clears_once (c : option Context) (st st' : OpenFileTable)
    (ops : list ObjectOperation) (fin : N * option Context) :
  commit log_seq op_prio max_write_size c st = Some (st', ops, fin) →
  ∃ op rest, ops = op :: rest ∧
    op_omap_clear op = clear_on_commit st ∧
    Forall (λ o, op_omap_clear o = false) rest.
Proof.
  rewrite commit_stages. case_match; [done|]. intros [= <- <- <-].
  assert (clear_so_far (clear_on_commit st)
            (after_loaded_loop log_seq op_prio max_write_size st)) as Hs.
  { unfold after_loaded_loop.
    assert (clear_so_far (clear_on_commit st)
              (after_dirty_loop log_seq op_prio max_write_size st)) as H1.
    { apply (foldl_inv (clear_so_far (clear_on_commit st))); [|by left].
      intros. by apply commit_dirty_item_clear. }
    destruct (is_first_commit st); [|done]. cbn [fst snd].
    set (s := foldl _ _ _).
    assert (clear_so_far (clear_on_commit st) s) as H2; [|done].
    apply (foldl_inv (clear_so_far (clear_on_commit st))); [|done].
    intros. by apply commit_loaded_item_clear. }
  apply (commit_func_clear _ true) in Hs.
  destruct Hs as [[Hs _]|(op & rest & Hs & Hop & Hrest & _)].
  - destruct (after_loaded_loop log_seq op_prio max_write_size st) as [st3 l3].
    cbn in Hs. by apply app_nil in Hs as [_ ?].
  - by exists op, rest.
Qed.
End commit_clear.

Lemma commit_clears_once_witness :
  ∃ op rest, next_commit after_failed = op :: rest ∧
    op_omap_clear op = clear_on_commit failed_add_10 ∧
    Forall (λ o, op_omap_clear o = false) rest.
Proof.
  apply (@commit_clears_once toy_encoding 6 0 4096 None failed_add_10
           (default empty_table
              ((λ x, x.1.1) <$> @commit toy_encoding 6 0 4096 None failed_add_10))
           (next_commit after_failed) (6%N, None)).
  vm_compute. reflexivity.
Defined.

(** ** The keys *)

Lemma digit_value_hex_digit d : (d < 16)%N → digit_value (hex_digit d) = d.
Proof.
  intros Hd. rewrite <- (N2Nat.id d). assert (N.to_nat d < 16)%nat as Hn by lia.
  clear Hd. generalize dependent (N.to_nat d). clear d. intros n Hn.
  do 16 (destruct n as [|n]; [reflexivity|]). lia.
Qed.

Lemma string_app_cons c (s1 s2 : string) :
  (String c s1 +:+ s2 = String c (s1 +:+ s2))%string.
Proof. reflexivity. Qed.

Lemma string_app_nil_l (s : string) : ("" +:+ s = s)%string.
Proof. reflexivity. Qed.

Lemma string_app_nil_r (s : string) : (s +:+ "" = s)%string.
Proof.
  induction s as [|c s IH]; [done|]. by rewrite string_app_cons, IH.
Qed.

Lemma string_app_assoc (s1 s2 s3 : string) :
  ((s1 +:+ s2) +:+ s3 = s1 +:+ (s2 +:+ s3))%string.
Proof.
  induction s1 as [|c s1 IH]; [done|]. by rewrite !string_app_cons, IH.
Qed.

Lemma hex_value_app s1 s2 acc :
  hex_value (s1 +:+ s2) acc = hex_value s2 (hex_value s1 acc).
Proof.
  revert acc. induction s1 as [|c s1 IH]; intros acc; [done|].
  rewrite string_app_cons. cbn [hex_value]. by rewrite IH.
Qed.

Lemma string_length_app (s1 s2 : string) :
  String.length (s1 +:+ s2) = (String.length s1 + String.length s2)%nat.
Proof.
  induction s1 as [|c s1 IH]; [done|].
  rewrite string_app_cons. cbn [String.length]. by rewrite IH.
Qed.

(** [to_hex] puts the digits of [n] in front of [acc]. *)
Lemma to_hex_digits fuel :
  ∀ n acc, (n < 16 ^ N.of_nat (S fuel))%N →
    ∃ ds, to_hex (S fuel) n acc = (ds +:+ acc)%string ∧
          (∀ v, hex_value ds v = (v * 16 ^ N.of_nat (String.length ds) + n)%N) ∧
          (1 ≤ String.length ds ≤ S fuel)%nat.
Proof.
  induction fuel as [|fuel IH]; intros n acc Hn.
  - exists (String (hex_digit (n mod 16)) ""). cbn [to_hex].
    assert (n / 16 = 0)%N as Hq by (apply N.div_small; simpl in Hn; lia).
    rewrite Hq. cbn. split_and!; try done; try lia.
    intros v. rewrite digit_value_hex_digit by (apply N.mod_lt; lia).
    rewrite N.mod_small by (simpl in Hn; lia). lia.
  - change (to_hex (S (S fuel)) n acc)
      with (if (n / 16 =? 0)%N then String (hex_digit (n mod 16)) acc
            else to_hex (S fuel) (n / 16) (String (hex_digit (n mod 16)) acc)).
    destruct (n / 16 =? 0)%N eqn:Hq.
    + apply N.eqb_eq in Hq.
      exists (String (hex_digit (n mod 16)) ""). cbn.
      split_and!; try done; try lia.
      intros v. rewrite digit_value_hex_digit by (apply N.mod_lt; lia).
      pose proof (N.div_mod n 16 ltac:(lia)). lia.
    + destruct (IH (n / 16)%N (String (hex_digit (n mod 16)) acc))
        as (ds & Hds & Hval & Hlen).
      { apply N.Div0.div_lt_upper_bound. rewrite <- N.pow_succ_r'.
        by replace (N.succ (N.of_nat (S fuel))) with (N.of_nat (S (S fuel))) by lia. }
      exists (ds +:+ String (hex_digit (n mod 16)) "")%string.
      rewrite Hds, string_app_assoc. split_and!; try done.
      * intros v. rewrite hex_value_app, Hval. cbn [hex_value].
        rewrite digit_value_hex_digit by (apply N.mod_lt; lia).
        rewrite string_length_app. cbn [String.length].
        replace (N.of_nat (String.length ds + 1)) with (N.succ (N.of_nat (String.length ds)))
          by lia.
        rewrite N.pow_succ_r'.
        pose proof (N.div_mod n 16 ltac:(lia)). lia.
      * rewrite string_length_app. cbn [String.length]. lia.
      * rewrite string_length_app. cbn [String.length]. lia.
Qed.

Lemma snprintf_llx_value (k : inodeno_t) :
  (1 ≤ String.length (snprintf_llx k) ≤ 16)%nat ∧
  hex_value (snprintf_llx k) 0 = (k mod 2 ^ 64)%N.
Proof.
  unfold snprintf_llx.
  destruct (to_hex_digits 15 (k mod 2 ^ 64)%N "") as (ds & Hds & Hval & Hlen).
  { apply N.mod_lt. lia. }
  rewrite Hds, string_app_nil_r.
  split; [done|]. rewrite Hval. lia.
Qed.

Lemma snprintf_llx_inj (k1 k2 : inodeno_t) :
  (k1 < 2 ^ 64)%N → (k2 < 2 ^ 64)%N →
  snprintf_llx k1 = snprintf_llx k2 → k1 = k2.
Proof.
  intros H1 H2 Heq.
  destruct (snprintf_llx_value k1) as [_ Hv1].
  destruct (snprintf_llx_value k2) as [_ Hv2].
  rewrite Heq, Hv2 in Hv1. rewrite !N.mod_small in Hv1 by done. done.
Qed.

(** X10.  The key of an inode is a string of one to sixteen characters, so
    that it fits the 32-byte buffer it is printed into, and it reads back as
    the inode number: two inode numbers get the same key only if they are
    the same 64-bit number. *)
Theorem snprintf_llx_reads_back (k1 k2 : inodeno_t) :
  (1 ≤ String.length (snprintf_llx k1) ≤ 16)%nat ∧
  hex_value (snprintf_llx k1) 0 = (k1 mod 2 ^ 64)%N ∧
  (snprintf_llx k1 = snprintf_llx k2 ↔ (k1 mod 2 ^ 64 = k2 mod 2 ^ 64)%N).
Proof.
  destruct (snprintf_llx_value k1) as [Hlen Hval].
  destruct (snprintf_llx_value k2) as [_ Hval2].
  split_and!; try done; try lia. split.
  - intros Heq. by rewrite <- Hval, Heq.
  - intros Heq. unfold snprintf_llx. by rewrite Heq.
Qed.

Section commit_own_anchor.
Context `{Encoding}.
Context (log_seq : N) (op_prio : Z) (max_write_size : Z).

(** X11.  When the inode numbers of the dirty set and of the loaded map are
    64-bit numbers, a commit sets the key of every dirty inode it has to
    write to the encoding of that inode's anchor and to nothing else, and no
    sub-operation removes that key. *)
Theorem commit_sets_own_anchor (c : option Context) (st st' : OpenFileTable)
    (ops : list ObjectOperation) (fin : N * option Context)
    (k : inodeno_t) (a : Anchor.t) :
  commit log_seq op_prio max_write_size c st = Some (st', ops, fin) →
  (∀ j, is_Some (dirty_items st !! j) ∨ is_Some (loaded_anchor_map st !! j) →
        (j < 2 ^ 64)%N) →
  to_write st k a →
  wrote ops (snprintf_llx k) (encode_anchor a) ∧
  (∀ bl, wrote ops (snprintf_llx k) bl → bl = encode_anchor a) ∧
  ¬ removed ops (snprintf_llx k).
Proof.
  intros Hc Hbound Hk.
  destruct (commit_ops_planned _ _ _ _ _ _ _ _ Hc) as [Hw Hr].
  destruct (after_loaded_loop_plan log_seq op_prio max_write_size st)
    as (Hs & Hn & He).
  assert (∀ bl, wrote ops (snprintf_llx k) bl → bl = encode_anchor a) as Hown.
  { intros bl Hbl. apply Hw, Hs in Hbl as (k' & a' & Hkey & Hk' & ->).
    apply snprintf_llx_inj in Hkey.
    - subst k'. destruct Hk as (_ & Ha & _), Hk' as (_ & Ha' & _). congruence.
    - apply Hbound. left. by destruct Hk.
    - apply Hbound. left. by destruct Hk'. }
  split_and!; [|done|].
  - destruct (Hn k a Hk) as [bl Hbl]. apply Hw in Hbl.
    by rewrite <- (Hown bl Hbl).
  - intros Hrm. apply Hr, He in Hrm as (k' & Hkey & Hk').
    apply snprintf_llx_inj in Hkey.
    + subst k'. destruct Hk as (Hd & Ha & _).
      destruct Hk' as [[_ Hnone]|[Hnd _]]; [congruence|].
      rewrite Hnd in Hd. by destruct Hd.
    + apply Hbound. left. by destruct Hk.
    + apply Hbound. destruct Hk' as [[? _]|[_ ?]]; [by left|by right].
Qed.
End commit_own_anchor.

Lemma commit_sets_own_anchor_witness :
  wrote small_cap_commit (snprintf_llx 16)
        (@encode_anchor toy_encoding (Anchor.make 16 1 "a" 8 1)) ∧
  (∀ bl, wrote small_cap_commit (snprintf_llx 16) bl →
         bl = @encode_anchor toy_encoding (Anchor.make 16 1 "a" 8 1)) ∧
  ¬ removed small_cap_commit (snprintf_llx 16).
Proof.
  apply (@commit_sets_own_anchor toy_encoding 5 0 1 None after_add_10 after_commit_5
           small_cap_commit (5%N, None)).
  - vm_compute. reflexivity.
  - intros j [[f Hj]|[q Hj]].
    + assert (map_Forall (λ k _, (k < 2 ^ 64)%N) (dirty_items after_add_10)) as HF
        by (apply (bool_decide_unpack _); vm_compute; exact I).
      by apply (HF j f).
    + by vm_compute in Hj.
  - split_and!.
    + vm_compute. by eexists.
    + vm_compute. reflexivity.
    + intros q Hq. by vm_compute in Hq.
Defined.

(** ** When an open has to be journaled *)

(** [get_ref] only adds tracked flags and dirty entries, [put_ref] only takes
    tracked flags and anchors away. *)
Lemma get_ref_grows i k st st' :
  get_ref i st = Some st' →
  (k ∈ tracked_by_oft st → k ∈ tracked_by_oft st') ∧
  (is_Some (dirty_items st !! k) → is_Some (dirty_items st' !! k)).
Proof.
  intros Hget.
  apply (get_ref_steps
           (λ st1, (k ∈ tracked_by_oft st → k ∈ tracked_by_oft st1) ∧
                   (is_Some (dirty_items st !! k) → is_Some (dirty_items st1 !! k)))
           i) with (st := st); try done.
  - intros st1 n a Ha _ _ HP. unfold recounted. by rewrite Ha.
  - intros st1 n p nm ty _ [Ht Hd]. unfold created. cbn. split.
    + intros Hk. apply elem_of_union. right. by apply Ht.
    + intros Hk. rewrite emplace_lookup. case_bool_decide; [by eexists|by apply Hd].
Qed.

Lemma put_ref_shrinks i k st st' :
  put_ref i st = Some st' →
  (k ∉ tracked_by_oft st → k ∉ tracked_by_oft st') ∧
  (anchor_map st !! k = None → anchor_map st' !! k = None).
Proof.
  intros Hput.
  apply (put_ref_steps
           (λ st1, (k ∉ tracked_by_oft st → k ∉ tracked_by_oft st1) ∧
                   (anchor_map st !! k = None → anchor_map st1 !! k = None))
           i) with (st := st); try done.
  - intros st1 n a Ha _ _ [Ht Hm]. unfold recounted. rewrite Ha. cbn.
    split; [done|]. intros Hk.
    rewrite lookup_insert_ne; [by apply Hm|]. intros ->.
    rewrite (Hm Hk) in Ha. done.
  - intros st1 n a _ _ _ [Ht Hm]. unfold erased. cbn. split.
    + intros Hk Hin. apply elem_of_difference in Hin as [Hin _]. by apply Ht.
    + intros Hk. apply lookup_delete_None. right. by apply Hm.
Qed.

(** X12.  Once [add_inode] has tracked an inode that had no anchor, its open
    has to be journaled exactly when the inode was last journaled before the
    committing sequence: the inode is tracked and dirty. *)
Theorem should_log_open_after_add (i : CInode) (st st' : OpenFileTable) :
  anchor_map st !! Inode.ino i = None →
  add_inode i st = Some st' →
  state_test i st' = true ∧ is_Some (dirty_items st' !! Inode.ino i) ∧
  should_log_open i st'
  = negb (committing_log_seq st <=? Inode.last_journaled i)%N.
Proof.
  intros Hnone Hadd.
  assert (engine_frame st st') as (_ & _ & Hseq & _)
    by (apply (engine_frame_hook i); tauto).
  destruct i as [n ty lj dn]. unfold add_inode in Hadd. case_match; [done|].
  change (Inode.ino (mk_CInode n ty lj dn)) with n in *.
  change (Inode.last_journaled (mk_CInode n ty lj dn)) with lj in *.
  rewrite get_ref_create in Hadd by done.
  assert (n ∈ tracked_by_oft st' ∧ is_Some (dirty_items st' !! n)) as [Ht Hd].
  { assert (n ∈ tracked_by_oft (created n (match dn with
                                            | Some (_, pin) => Inode.ino pin
                                            | None => 0%N end)
                                   (match dn with Some (nm, _) => nm | None => "" end)
                                   ty st)
            ∧ is_Some (dirty_items (created n (match dn with
                                               | Some (_, pin) => Inode.ino pin
                                               | None => 0%N end)
                                      (match dn with Some (nm, _) => nm | None => "" end)
                                      ty st) !! n)) as [Ht Hd].
    { unfold created. cbn. split; [set_solver|].
      rewrite emplace_lookup, bool_decide_eq_true_2 by done. by eexists. }
    destruct dn as [[nm pin]|]; [|by simplify_eq].
    destruct (get_ref_grows pin n _ _ Hadd) as [Ht' Hd']. split; auto. }
  unfold should_log_open, state_test. cbn.
  rewrite bool_decide_eq_true_2 by done. rewrite Hseq.
  split_and!; try done.
  destruct (_ <=? _)%N; [done|]. by destruct Hd as [f ->].
Qed.

Lemma should_log_open_after_add_witness :
  state_test file_10 after_add_10 = true ∧
  is_Some (dirty_items after_add_10 !! Inode.ino file_10) ∧
  should_log_open file_10 after_add_10
  = negb (committing_log_seq empty_table <=? Inode.last_journaled file_10)%N.
Proof.
  apply (should_log_open_after_add file_10 empty_table); vm_compute; reflexivity.
Defined.

(** X13.  Once [remove_inode] has returned for an inode that is not a
    directory, the inode has no anchor and no tracked flag, and its next open
    has to be journaled. *)
Theorem should_log_open_after_remove (i : CInode) (st st' : OpenFileTable) :
  Inode.is_dir i = false →
  remove_inode i st = Some st' →
  anchor_map st' !! Inode.ino i = None ∧ state_test i st' = false ∧
  should_log_open i st' = true.
Proof.
  intros Hdir Hrm. destruct i as [n ty lj dn].
  unfold remove_inode in Hrm. rewrite Hdir in Hrm.
  change (Inode.ino (mk_CInode n ty lj dn)) with n in *.
  destruct (anchor_map st !! n) as [a|] eqn:Ha; [|done].
  cbn [orb negb] in Hrm. case_bool_decide as Hone; [|done]. cbn [negb] in Hrm.
  assert (anchor_map st' !! n = None ∧ n ∉ tracked_by_oft st') as [Hnone Hnt].
  { simpl in Hrm.
    destruct (bool_decide (n ∈ tracked_by_oft st)); simpl in Hrm; [|done].
    rewrite Ha, Hone in Hrm. simpl in Hrm.
    match type of Hrm with (if negb ?b then _ else _) = _ => destruct b end;
      simpl in Hrm; [|done].
    destruct dn as [[nm pin]|].
    - destruct (put_ref_shrinks pin n _ _ Hrm) as [Ht' Hm']. split.
      + apply Hm'. cbn. by rewrite lookup_delete_eq.
      + apply Ht'. cbn. set_solver.
    - simplify_eq. cbn. rewrite lookup_delete_eq. split; [done|set_solver]. }
  unfold should_log_open, state_test.
  change (Inode.ino (mk_CInode n ty lj dn)) with n.
  by rewrite bool_decide_eq_false_2.
Qed.

Lemma should_log_open_after_remove_witness :
  anchor_map after_remove_10 !! Inode.ino file_10 = None ∧
  state_test file_10 after_remove_10 = false ∧
  should_log_open file_10 after_remove_10 = true.
Proof.
  apply (should_log_open_after_remove file_10 after_commit_5); vm_compute; reflexivity.
Defined.

(** X14.  Right after a commit has been started no tracked inode needs its
    open journaled: [should_log_open] is true for the inodes that are not
    tracked and for no other. *)
Theorem should_log_open_after_commit `{Encoding} (log_seq : N)
    (op_prio max_write_size : Z) (c : option Context) (st st' : OpenFileTable)
    (ops : list ObjectOperation) (fin : N * option Context) (i : CInode) :
  commit log_seq op_prio max_write_size c st = Some (st', ops, fin) →
  should_log_open i st' = negb (state_test i st).
Proof.
  intros Hc.
  pose proof (commit_post _ _ _ _ _ _ Hc) as (_ & Hd & _).
  pose proof (commit_commit_frame _ _ _ _ _ _ Hc)
    as (_ & _ & _ & _ & _ & _ & _ & Htr & _).
  cbn in *. unfold should_log_open, state_test. rewrite Htr, Hd, lookup_empty.
  destruct (bool_decide _); [|done]. by destruct (_ <=? _)%N.
Qed.

Lemma should_log_open_after_commit_witness :
  should_log_open file_10 after_commit_5 = negb (state_test file_10 after_add_10).
Proof.
  apply (@should_log_open_after_commit toy_encoding 5 0 4096 None after_add_10
           after_commit_5
           (default [] ((λ x, x.1.2) <$> @commit toy_encoding 5 0 4096 None after_add_10))
           (5%N, None)).
  vm_compute. reflexivity.
Defined.

(** ** What the prefetch driver writes *)

(** The prefetch driver writes the table in six ways: it records an
    authority, counts an open up or down, moves from the directory phase to
    the file phase and from the file phase to the end, takes the waiters off
    their list, and logs a completion.  A relation that all six are steps
    of holds between the table before and after any run of the driver. *)
Section prefetch_steps.
Context `{MDSEnv}.
Context (R : OpenFileTable → OpenFileTable → Prop).
Context (R_refl : ∀ st, R st st).
Context (R_trans : ∀ st1 st2 st3, R st1 st2 → R st2 st3 → R st1 st3).
Context (R_auth : ∀ st k a r, loaded_anchor_map st !! k = Some a →
           R st (set_loaded_anchor_map st
                   (<[k := Anchor.set_auth r a]> (loaded_anchor_map st)))).
Context (R_count : ∀ st n, R st (set_num_opening_inodes st n)).
Context (R_file : ∀ st, prefetch_state st = DIR_INODES →
           R st (set_prefetch_state st FILE_INODES)).
Context (R_done : ∀ st, prefetch_state st = FILE_INODES →
           R st (set_prefetch_state st DONE)).
Context (R_waiters : ∀ st, R st (set_waiting_for_prefetch st [])).
Context (R_completed : ∀ st x, R st (set_completed st (completed st ++ [x]))).

Section knot.
Context (prefetch : world → result world).
Context (prefetch_R : ∀ w w', prefetch w = Ok w' → R w.1 w'.1).

Lemma complete_steps c r w w' :
  complete prefetch c r w = Ok w' → R w.1 w'.1.
Proof.
  destruct c as [id|]; simpl.
  - intros [= <-]. apply R_completed.
  - apply prefetch_R.
Qed.

Lemma finish_contexts_steps ls w w' :
  finish_contexts prefetch ls w = Ok w' → R w.1 w'.1.
Proof.
  unfold finish_contexts. intros Hrun.
  apply (rfold_inv (λ w1 : world, R w.1 w1.1)) in Hrun; [done| |].
  - intros w1 c w2 Hw1 Hc. eapply R_trans; [done|].
    by eapply complete_steps.
  - apply R_refl.
Qed.

Lemma open_ino_finish_steps ino r w w' :
  _open_ino_finish_with prefetch ino r w = Ok w' → R w.1 w'.1.
Proof.
  destruct w as [st mc]. unfold _open_ino_finish_with.
  set (cond := _ && _ && _).
  assert (∀ st1, (if cond
                  then match loaded_anchor_map st !! ino with
                       | None => Abort
                       | Some a => Ok (set_loaded_anchor_map st
                             (<[ino := Anchor.set_auth r a]> (loaded_anchor_map st)))
                       end
                  else Ok st) = Ok st1 → R st st1) as Hauth.
  { intros st1. destruct cond; [|intros [= <-]; apply R_refl].
    destruct (loaded_anchor_map st !! ino) as [a|] eqn:Ha; [|done].
    intros [= <-]. by apply R_auth. }
  destruct (if cond then _ else _) as [st1| |]; simpl; try done.
  specialize (Hauth st1 eq_refl).
  case_bool_decide as Hzero.
  - destruct (prefetch_state st1) eqn:Hph; try done.
    + intros Hrun%prefetch_R. simpl in Hrun.
      eapply R_trans; [exact Hauth|].
      eapply R_trans; [apply (R_count st1 (num_opening_inodes st1 - 1))|].
      eapply R_trans; [|exact Hrun]. by apply R_file.
    + destruct (finish_contexts _ _ _) as [w1| |] eqn:Hfin; simpl; try done.
      intros [= <-]. apply finish_contexts_steps in Hfin. simpl in *.
      eapply R_trans; [exact Hauth|].
      eapply R_trans; [apply (R_count st1 (num_opening_inodes st1 - 1))|].
      eapply R_trans; [by apply R_done|].
      eapply R_trans; [apply R_waiters|].
      eapply R_trans; [exact Hfin|]. apply R_waiters.
  - intros [= <-]. simpl. eapply R_trans; [exact Hauth|]. apply R_count.
Qed.

Lemma prefetch_entry_steps pool w k w' :
  prefetch_entry prefetch pool w k = Ok w' → R w.1 w'.1.
Proof.
  destruct w as [st mc]. unfold prefetch_entry.
  destruct (loaded_anchor_map st !! k) as [a|] eqn:Ha; [|done].
  assert (∀ w', (if get_inode mc k then Ok (st, mc)
                 else let st1 := set_num_opening_inodes st (num_opening_inodes st + 1) in
                      let '(mc1, done) := open_ino mc k pool in
                      match done with
                      | Some r => _open_ino_finish_with prefetch k r (st1, mc1)
                      | None => Ok (st1, mc1)
                      end) = Ok w' → R st w'.1) as Hopen.
  { intros w1. destruct (get_inode mc k); [intros [= <-]; apply R_refl|].
    cbv zeta. destruct (open_ino mc k pool) as [mc1 [r|]].
    - intros Hfin%open_ino_finish_steps. simpl in Hfin.
      eapply R_trans; [|exact Hfin]. apply R_count.
    - intros [= <-]. apply R_count. }
  repeat case_match; try (intros [= <-]; simpl;
                          (apply R_refl || by apply R_auth));
    apply Hopen.
Qed.

Lemma prefetch_inodes_with_steps w w' :
  _prefetch_inodes_with prefetch w = Ok w' → R w.1 w'.1.
Proof.
  destruct w as [st mc]. unfold _prefetch_inodes_with.
  case_match; [done|].
  destruct (match prefetch_state _ with DIR_INODES => _ | _ => _ end)
    as [pool| |]; simpl; try done.
  destruct (rfold _ _ _) as [w1| |] eqn:Hloop; simpl; try done.
  intros Hfin%open_ino_finish_steps.
  apply (rfold_inv (λ w2 : world, R st w2.1)) in Hloop.
  - by eapply R_trans.
  - intros w2 k w3 Hw2 Hk%prefetch_entry_steps. by eapply R_trans.
  - apply R_count.
Qed.
End knot.

Lemma prefetch_inodes_steps fuel :
  ∀ w w', _prefetch_inodes fuel w = Ok w' → R w.1 w'.1.
Proof.
  induction fuel as [|fuel IH]; intros w w' Hrun; [done|].
  simpl in Hrun. by eapply prefetch_inodes_with_steps.
Qed.

Lemma open_ino_finish_fuel_steps fuel ino r w w' :
  _open_ino_finish fuel ino r w = Ok w' → R w.1 w'.1.
Proof.
  apply open_ino_finish_steps. apply prefetch_inodes_steps.
Qed.
End prefetch_steps.

Lemma advances_refl st : advances st st.
Proof. by repeat split. Qed.

Lemma advances_trans st1 st2 st3 :
  advances st1 st2 → advances st2 st3 → advances st1 st3.
Proof.
  intros (Ha1 & Hp1 & Hc1) (Ha2 & Hp2 & Hc2). split_and!.
  - intros k. by rewrite Ha2, Ha1.
  - lia.
  - by etrans.
Qed.

Lemma advances_auth st k a r :
  loaded_anchor_map st !! k = Some a →
  advances st (set_loaded_anchor_map st
                 (<[k := Anchor.set_auth r a]> (loaded_anchor_map st))).
Proof.
  intros Hk. split_and!; try done. intros j. cbn.
  destruct (decide (j = k)) as [->|Hne].
  - by rewrite lookup_insert_eq, Hk.
  - by rewrite lookup_insert_ne.
Qed.

Lemma advances_file st :
  prefetch_state st = DIR_INODES → advances st (set_prefetch_state st FILE_INODES).
Proof. intros Hph. split_and!; try done. cbn. rewrite Hph. cbn. lia. Qed.

Lemma advances_done st :
  prefetch_state st = FILE_INODES → advances st (set_prefetch_state st DONE).
Proof. intros Hph. split_and!; try done. cbn. rewrite Hph. cbn. lia. Qed.

Lemma advances_log st x : advances st (set_completed st (completed st ++ [x])).
Proof. split_and!; try done. cbn. by apply prefix_app_r. Qed.

Lemma prefetch_advances `{MDSEnv} fuel ino r w w' :
  _prefetch_inodes fuel w = Ok w' ∨ _open_ino_finish fuel ino r w = Ok w' →
  advances w.1 w'.1.
Proof.
  intros [Hrun|Hrun].
  - eapply (prefetch_inodes_steps advances); try done;
      eauto using advances_refl, advances_trans, advances_auth, advances_file,
                  advances_done, advances_log.
  - eapply (open_ino_finish_fuel_steps advances); try done;
      eauto using advances_refl, advances_trans, advances_auth, advances_file,
                  advances_done, advances_log.
Qed.

Lemma finish_contexts_advances `{MDSEnv} fuel ls w w' :
  finish_contexts (_prefetch_inodes fuel) ls w = Ok w' → advances w.1 w'.1.
Proof.
  apply (finish_contexts_steps advances);
    eauto using advances_refl, advances_trans, advances_log.
  intros w1 w2 Hrun. apply (prefetch_advances fuel 0%N 0). by left.
Qed.

(** X15.  A run of [_prefetch_inodes] or of [_open_ino_finish] leaves the
    anchors, the dirty set, the tracked flags, the commit counters, the
    clear flag and the state of the load as they are, and of a loaded anchor
    it changes the authority at most: no loaded anchor comes or goes, and
    none changes its number, parent, name or type. *)
Theorem prefetch_records_authority_only `{MDSEnv} (fuel : nat) (ino : inodeno_t)
    (r : Z) (w w' : world) :
  _prefetch_inodes fuel w = Ok w' ∨ _open_ino_finish fuel ino r w = Ok w' →
  untouched w.1 w'.1 ∧
  ∀ k, Anchor.set_auth 0 <$> loaded_anchor_map w'.1 !! k
       = Anchor.set_auth 0 <$> loaded_anchor_map w.1 !! k.
Proof.
  intros Hrun. split.
  - destruct Hrun as [Hrun|Hrun].
    + by eapply prefetch_inodes_untouched.
    + eapply open_ino_finish_untouched; [|exact Hrun].
      apply prefetch_inodes_untouched.
  - by destruct (prefetch_advances fuel ino r w w' Hrun) as (Ha & _).
Qed.

Lemma prefetch_records_authority_only_witness :
  untouched prefetching after_prefetch.1 ∧
  ∀ k, Anchor.set_auth 0 <$> loaded_anchor_map after_prefetch.1 !! k
       = Anchor.set_auth 0 <$> loaded_anchor_map prefetching !! k.
Proof.
  apply (@prefetch_records_authority_only sync_cache 2 0%N 0 (prefetching, [])
           after_prefetch).
  left. vm_compute. reflexivity.
Defined.

(** X16.  A run of [_prefetch_inodes] or of [_open_ino_finish] never takes
    the prefetch back to an earlier phase, and never takes a completion off
    the log of the contexts it has completed. *)
Theorem prefetch_phase_never_goes_back `{MDSEnv} (fuel : nat) (ino : inodeno_t)
    (r : Z) (w w' : world) :
  _prefetch_inodes fuel w = Ok w' ∨ _open_ino_finish fuel ino r w = Ok w' →
  (phase_rank (prefetch_state w.1) ≤ phase_rank (prefetch_state w'.1))%nat ∧
  completed w.1 `prefix_of` completed w'.1.
Proof.
  intros Hrun.
  by destruct (prefetch_advances fuel ino r w w' Hrun) as (_ & Hp & Hc).
Qed.

Lemma prefetch_phase_never_goes_back_witness :
  (phase_rank (prefetch_state prefetching)
   ≤ phase_rank (prefetch_state after_prefetch.1))%nat ∧
  completed prefetching `prefix_of` completed after_prefetch.1.
Proof.
  apply (@prefetch_phase_never_goes_back sync_cache 2 0%N 0 (prefetching, [])
           after_prefetch).
  left. vm_compute. reflexivity.
Defined.

(** ** The end of the prefetch *)

Lemma finish_contexts_completions `{MDSEnv} prefetch ls :
  Forall is_caller ls →
  ∀ w, finish_contexts prefetch ls w
       = Ok (set_completed w.1 (completed w.1 ++ completions ls), w.2).
Proof.
  unfold finish_contexts.
  induction 1 as [|c ls Hc _ IH]; intros [st mc]; simpl.
  - by rewrite set_completed_nil.
  - destruct c as [id|]; [|done]. simpl.
    rewrite (IH (set_completed st (completed st ++ [(id, 0)]), mc)).
    simpl. by rewrite <-app_assoc.
Qed.

(** X17.  [_open_ino_finish] counts one open down.  While other opens are
    counted it leaves the phase, the waiters and the completions alone; the
    one that brings the count to zero in the file phase ends the prefetch:
    the phase is [DONE], the waiters are off their list, and each of them
    has been completed with 0, in the order they were registered. *)
Theorem open_ino_finish_counts_down `{MDSEnv} (fuel : nat) (ino : inodeno_t)
    (r : Z) (st : OpenFileTable) (mc : mdcache_t) :
  Forall is_caller (waiting_for_prefetch st) →
  (prefetch_state st = DIR_INODES → 0 ≤ r → ino ≠ 0%N →
     ino ∈ dom (loaded_anchor_map st)) →
  (num_opening_inodes st = 1 → prefetch_state st = FILE_INODES) →
  ∃ st' mc',
    _open_ino_finish fuel ino r (st, mc) = Ok (st', mc') ∧
    num_opening_inodes st' = num_opening_inodes st - 1 ∧
    (num_opening_inodes st ≠ 1 →
       prefetch_state st' = prefetch_state st ∧
       waiting_for_prefetch st' = waiting_for_prefetch st ∧
       completed st' = completed st) ∧
    (num_opening_inodes st = 1 →
       prefetch_state st' = DONE ∧ waiting_for_prefetch st' = [] ∧
       completed st' = completed st ++ completions (waiting_for_prefetch st)).
Proof.
  intros Hcallers Hdir Hlast.
  unfold _open_ino_finish, _open_ino_finish_with.
  set (cond := _ && _ && _).
  assert (∃ st1, (if cond
                  then match loaded_anchor_map st !! ino with
                       | None => Abort
                       | Some a => Ok (set_loaded_anchor_map st
                             (<[ino := Anchor.set_auth r a]> (loaded_anchor_map st)))
                       end
                  else Ok st) = Ok st1 ∧
                 prefetch_state st1 = prefetch_state st ∧
                 num_opening_inodes st1 = num_opening_inodes st ∧
                 waiting_for_prefetch st1 = waiting_for_prefetch st ∧
                 completed st1 = completed st) as (st1 & -> & Hph & Hnum & Hw & Hc).
  { destruct cond eqn:Hcond; [|by eexists].
    unfold cond in Hcond. apply andb_true_iff in Hcond as [Hcond Hino].
    apply andb_true_iff in Hcond as [Hcond Hr].
    apply bool_decide_eq_true in Hcond. apply Z.leb_le in Hr.
    apply negb_true_iff, bool_decide_eq_false in Hino.
    pose proof (Hdir Hcond Hr Hino) as [a Ha]%elem_of_dom. rewrite Ha. by eexists. }
  cbn [rbind]. set (mc1 := if bool_decide _ then _ else mc).
  destruct (decide (num_opening_inodes st = 1)) as [Hone|Hmore].
  - rewrite bool_decide_eq_true_2 by (cbn; lia).
    cbn [prefetch_state set_num_opening_inodes].
    rewrite Hph, (Hlast Hone).
    cbn [waiting_for_prefetch set_prefetch_state set_num_opening_inodes].
    rewrite Hw, finish_contexts_completions by done. cbn.
    eexists _, _. split; [done|]. cbn. rewrite Hc. split_and!; try done; lia.
  - rewrite bool_decide_eq_false_2 by (cbn; lia).
    eexists _, _. split; [done|]. cbn. split_and!; try done; lia.
Qed.

Lemma open_ino_finish_counts_down_witness :
  ∃ st' mc',
    @_open_ino_finish sync_cache 0 16%N 0 (last_open, []) = Ok (st', mc') ∧
    num_opening_inodes st' = num_opening_inodes last_open - 1 ∧
    (num_opening_inodes last_open ≠ 1 →
       prefetch_state st' = prefetch_state last_open ∧
       waiting_for_prefetch st' = waiting_for_prefetch last_open ∧
       completed st' = completed last_open) ∧
    (num_opening_inodes last_open = 1 →
       prefetch_state st' = DONE ∧ waiting_for_prefetch st' = [] ∧
       completed st' = completed last_open
                       ++ completions (waiting_for_prefetch last_open)).
Proof.
  apply (@open_ino_finish_counts_down sync_cache 0 16%N 0 last_open []).
  - vm_compute. repeat constructor.
  - vm_compute. discriminate.
  - vm_compute. reflexivity.
Defined.


Lemma prefetch_with_nothing_loaded `{MDSEnv} prefetch st mc :
  num_opening_inodes st = 0 → loaded_anchor_map st = ∅ →
  _prefetch_inodes_with prefetch (st, mc)
  = let mc1 := if bool_decide (0 ≠ get_nodeid)
               then rejoin_prefetch_ino_finish mc 0%N 0 else mc in
    match prefetch_state st with
    | DIR_INODES =>
        prefetch (set_prefetch_state (set_num_opening_inodes st 0) FILE_INODES, mc1)
    | FILE_INODES =>
        w' ←r finish_contexts prefetch (waiting_for_prefetch st)
                (set_waiting_for_prefetch
                   (set_prefetch_state (set_num_opening_inodes st 0) DONE) [], mc1);
        Ok (set_waiting_for_prefetch w'.1 [], w'.2)
    | _ => Abort
    end.
Proof.
  intros Hnum Hempty. unfold _prefetch_inodes_with.
  rewrite bool_decide_eq_true_2 by done. cbn [negb]. cbv zeta.
  change (prefetch_state (set_num_opening_inodes st 1)) with (prefetch_state st).
  change (loaded_anchor_map (set_num_opening_inodes st 1)) with (loaded_anchor_map st).
  rewrite Hempty, entries_empty. cbn [fmap list_fmap rfold].
  destruct (prefetch_state st) eqn:Hph; cbn [rbind]; try done.
  - unfold _open_ino_finish_with.
    rewrite (bool_decide_eq_true_2 (0%N = 0%N)) by done.
    rewrite andb_false_r. cbn [rbind]. cbn. by rewrite Hph.
  - unfold _open_ino_finish_with.
    rewrite (bool_decide_eq_true_2 (0%N = 0%N)) by done.
    rewrite andb_false_r. cbn [rbind]. cbn. by rewrite Hph.
Qed.

(** X18.  With the load done and nothing loaded, [prefetch_inodes] goes
    through both phases inside the call without opening any inode: it
    returns false, the phase is [DONE], and the waiters for the prefetch
    have been completed and taken off their list. *)
Theorem prefetch_inodes_nothing_loaded `{MDSEnv} (fuel : nat)
    (st : OpenFileTable) (mc : mdcache_t) :
  (2 ≤ fuel)%nat →
  prefetch_state st = IDLE → num_opening_inodes st = 0 →
  load_done st = true → loaded_anchor_map st = ∅ →
  Forall is_caller (waiting_for_prefetch st) →
  ∃ st' mc',
    prefetch_inodes fuel (st, mc) = Ok ((st', mc'), false) ∧
    prefetch_state st' = DONE ∧ num_opening_inodes st' = 0 ∧
    waiting_for_prefetch st' = [] ∧
    completed st' = completed st ++ completions (waiting_for_prefetch st) ∧
    untouched st st'.
Proof.
  intros Hfuel Hidle Hnum Hld Hempty Hcallers.
  destruct fuel as [|[|fuel]]; [lia..|].
  unfold prefetch_inodes. rewrite bool_decide_eq_true_2 by done. cbn [negb].
  cbv zeta. change (load_done (set_prefetch_state st DIR_INODES)) with (load_done st).
  rewrite Hld. cbn [negb].
  change (_prefetch_inodes (S (S fuel)) ?w)
    with (_prefetch_inodes_with (_prefetch_inodes (S fuel)) w).
  rewrite prefetch_with_nothing_loaded by done. cbv zeta.
  cbn [prefetch_state set_prefetch_state].
  change (_prefetch_inodes (S fuel) ?w)
    with (_prefetch_inodes_with (_prefetch_inodes fuel) w).
  rewrite prefetch_with_nothing_loaded by done. cbv zeta.
  cbn [prefetch_state set_prefetch_state set_num_opening_inodes
       waiting_for_prefetch].
  rewrite finish_contexts_completions by done. cbn.
  eexists _, _. split; [done|]. cbn. by repeat split.
Qed.

Lemma prefetch_inodes_nothing_loaded_witness :
  ∃ st' mc',
    @prefetch_inodes sync_cache 2 (nothing_loaded, []) = Ok ((st', mc'), false) ∧
    prefetch_state st' = DONE ∧ num_opening_inodes st' = 0 ∧
    waiting_for_prefetch st' = [] ∧
    completed st' = completed nothing_loaded
                    ++ completions (waiting_for_prefetch nothing_loaded) ∧
    untouched nothing_loaded st'.
Proof.
  apply (@prefetch_inodes_nothing_loaded sync_cache 2 nothing_loaded []).
  - lia.
  - reflexivity.
  - reflexivity.
  - reflexivity.
  - reflexivity.
  - vm_compute. repeat constructor.
Defined.

(** ** The loader *)

(** X19.  [_load_finish] either ends the load or asks for one more page.
    When it ends the load, the load is marked done, the waiters are off
    their list, and a second [load] fails its assertion.  It asks for one
    more page only when the read succeeded with [more] set, and then after
    the last key of the page, with the load still not marked done and the
    waiters, the clear flag and the inode cache left as they are. *)
Theorem load_finish_ends_or_continues `{MDSEnv} `{Encoding} (fuel : nat)
    (op_r header_r values_r : Z) (first more : bool) (header_bl : bufferlist)
    (values : list (string * bufferlist)) (w w' : world) (next : load_next) :
  _load_finish fuel op_r header_r values_r first more header_bl values w
  = Ok (next, w') →
  match next with
  | LoadFinished =>
      load_done w'.1 = true ∧ waiting_for_load w'.1 = [] ∧
      ∀ c, load c w'.1 = None
  | LoadMore key =>
      more = true ∧ 0 ≤ op_r ∧ (∃ bl, last values = Some (key, bl)) ∧
      load_done w'.1 = load_done w.1 ∧
      waiting_for_load w'.1 = waiting_for_load w.1 ∧
      clear_on_commit w'.1 = clear_on_commit w.1 ∧ w'.2 = w.2
  end.
Proof.
  assert (∀ w1 x, load_out (_prefetch_inodes fuel) w1 = Ok x →
            x.1 = LoadFinished ∧ load_done x.2.1 = true ∧
            waiting_for_load x.2.1 = [] ∧ ∀ c, load c x.2.1 = None) as Hout.
  { intros w1 x Hx.
    apply (load_out_untouched _ (prefetch_inodes_untouched fuel)) in Hx
      as (? & Hd & ? & _).
    split_and!; try done. intros c. unfold load. by rewrite Hd. }
  destruct w as [st mc]. unfold _load_finish, _load_finish_with.
  destruct (Z.ltb_spec op_r 0) as [Hneg|Hpos].
  { intros Hx. apply Hout in Hx as (Hn & ? & ? & ?). cbn in *. by subst next. }
  destruct (if first then _ else _) as [[st1 [|]]|] eqn:Hheader.
  - intros Hx. apply Hout in Hx as (Hn & ? & ? & ?). cbn in *. by subst next.
  - assert (load_done st1 = load_done st ∧
            waiting_for_load st1 = waiting_for_load st ∧
            clear_on_commit st1 = clear_on_commit st) as (Hd & Hw & Hc).
    { destruct first; [|by simplify_eq].
      destruct (decode_u64 header_bl); by simplify_eq. }
    destruct (load_values values (loaded_anchor_map st1)) as [m| |]; [| |done].
    + destruct more.
      * destruct (last values) as [[k bl]|]; [|done]. intros [= <- <-].
        cbn. split_and!; try done. by eexists.
      * intros Hx. apply Hout in Hx as (Hn & ? & ? & ?). cbn in *. by subst next.
    + unfold load_catch.
      intros Hx. apply Hout in Hx as (Hn & ? & ? & ?). cbn in *. by subst next.
  - unfold load_catch.
    intros Hx. apply Hout in Hx as (Hn & ? & ? & ?). cbn in *. by subst next.
Qed.

Lemma load_finish_ends_or_continues_witness :
  load_done after_load.2.1 = true ∧ waiting_for_load after_load.2.1 = [] ∧
  ∀ c, load c after_load.2.1 = None.
Proof.
  apply (@load_finish_ends_or_continues sync_cache toy_encoding 2 0 0 0 true false
           [Byte.x05] (lr_values committed_page)
           (loading, []) after_load.2 LoadFinished).
  vm_compute. reflexivity.
Defined.

(** X20.  A read that failed, a header that does not decode and a value
    that does not decode all end the load with the clear flag set.  The
    loaded map is emptied, except by the failed read of the first page,
    which leaves its keys as they are. *)
Theorem load_finish_errors `{MDSEnv} `{Encoding} (fuel : nat)
    (op_r header_r values_r : Z) (first more : bool) (header_bl : bufferlist)
    (values : list (string * bufferlist)) (w w' : world) (next : load_next) :
  _load_finish fuel op_r header_r values_r first more header_bl values w
  = Ok (next, w') →
  (op_r < 0 →
     next = LoadFinished ∧ clear_on_commit w'.1 = true ∧
     if first then dom (loaded_anchor_map w'.1) = dom (loaded_anchor_map w.1)
     else loaded_anchor_map w'.1 = ∅) ∧
  (0 ≤ op_r → first = true → decode_u64 header_bl = None →
     next = LoadFinished ∧ clear_on_commit w'.1 = true ∧
     loaded_anchor_map w'.1 = ∅) ∧
  (0 ≤ op_r → (first = true → ∃ seq, decode_u64 header_bl = Some seq ∧ seq ≠ 0%N) →
     load_values values (loaded_anchor_map w.1) = LV_error →
     next = LoadFinished ∧ clear_on_commit w'.1 = true ∧
     loaded_anchor_map w'.1 = ∅).
Proof.
  assert (∀ w1 x, load_out (_prefetch_inodes fuel) w1 = Ok x →
            x.1 = LoadFinished ∧ clear_on_commit x.2.1 = clear_on_commit w1.1 ∧
            dom (loaded_anchor_map x.2.1) = dom (loaded_anchor_map w1.1)) as Hout.
  { intros w1 x Hx.
    by apply (load_out_untouched _ (prefetch_inodes_untouched fuel)) in Hx
      as (? & _ & _ & _ & _ & ? & ?). }
  destruct w as [st mc]. unfold _load_finish, _load_finish_with. intros Hrun.
  split_and!.
  - intros Hneg. destruct (Z.ltb_spec op_r 0); [|lia].
    destruct first; apply Hout in Hrun as (Hn & Hc & Hd); cbn in Hn, Hc, Hd;
      split_and!; try done.
    try rewrite dom_empty_L in Hd. by apply dom_empty_iff_L.
  - intros Hpos -> Hdec. destruct (Z.ltb_spec op_r 0); [lia|].
    rewrite Hdec in Hrun. unfold load_catch in Hrun.
    apply Hout in Hrun as (Hn & Hc & Hd). cbn in Hn, Hc, Hd.
    split_and!; try done.
    try rewrite dom_empty_L in Hd. by apply dom_empty_iff_L.
  - intros Hpos Hheader Hvalues. destruct (Z.ltb_spec op_r 0); [lia|].
    cbn [fst] in Hvalues.
    assert (load_catch (_prefetch_inodes fuel)
              (match (if first then
                        match decode_u64 header_bl with
                        | Some log_seq =>
                            set_committed_log_seq
                              (set_committing_log_seq st log_seq) log_seq
                        | None => st
                        end
                      else st) with st1 => st1 end, mc) = Ok (next, w')) as Hcatch.
    { destruct first.
      - destruct (Hheader eq_refl) as (seq & Hseq & Hnz). rewrite Hseq in Hrun |- *.
        rewrite bool_decide_eq_false_2 in Hrun by done.
        cbn [loaded_anchor_map set_committed_log_seq set_committing_log_seq] in Hrun.
        by rewrite Hvalues in Hrun.
      - by rewrite Hvalues in Hrun. }
    unfold load_catch in Hcatch.
    apply Hout in Hcatch as (Hn & Hc & Hd). cbn in Hn, Hc, Hd.
    split_and!; try done.
    try rewrite dom_empty_L in Hd. by apply dom_empty_iff_L.
Qed.

Lemma load_finish_errors_witness :
  (0 < 0 →
     after_corrupt.1 = LoadFinished ∧ clear_on_commit after_corrupt.2.1 = true ∧
     dom (loaded_anchor_map after_corrupt.2.1) = dom (loaded_anchor_map loading)) ∧
  (0 ≤ 0 → true = true → @decode_u64 toy_encoding [Byte.x05] = None →
     after_corrupt.1 = LoadFinished ∧ clear_on_commit after_corrupt.2.1 = true ∧
     loaded_anchor_map after_corrupt.2.1 = ∅) ∧
  (0 ≤ 0 →
     (true = true → ∃ seq, @decode_u64 toy_encoding [Byte.x05] = Some seq ∧ seq ≠ 0%N) →
     @load_values toy_encoding (lr_values corrupt_page) (loaded_anchor_map loading)
     = LV_error →
     after_corrupt.1 = LoadFinished ∧ clear_on_commit after_corrupt.2.1 = true ∧
     loaded_anchor_map after_corrupt.2.1 = ∅).
Proof.
  apply (@load_finish_errors sync_cache toy_encoding 2 0 0 0 true false [Byte.x05]
           (lr_values corrupt_page) (loading, []) after_corrupt.2 after_corrupt.1).
  vm_compute. reflexivity.
Defined.

(** X21.  The loop of [_load_finish] over the values of a page, when it
    gets through, leaves every loaded anchor under its own inode number and
    without an authority, and it adds to the loaded map exactly the inode
    numbers the keys of the page read as. *)
Theorem load_values_well_formed `{Encoding} (values : list (string * bufferlist))
    (m m' : gmap inodeno_t Anchor.t) :
  loaded_ok m → load_values values m = LV_ok m' →
  loaded_ok m' ∧ dom m' = dom m ∪ list_to_set (parsed_key <$> values).
Proof.
  revert m. induction values as [|[key bl] rest IH]; intros m Hok Hrun;
    cbn [load_values] in Hrun.
  - simplify_eq. split; [done|]. cbn. set_solver.
  - destruct (decode_anchor bl _) as [a|] eqn:Hdec; [|done].
    case_bool_decide as Hino; [|done].
    apply IH in Hrun as [Hok' Hdom].
    + split; [done|]. rewrite Hdom, dom_insert_L, fmap_cons. cbn.
      unfold parsed_key at 2. cbn. set_solver.
    + intros k b Hk. destruct (decide (k = default 0%N (sscanf_llx key))) as [->|Hne].
      * rewrite lookup_insert_eq in Hk. by simplify_eq.
      * rewrite lookup_insert_ne in Hk by done. by apply Hok.
Qed.

Lemma load_values_well_formed_witness :
  loaded_ok committed_anchors ∧
  dom committed_anchors
  = dom (∅ : gmap inodeno_t Anchor.t)
    ∪ list_to_set (@parsed_key toy_encoding <$> lr_values committed_page).
Proof.
  apply (@load_values_well_formed toy_encoding (lr_values committed_page) ∅).
  - intros k a Hk. by rewrite lookup_empty in Hk.
  - vm_compute. reflexivity.
Defined.

(** ** Linking and unlinking *)

Lemma set_parent_undo p nm a :
  Anchor.dirino a = 0%N → Anchor.d_name a = "" →
  Anchor.set_parent 0%N "" (Anchor.set_parent p nm a) = a.
Proof. destruct a. cbn. by intros -> ->. Qed.

(** X22.  [notify_link] followed by [notify_unlink] of the same inode
    passes its assertions and gives back the anchor map as it was: the
    inode has no parent again and the counts along the chain of the parent
    are what they were.  Of the dirty set only the entry of the inode can
    have changed: it is there now. *)
Theorem link_then_unlink_restores (i : CInode) (st st1 : OpenFileTable) :
  NoDup (Inode.chain i) →
  dirty_new_anchored st →
  notify_link i st = Some st1 →
  ∃ st2, notify_unlink i st1 = Some st2 ∧
         anchor_map st2 = anchor_map st ∧
         dirty_items st2 = emplace (Inode.ino i) 0 (dirty_items st).
Proof.
  intros Hnd Hdna Hlink. destruct i as [n ty lj dn].
  unfold notify_link in Hlink. unfold notify_unlink.
  change (Inode.ino (mk_CInode n ty lj dn)) with n in *.
  change (Inode.get_parent_dn (mk_CInode n ty lj dn)) with dn in *.
  destruct (anchor_map st !! n) as [a|] eqn:Ha; [|done].
  destruct (0 <? Anchor.nref a) eqn:Hpos; cbn [negb] in Hlink; [|done].
  case_bool_decide as Hdir; cbn [negb] in Hlink; [|done].
  case_bool_decide as Hname; cbn [negb] in Hlink; [|done].
  destruct dn as [[nm pin]|]; [|done].
  cbn [Inode.chain] in Hnd. apply NoDup_cons in Hnd as [Hn Hnd].
  set (st_l := set_dirty_items _ _) in Hlink.
  destruct (get_ref_frame pin st_l st1 n Hlink Hn) as [Hen Hfn].
  assert (entry_at n st_l
          = (Some (Anchor.set_parent (Inode.ino pin) nm a),
             Some (default 0 (dirty_items st !! n)))) as Hel.
  { unfold entry_at, st_l. cbn.
    by rewrite lookup_insert_eq, emplace_lookup, bool_decide_eq_true_2. }
  rewrite Hel in Hen. injection Hen as Han Hdn. rewrite Han.
  cbn [Anchor.nref Anchor.set_parent Anchor.dirino Anchor.d_name].
  rewrite Hpos. cbn [negb].
  rewrite !bool_decide_eq_true_2 by done. cbn [negb].
  set (st_u := set_dirty_items _ _).
  destruct (get_put_cancel pin st_l st1 st_u Hnd) as (st2 & Hput & Hin & Hout).
  - intros k f Hk Hnone Hf.
    assert (k ≠ n) as Hne by (intros ->; done).
    unfold st_l in Hnone, Hf. cbn in Hnone, Hf.
    rewrite lookup_insert_ne in Hnone by done.
    rewrite emplace_lookup, bool_decide_eq_false_2 in Hf by done.
    by eapply dirty_new_anchored_clean.
  - done.
  - intros k Hk. assert (k ≠ n) as Hne by (intros ->; done).
    unfold entry_at, flagged_at, st_u. cbn.
    rewrite lookup_insert_ne by done.
    by rewrite emplace_lookup, bool_decide_eq_false_2.
  - exists st2. split; [done|].
    assert (∀ k, entry_at k st2
                 = (anchor_map st !! k, emplace n 0 (dirty_items st) !! k)) as Hall.
    { intros k. destruct (decide (k ∈ Inode.chain pin)) as [Hk|Hk].
      - rewrite Hin by done. assert (k ≠ n) as Hne by (intros ->; done).
        unfold entry_at, st_l. cbn. by rewrite lookup_insert_ne.
      - rewrite Hout by done. unfold entry_at, st_u. cbn.
        destruct (decide (k = n)) as [->|Hne].
        + rewrite lookup_insert_eq, set_parent_undo by done.
          rewrite Ha. f_equal.
          rewrite !emplace_lookup, !bool_decide_eq_true_2 by done.
          by rewrite Hdn.
        + rewrite lookup_insert_ne by done.
          rewrite emplace_lookup, bool_decide_eq_false_2 by done.
          destruct (get_ref_frame pin st_l st1 k Hlink Hk) as [Hek _].
          unfold entry_at in Hek. rewrite Hek. unfold st_l. cbn.
          by rewrite lookup_insert_ne. }
    split; apply map_eq; intros k; specialize (Hall k); by injection Hall.
Qed.

Lemma link_then_unlink_restores_witness :
  ∃ st2, notify_unlink file_10 (default empty_table (notify_link file_10 unlinked_10))
         = Some st2 ∧
         anchor_map st2 = anchor_map unlinked_10 ∧
         dirty_items st2 = emplace (Inode.ino file_10) 0 (dirty_items unlinked_10).
Proof.
  apply (link_then_unlink_restores file_10 unlinked_10).
  - vm_compute. repeat constructor; set_solver.
  - intros k f Hk. by vm_compute in Hk.
  - vm_compute. reflexivity.
Defined.

Lemma chain_canonical_ext i :
  ∀ m m', (∀ k, k ∈ Inode.chain i → m' !! k = m !! k) →
          chain_canonical i m → chain_canonical i m'.
Proof.
  induction i as [n ty lj|n ty lj nm pin IH] using CInode_ind;
    intros m m' Hext [Hn Hrest]; cbn in *.
  - split; [|done]. intros a Ha. apply Hn. rewrite <- Hext; [done|set_solver].
  - split.
    + intros a Ha. apply Hn. rewrite <- Hext; [done|set_solver].
    + apply (IH m); [|done]. intros k Hk. apply Hext. set_solver.
Qed.

(** What a [put_ref] that passes its assertions has found and done at the
    first inode of the chain. *)
Lemma put_ref_inv n ty lj dn st st' :
  put_ref (mk_CInode n ty lj dn) st = Some st' →
  ∃ a, anchor_map st !! n = Some a ∧ flagged_at n st = true ∧
    ((1 < Anchor.nref a ∧
      st' = set_anchor_map st
              (<[n := Anchor.set_nref (Anchor.nref a - 1) a]> (anchor_map st))) ∨
     (Anchor.nref a = 1 ∧
      Anchor.dirino a = match dn with Some (_, pin) => Inode.ino pin | None => 0%N end ∧
      Anchor.d_name a = match dn with Some (nm, _) => nm | None => "" end ∧
      match dn with
      | Some (_, pin) => put_ref pin (erased n st) = Some st'
      | None => st' = erased n st
      end)).
Proof.
  intros Hput. simpl in Hput. unfold flagged_at.
  destruct (bool_decide (n ∈ tracked_by_oft st)); simpl in Hput; [|done].
  destruct (anchor_map st !! n) as [a|]; [|done].
  destruct (0 <? Anchor.nref a) eqn:Hpos; simpl in Hput; [|done].
  exists a. split_and!; try done.
  destruct (1 <? Anchor.nref a) eqn:Hone; simpl in Hput.
  - left. split; [lia|by simplify_eq].
  - right. split; [lia|].
    destruct dn as [[nm pin]|].
    + do 2 (case_bool_decide; simpl in Hput; [|done]). done.
    + do 2 (case_bool_decide; simpl in Hput; [|done]). by simplify_eq.
Qed.

Lemma put_ref_frame i :
  ∀ st st' k, put_ref i st = Some st' → k ∉ Inode.chain i →
    entry_at k st' = entry_at k st ∧ flagged_at k st' = flagged_at k st.
Proof.
  induction i as [n ty lj|n ty lj nm pin IH] using CInode_ind;
    intros st st' k Hput Hk; cbn [Inode.chain] in Hk;
    apply put_ref_inv in Hput as (a & Ha & Hf & [[Hone ->]|(Hone & _ & _ & Hrest)]).
  - unfold entry_at, flagged_at. cbn. by rewrite lookup_insert_ne by set_solver.
  - subst st'. apply entry_at_erased_ne. set_solver.
  - unfold entry_at, flagged_at. cbn. by rewrite lookup_insert_ne by set_solver.
  - apply (IH _ _ k) in Hrest as [-> ->]; [|set_solver].
    apply entry_at_erased_ne. set_solver.
Qed.

Lemma get_ref_bump_eq n ty lj dn st a :
  anchor_map st !! n = Some a → flagged_at n st = true → 0 < Anchor.nref a →
  get_ref (mk_CInode n ty lj dn) st
  = Some (set_anchor_map st
            (<[n := Anchor.set_nref (Anchor.nref a + 1) a]> (anchor_map st))).
Proof.
  intros Ha Hf Hpos. unfold flagged_at in Hf. simpl. rewrite Ha, Hf. simpl.
  by destruct (Z.ltb_spec 0 (Anchor.nref a)); [|lia].
Qed.

Lemma set_nref_redo a :
  Anchor.set_nref (Anchor.nref (Anchor.set_nref (Anchor.nref a - 1) a) + 1)
                  (Anchor.set_nref (Anchor.nref a - 1) a) = a.
Proof. destruct a. unfold Anchor.set_nref. cbn. f_equal. lia. Qed.

Lemma make_again a n p nm ty :
  Anchor.ino a = n → Anchor.dirino a = p → Anchor.d_name a = nm →
  Anchor.d_type a = ty → Anchor.nref a = 1 → Anchor.auth a = MDS_RANK_NONE →
  Anchor.make n p nm ty 1 = a.
Proof. destruct a. cbn. by intros -> -> -> -> -> ->. Qed.

(** The references [put_ref] has taken along a chain, [get_ref] gives back:
    the anchors of the chain and their tracked flags are as before, as long
    as the erased anchors were the ones [get_ref] makes. *)
Lemma put_get_cancel i :
  ∀ st st1 st1',
    NoDup (Inode.chain i) →
    chain_canonical i (anchor_map st) →
    put_ref i st = Some st1 →
    (∀ k, k ∈ Inode.chain i →
          anchor_map st1' !! k = anchor_map st1 !! k ∧
          flagged_at k st1' = flagged_at k st1) →
    ∃ st2, get_ref i st1' = Some st2 ∧
      (∀ k, k ∈ Inode.chain i →
            anchor_map st2 !! k = anchor_map st !! k ∧
            flagged_at k st2 = flagged_at k st).
Proof.
  induction i as [n ty lj|n ty lj nm pin IH] using CInode_ind;
    intros st st1 st1' Hnd [Hcan Hcanp] Hput Hagree;
    apply put_ref_inv in Hput
      as (a & Ha & Hf & [[Hone ->]|(Hone & Hdir & Hname & Hrest)]);
    destruct (Hcan a Ha) as (Hino & Hty & Hauth).
  - destruct (Hagree n) as [Han Hfn]; [cbn; set_solver|].
    cbn in Han. rewrite lookup_insert_eq in Han.
    assert (flagged_at n st1' = true) as Hfn1 by (by rewrite Hfn).
    assert (0 < Anchor.nref (Anchor.set_nref (Anchor.nref a - 1) a)) as Hpos1
      by (cbn; lia).
    rewrite (get_ref_bump_eq _ _ _ _ _ _ Han Hfn1 Hpos1).
    eexists. split; [done|]. intros k ->%list_elem_of_singleton.
    split; [|by rewrite Hf].
    cbn [anchor_map set_anchor_map]. by rewrite lookup_insert_eq, set_nref_redo.
  - subst st1. destruct (Hagree n) as [Han Hfn]; [cbn; set_solver|].
    unfold erased in Han. cbn in Han. rewrite lookup_delete_eq in Han.
    rewrite get_ref_create by done.
    eexists. split; [done|]. intros k ->%list_elem_of_singleton.
    unfold flagged_at, created. cbn. rewrite lookup_insert_eq, Ha.
    split; [f_equal; by apply make_again|].
    rewrite bool_decide_eq_true_2 by set_solver. done.
  - destruct (Hagree n) as [Han Hfn]; [cbn; set_solver|].
    cbn in Han. rewrite lookup_insert_eq in Han.
    assert (flagged_at n st1' = true) as Hfn1 by (by rewrite Hfn).
    assert (0 < Anchor.nref (Anchor.set_nref (Anchor.nref a - 1) a)) as Hpos1
      by (cbn; lia).
    rewrite (get_ref_bump_eq _ _ _ _ _ _ Han Hfn1 Hpos1).
    eexists. split; [done|]. intros k Hk.
    destruct (decide (k = n)) as [->|Hne].
    + split; [|by rewrite Hf].
      cbn [anchor_map set_anchor_map]. by rewrite lookup_insert_eq, set_nref_redo.
    + destruct (Hagree k Hk) as [Hak Hfk].
      cbn [anchor_map set_anchor_map] in Hak |- *.
      rewrite lookup_insert_ne in Hak by done.
      rewrite lookup_insert_ne by done. done.
  - cbn [Inode.chain] in Hnd. apply NoDup_cons in Hnd as [Hn Hnd].
    destruct (put_ref_frame pin _ _ n Hrest Hn) as [Hen Hfn].
    destruct (Hagree n) as [Han Hfn']; [cbn; set_solver|].
    assert (anchor_map st1 !! n = None) as Hnone.
    { unfold entry_at in Hen. injection Hen as -> _.
      unfold erased. cbn. by rewrite lookup_delete_eq. }
    rewrite Hnone in Han. rewrite get_ref_create by done.
    destruct (IH (erased n st) st1 (created n (Inode.ino pin) nm ty st1') Hnd)
      as (st2 & Hget & Hin); [|done| |].
    { apply (chain_canonical_ext pin (anchor_map st)); [|done].
      intros k Hk. unfold erased. cbn. rewrite lookup_delete_ne; [done|].
      intros ->. done. }
    { intros k Hk. assert (k ≠ n) as Hne by (intros ->; done).
      destruct (Hagree k) as [Hak Hfk]; [cbn; set_solver|].
      rewrite flagged_at_created, bool_decide_eq_false_2 by done.
      unfold created. cbn. by rewrite lookup_insert_ne. }
    exists st2. split; [done|]. intros k Hk. cbn [Inode.chain] in Hk.
    destruct (decide (k = n)) as [->|Hne].
    + destruct (get_ref_frame pin _ _ n Hget Hn) as [Hen2 Hfn2].
      rewrite entry_at_created, bool_decide_eq_true_2 in Hen2 by done.
      rewrite flagged_at_created, bool_decide_eq_true_2 in Hfn2 by done.
      unfold entry_at in Hen2. injection Hen2 as -> _. rewrite Ha, Hfn2, Hf.
      split; [f_equal; by apply make_again|done].
    + destruct (Hin k) as [Hak Hfk]; [set_solver|]. rewrite Hak, Hfk.
      destruct (entry_at_erased_ne n st k Hne) as [He Hfe].
      unfold entry_at in He. injection He as He _. split; [exact He|exact Hfe].
Qed.

Lemma set_parent_redo p nm a :
  Anchor.dirino a = p → Anchor.d_name a = nm →
  Anchor.set_parent p nm (Anchor.set_parent 0%N "" a) = a.
Proof. destruct a. unfold Anchor.set_parent. cbn. by intros -> ->. Qed.

(** X23.  [notify_unlink] followed by [notify_link] of the same inode under
    the same parent passes its assertions and gives back the anchor map and
    the tracked flags as they were, when the anchors along the chain of the
    parent are the ones [get_ref] makes for these inodes: what the unlink
    erased the link makes again.  The inode is dirty afterwards. *)
Theorem unlink_then_link_restores (i : CInode) (st st1 : OpenFileTable) :
  NoDup (Inode.chain i) →
  match Inode.get_parent_dn i with
  | Some (_, pin) => chain_canonical pin (anchor_map st)
  | None => True
  end →
  notify_unlink i st = Some st1 →
  ∃ st2, notify_link i st1 = Some st2 ∧
         anchor_map st2 = anchor_map st ∧
         tracked_by_oft st2 = tracked_by_oft st ∧
         is_Some (dirty_items st2 !! Inode.ino i).
Proof.
  intros Hnd Hcan Hunlink. destruct i as [n ty lj dn].
  unfold notify_unlink in Hunlink. unfold notify_link.
  change (Inode.ino (mk_CInode n ty lj dn)) with n in *.
  change (Inode.get_parent_dn (mk_CInode n ty lj dn)) with dn in *.
  destruct (anchor_map st !! n) as [a|] eqn:Ha; [|done].
  destruct (0 <? Anchor.nref a) eqn:Hpos; cbn [negb] in Hunlink; [|done].
  destruct dn as [[nm pin]|]; [|done].
  case_bool_decide as Hdir; cbn [negb] in Hunlink; [|done].
  case_bool_decide as Hname; cbn [negb] in Hunlink; [|done].
  cbn [Inode.chain] in Hnd. apply NoDup_cons in Hnd as [Hn Hnd].
  set (st_u := set_dirty_items _ _) in Hunlink.
  destruct (put_ref_frame pin st_u st1 n Hunlink Hn) as [Hen Hfn].
  assert (entry_at n st_u
          = (Some (Anchor.set_parent 0%N "" a),
             Some (default 0 (dirty_items st !! n)))) as Heu.
  { unfold entry_at, st_u. cbn.
    by rewrite lookup_insert_eq, emplace_lookup, bool_decide_eq_true_2. }
  rewrite Heu in Hen. injection Hen as Han Hdn. rewrite Han.
  cbn [Anchor.nref Anchor.set_parent Anchor.dirino Anchor.d_name].
  rewrite Hpos. cbn [negb].
  rewrite !bool_decide_eq_true_2 by done. cbn [negb].
  fold (Anchor.set_parent 0%N "" a). rewrite set_parent_redo by done.
  set (st_l := set_dirty_items _ _).
  destruct (put_get_cancel pin st_u st1 st_l Hnd) as (st2 & Hget & Hin).
  - apply (chain_canonical_ext pin (anchor_map st)); [|done].
    intros k Hk. unfold st_u. cbn. rewrite lookup_insert_ne; [done|].
    intros ->. done.
  - done.
  - intros k Hk. assert (k ≠ n) as Hne by (intros ->; done).
    unfold flagged_at, st_l. cbn. by rewrite lookup_insert_ne.
  - exists st2. split; [done|].
    assert (∀ k, anchor_map st2 !! k = anchor_map st !! k ∧
                 flagged_at k st2 = flagged_at k st) as Hall.
    { intros k. destruct (decide (k ∈ Inode.chain pin)) as [Hk|Hk].
      - destruct (Hin k Hk) as [-> ->].
        assert (k ≠ n) as Hne by (intros ->; done).
        unfold flagged_at, st_u. cbn. by rewrite lookup_insert_ne.
      - destruct (get_ref_frame pin st_l st2 k Hget Hk) as [Hek Hfk].
        unfold entry_at in Hek. injection Hek as Hak _. rewrite Hak, Hfk.
        destruct (decide (k = n)) as [->|Hne].
        + unfold flagged_at, st_l. cbn. rewrite lookup_insert_eq, Ha.
          split; [done|]. exact Hfn.
        + destruct (put_ref_frame pin st_u st1 k Hunlink Hk) as [Hek' Hfk'].
          unfold entry_at in Hek'. injection Hek' as Hak' _.
          unfold flagged_at, st_l, st_u in *. cbn in *.
          rewrite lookup_insert_ne in Hak' by done.
          rewrite lookup_insert_ne by done. by rewrite Hak', Hfk'. }
    split_and!.
    + apply map_eq. intros k. apply Hall.
    + apply set_eq. intros k. destruct (Hall k) as [_ Hfk].
      unfold flagged_at in Hfk.
      rewrite <- (bool_decide_eq_true (k ∈ tracked_by_oft st2)).
      rewrite <- (bool_decide_eq_true (k ∈ tracked_by_oft st)).
      by rewrite Hfk.
    + destruct (get_ref_grows pin n st_l st2 Hget) as [_ Hd]. apply Hd.
      unfold st_l. cbn. rewrite emplace_lookup, bool_decide_eq_true_2 by done.
      by eexists.
Qed.

Lemma unlink_then_link_restores_witness :
  ∃ st2, notify_link file_10 (default empty_table (notify_unlink file_10 after_add_10))
         = Some st2 ∧
         anchor_map st2 = anchor_map after_add_10 ∧
         tracked_by_oft st2 = tracked_by_oft after_add_10 ∧
         is_Some (dirty_items st2 !! Inode.ino file_10).
Proof.
  apply (unlink_then_link_restores file_10 after_add_10).
  - vm_compute. repeat constructor; set_solver.
  - split; [|done]. intros a Ha. vm_compute in Ha. by simplify_eq.
  - vm_compute. reflexivity.
Defined.

(** ** The completion of a commit *)

(** X24.  On a table whose committed sequence is not past the committing
    one, the completion of a commit that was acknowledged without error
    passes its assertions when it arrives before any later commit is
    started: the committed sequence catches up with the committing one, the
    count of commits in flight is back where it was before the commit, and
    a context of the caller is completed with the result. *)
Theorem commit_then_finish `{Encoding} (log_seq : N) (op_prio max_write_size : Z)
    (c : option Context) (r : Z) (st st' : OpenFileTable)
    (ops : list ObjectOperation) (fin : N * option Context) :
  (committed_log_seq st ≤ committing_log_seq st)%N →
  0 ≤ r →
  commit log_seq op_prio max_write_size c st = Some (st', ops, fin) →
  ∃ st'', _commit_finish r fin.1 fin.2 st' = Some st'' ∧
    committed_log_seq st'' = log_seq ∧ committing_log_seq st'' = log_seq ∧
    num_pending_commit st'' = num_pending_commit st ∧
    anchor_map st'' = anchor_map st ∧
    completed st''
    = completed st ++ match c with Some (C_Caller id) => [(id, r)] | _ => [] end.
Proof.
  intros Hseq Hr Hc.
  pose proof (commit_post _ _ _ _ _ _ Hc) as (Ha & _ & _ & _ & Hcs).
  pose proof (commit_commit_frame _ _ _ _ _ _ Hc)
    as (_ & Hcd & _ & _ & _ & _ & _ & _ & Hlog).
  pose proof (commit_pending _ _ _ _ _ _ Hc) as Hp.
  rewrite commit_stages in Hc.
  destruct (log_seq <? committing_log_seq st)%N eqn:Hlt; [done|].
  apply N.ltb_ge in Hlt. cbn in Ha, Hcs, Hcd, Hlog, Hp.
  assert (fin = (log_seq, c)) as -> by (cbv zeta in Hc; congruence).
  cbn [fst snd].
  unfold _commit_finish.
  destruct (Z.ltb_spec r 0); [lia|].
  rewrite Hcs, Hcd.
  destruct (N.leb_spec log_seq log_seq); [|lia].
  destruct (N.leb_spec (committed_log_seq st) log_seq); [|lia]. cbn [negb].
  destruct c as [[id|]|]; eexists; (split; [done|]); cbn;
    rewrite ?Hp, ?Ha, ?Hlog, ?app_nil_r; split_and!; try done; lia.
Qed.

Lemma commit_then_finish_witness :
  ∃ st'', _commit_finish 0 5 None after_commit_5 = Some st'' ∧
    committed_log_seq st'' = 5%N ∧ committing_log_seq st'' = 5%N ∧
    num_pending_commit st'' = num_pending_commit after_add_10 ∧
    anchor_map st'' = anchor_map after_add_10 ∧
    completed st'' = completed after_add_10 ++ [].
Proof.
  apply (@commit_then_finish toy_encoding 5 0 4096 None 0 after_add_10 after_commit_5
           (default [] ((λ x, x.1.2) <$> @commit toy_encoding 5 0 4096 None after_add_10))
           (5%N, None)).
  - vm_compute. discriminate.
  - lia.
  - vm_compute. reflexivity.
Defined.

(** X25.  The completions of commits have to arrive in the order of their
    sequences: once the completion of a commit has been taken, the
    completion of a commit with a smaller sequence fails its assertion,
    unless it reports a write error. *)
Theorem commit_finish_in_order (r1 r2 : Z) (s1 s2 : N)
    (fin1 fin2 : option Context) (st st' : OpenFileTable) :
  0 ≤ r1 → 0 ≤ r2 → (s1 < s2)%N →
  _commit_finish r2 s2 fin2 st = Some st' →
  _commit_finish r1 s1 fin1 st' = None.
Proof.
  intros Hr1 Hr2 Hlt Hfin. unfold _commit_finish in *.
  destruct (Z.ltb_spec r2 0); [lia|]. destruct (Z.ltb_spec r1 0); [lia|].
  destruct (s2 <=? committing_log_seq st)%N eqn:H2; cbn [negb] in Hfin; [|done].
  destruct (committed_log_seq st <=? s2)%N; cbn [negb] in Hfin; [|done].
  assert (committed_log_seq st' = s2 ∧ committing_log_seq st' = committing_log_seq st)
    as [Hcd Hcs] by (destruct fin2 as [[id|]|]; by simplify_eq).
  rewrite Hcd, Hcs.
  destruct (s1 <=? committing_log_seq st)%N; cbn [negb]; [|done].
  by destruct (N.leb_spec s2 s1); [lia|].
Qed.

Lemma commit_finish_in_order_witness :
  _commit_finish 0 3 None (default empty_table (_commit_finish 0 5 None after_commit_5))
  = None.
Proof.
  apply (commit_finish_in_order 0 0 3 5 None None after_commit_5); try lia.
  vm_compute. reflexivity.
Defined.

(** ** The waiters of the load *)

Lemma finish_contexts_completes `{MDSEnv} fuel ls :
  ∀ w w' id, finish_contexts (_prefetch_inodes fuel) ls w = Ok w' →
    C_Caller id ∈ ls → (id, 0) ∈ completed w'.1.
Proof.
  induction ls as [|c ls IH]; intros w w' id Hrun Hin.
  - by apply elem_of_nil in Hin.
  - unfold finish_contexts in Hrun. cbn [rfold] in Hrun.
    destruct (complete _ c 0 w) as [w1| |] eqn:Hc; cbn [rbind] in Hrun; try done.
    fold (finish_contexts (_prefetch_inodes fuel) ls w1) in Hrun.
    apply elem_of_cons in Hin as [<-|Hin]; [|by eapply IH].
    cbn in Hc. injection Hc as <-.
    apply finish_contexts_advances in Hrun as (_ & _ & [rest Hlog]).
    cbn in Hlog. rewrite Hlog. set_solver.
Qed.

(** X26.  The context handed to [load] is completed when the load ends,
    and it is completed with 0 whatever the load has found: a read that
    failed and a header or a value that does not decode are not reported to
    the waiter. *)
Theorem load_completes_its_waiter `{MDSEnv} `{Encoding} (fuel : nat) (id : nat)
    (op_r header_r values_r : Z) (first more : bool) (header_bl : bufferlist)
    (values : list (string * bufferlist)) (st st1 : OpenFileTable)
    (mc : mdcache_t) (w' : world) :
  load (Some (C_Caller id)) st = Some st1 →
  _load_finish fuel op_r header_r values_r first more header_bl values (st1, mc)
  = Ok (LoadFinished, w') →
  (id, 0) ∈ completed w'.1.
Proof.
  intros Hload Hrun.
  assert (∀ w1 x, load_out (_prefetch_inodes fuel) w1 = Ok x →
            C_Caller id ∈ waiting_for_load w1.1 →
            (id, 0) ∈ completed x.2.1) as Hout.
  { intros w1 x Hx Hin. unfold load_out in Hx.
    destruct (finish_contexts _ _ _) as [w2| |] eqn:Hfin; cbn [rbind] in Hx;
      try done.
    injection Hx as <-. cbn. by eapply finish_contexts_completes. }
  unfold load in Hload. destruct (load_done st); [done|]. injection Hload as <-.
  assert (∀ st2, waiting_for_load st2 = waiting_for_load st ++ [C_Caller id] →
                 C_Caller id ∈ waiting_for_load st2) as Hin.
  { intros st2 ->. set_solver. }
  unfold _load_finish, _load_finish_with in Hrun.
  destruct (op_r <? 0).
  { apply Hout in Hrun; [exact Hrun|]. cbn. destruct first; by apply Hin. }
  destruct (if first then _ else _) as [[st2 [|]]|] eqn:Hheader.
  - apply Hout in Hrun; [exact Hrun|]. apply Hin.
    destruct first; [|by simplify_eq].
    destruct (decode_u64 header_bl); by simplify_eq.
  - assert (waiting_for_load st2 = waiting_for_load st ++ [C_Caller id]) as Hw.
    { destruct first; [|by simplify_eq].
      destruct (decode_u64 header_bl); by simplify_eq. }
    destruct (load_values values (loaded_anchor_map st2)) as [m| |]; [| |done].
    + destruct more.
      * by destruct (last values) as [[k bl]|].
      * apply Hout in Hrun; [exact Hrun|]. by apply Hin.
    + unfold load_catch in Hrun. apply Hout in Hrun; [exact Hrun|]. by apply Hin.
  - unfold load_catch in Hrun. apply Hout in Hrun; [exact Hrun|]. by apply Hin.
Qed.

Lemma load_completes_its_waiter_witness :
  (1%nat, 0) ∈ completed after_corrupt.2.1.
Proof.
  apply (@load_completes_its_waiter sync_cache toy_encoding 2 1 0 0 0 true false
           [Byte.x05] (lr_values corrupt_page) empty_table loading []
           after_corrupt.2).
  - vm_compute. reflexivity.
  - vm_compute. reflexivity.
Defined.

(** ** The name of the object *)

Lemma dec_digit_spec d :
  (d < 10)%N → digit_value (dec_digit d) = d ∧ dec_digit d ≠ "-"%char.
Proof.
  intros Hd. rewrite <- (N2Nat.id d). assert (N.to_nat d < 10)%nat as Hn by lia.
  clear Hd. generalize dependent (N.to_nat d). clear d. intros n Hn.
  do 10 (destruct n as [|n]; [by split|]). lia.
Qed.

Lemma dec_value_app s1 s2 acc :
  dec_value (s1 +:+ s2) acc = dec_value s2 (dec_value s1 acc).
Proof.
  revert acc. induction s1 as [|c s1 IH]; intros acc; [done|].
  rewrite string_app_cons. cbn [dec_value]. by rewrite IH.
Qed.

(** [to_dec] puts the digits of [n] in front of [acc], the first of them
    not a sign. *)
Lemma to_dec_digits fuel :
  ∀ n acc, (n < 10 ^ N.of_nat (S fuel))%N →
    ∃ ds, to_dec (S fuel) n acc = (ds +:+ acc)%string ∧
          (∀ v, dec_value ds v = (v * 10 ^ N.of_nat (String.length ds) + n)%N) ∧
          (1 ≤ String.length ds ≤ S fuel)%nat ∧
          (∀ c s, ds = String c s → c ≠ "-"%char).
Proof.
  induction fuel as [|fuel IH]; intros n acc Hn.
  - exists (String (dec_digit (n mod 10)) ""). cbn [to_dec].
    assert (n / 10 = 0)%N as Hq by (apply N.div_small; simpl in Hn; lia).
    rewrite Hq. cbn.
    destruct (dec_digit_spec (n mod 10)) as [Hv Hs]; [apply N.mod_lt; lia|].
    split_and!; try done; try lia.
    + intros v. rewrite Hv. rewrite N.mod_small by (simpl in Hn; lia). lia.
    + intros c s [= <- _]. done.
  - change (to_dec (S (S fuel)) n acc)
      with (if (n / 10 =? 0)%N then String (dec_digit (n mod 10)) acc
            else to_dec (S fuel) (n / 10) (String (dec_digit (n mod 10)) acc)).
    destruct (dec_digit_spec (n mod 10)) as [Hv Hs]; [apply N.mod_lt; lia|].
    destruct (n / 10 =? 0)%N eqn:Hq.
    + apply N.eqb_eq in Hq.
      exists (String (dec_digit (n mod 10)) ""). cbn.
      split_and!; try done; try lia.
      * intros v. rewrite Hv. pose proof (N.div_mod n 10 ltac:(lia)). lia.
      * intros c s [= <- _]. done.
    + destruct (IH (n / 10)%N (String (dec_digit (n mod 10)) acc))
        as (ds & Hds & Hval & Hlen & Hsign).
      { apply N.Div0.div_lt_upper_bound. rewrite <- N.pow_succ_r'.
        by replace (N.succ (N.of_nat (S fuel))) with (N.of_nat (S (S fuel))) by lia. }
      exists (ds +:+ String (dec_digit (n mod 10)) "")%string.
      rewrite Hds, string_app_assoc. split_and!; try done.
      * intros v. rewrite dec_value_app, Hval. cbn [dec_value]. rewrite Hv.
        rewrite string_length_app. cbn [String.length].
        replace (N.of_nat (String.length ds + 1)) with (N.succ (N.of_nat (String.length ds)))
          by lia.
        rewrite N.pow_succ_r'.
        pose proof (N.div_mod n 10 ltac:(lia)). lia.
      * rewrite string_length_app. cbn [String.length]. lia.
      * rewrite string_length_app. cbn [String.length]. lia.
      * intros c s Heq. destruct ds as [|c' ds']; [cbn in Hlen; lia|].
        rewrite string_app_cons in Heq. injection Heq as <- _.
        by apply (Hsign c' ds').
Qed.

Lemma snprintf_d_reads_back v :
  - 2 ^ 31 ≤ v < 2 ^ 31 →
  dec_read (snprintf_d v) = v ∧ (String.length (snprintf_d v) ≤ 11)%nat.
Proof.
  intros Hv. unfold snprintf_d. destruct (Z.ltb_spec v 0) as [Hneg|Hpos].
  - destruct (to_dec_digits 9 (Z.to_N (- v)) "") as (ds & Hds & Hval & Hlen & _).
    { change (10 ^ N.of_nat 10)%N with 10000000000%N. lia. }
    rewrite Hds, string_app_nil_r. cbn [dec_read String.length].
    rewrite bool_decide_eq_true_2 by done. rewrite Hval. split; lia.
  - destruct (to_dec_digits 9 (Z.to_N v) "") as (ds & Hds & Hval & Hlen & Hsign).
    { change (10 ^ N.of_nat 10)%N with 10000000000%N. lia. }
    rewrite Hds, string_app_nil_r.
    destruct ds as [|c ds'] eqn:Heq; [cbn in Hlen; lia|]. rewrite <- Heq in *.
    split; [|lia]. unfold dec_read. rewrite Heq.
    rewrite bool_decide_eq_false_2 by (by apply (Hsign c ds')).
    rewrite <- Heq, Hval. lia.
Qed.

Lemma truncate_short n s : (String.length s ≤ n)%nat → truncate n s = s.
Proof.
  revert n. induction s as [|c s IH]; intros [|n] Hlen; cbn in *; try done; [lia|].
  rewrite IH; [done|lia].
Qed.

Lemma string_app_inv_tail (s1 s2 t : string) :
  (s1 +:+ t = s2 +:+ t)%string → s1 = s2.
Proof.
  revert s2. induction s1 as [|c s1 IH]; intros [|c2 s2] Heq.
  - done.
  - apply (f_equal String.length) in Heq.
    rewrite string_app_cons, string_app_nil_l in Heq. cbn [String.length] in Heq.
    rewrite string_length_app in Heq. lia.
  - apply (f_equal String.length) in Heq.
    rewrite string_app_cons, string_app_nil_l in Heq. cbn [String.length] in Heq.
    rewrite string_length_app in Heq. lia.
  - rewrite !string_app_cons in Heq. injection Heq as -> Heq.
    by rewrite (IH s2 Heq).
Qed.

Lemma to_int32_range z : - 2 ^ 31 ≤ to_int32 z < 2 ^ 31.
Proof.
  unfold to_int32. pose proof (Z.mod_pos_bound (z + 2 ^ 31) (2 ^ 32) ltac:(lia)). lia.
Qed.

(** X27.  The name of the object of a rank is [mds], the rank in decimal and
    [_openfiles], and the 30 bytes it is printed into never cut it short;
    two ranks get the same name only if they are the same 32-bit integer. *)
Theorem object_name_distinct (r1 r2 : mds_rank_t) :
  object_name r1 = ("mds" +:+ snprintf_d (to_int32 r1) +:+ "_openfiles")%string ∧
  (String.length (object_name r1) ≤ 24)%nat ∧
  (object_name r1 = object_name r2 ↔ to_int32 r1 = to_int32 r2).
Proof.
  assert (∀ r, object_name r
               = ("mds" +:+ snprintf_d (to_int32 r) +:+ "_openfiles")%string ∧
               (String.length (object_name r) ≤ 24)%nat) as Hname.
  { intros r. unfold object_name.
    destruct (snprintf_d_reads_back (to_int32 r) (to_int32_range r)) as [_ Hlen].
    assert (String.length ("mds" +:+ snprintf_d (to_int32 r) +:+ "_openfiles")
            ≤ 24)%nat as Hl.
    { rewrite !string_length_app. cbn [String.length]. lia. }
    rewrite truncate_short by lia. done. }
  destruct (Hname r1) as [H1 Hlen]. split_and!; try done. split.
  - intros Heq. rewrite H1 in Heq. destruct (Hname r2) as [H2 _].
    rewrite H2 in Heq. apply String.app_inj in Heq.
    apply string_app_inv_tail in Heq.
    destruct (snprintf_d_reads_back (to_int32 r1) (to_int32_range r1)) as [<- _].
    destruct (snprintf_d_reads_back (to_int32 r2) (to_int32_range r2)) as [<- _].
    by rewrite Heq.
  - intros Heq. unfold object_name. by rewrite Heq.
Qed.

Example object_name_examples :
  object_name 0 = "mds0_openfiles" ∧ object_name 12 = "mds12_openfiles" ∧
  object_name (-1) = "mds-1_openfiles" ∧
  @get_object_name sync_cache = "mds0_openfiles".
Proof. by vm_compute. Qed.

(** ** Parents *)

(** X28.  The hooks are called under a discipline of the cache, which
    [reachable_from] spells out: the inodes have numbers other than 0,
    [add_inode] is called for an inode that is not directly tracked, and
    [remove_inode] for one that is, that is, one that was added and not
    removed since.  In every state such calls lead to from a table without
    anchors, an anchor that names a parent directory has that directory
    anchored too, under its own number and with a count of at least one:
    the chain of parents of an anchor never leaves the anchor map. *)
Theorem parent_is_anchored (st0 st : OpenFileTable) (D : gset inodeno_t)
    (i : inodeno_t) (a : Anchor.t) :
  anchor_map st0 = ∅ → reachable_from st0 st D →
  anchor_map st !! i = Some a → Anchor.dirino a ≠ 0%N →
  ∃ p, anchor_map st !! Anchor.dirino a = Some p ∧ Anchor.ino p = Anchor.dirino a ∧
       1 ≤ Anchor.nref p.
Proof.
  intros Hempty Hreach Ha Hd.
  destruct (reachable_balanced st0 _ _ Hempty Hreach) as [HK HR].
  specialize (HR _ Hd).
  destruct (anchor_map st !! Anchor.dirino a) as [p|] eqn:Hp.
  { exists p. destruct (HK _ _ Hp) as (? & _ & ?). split_and!; try done. lia. }
  exfalso. unfold nref_of in HR. rewrite Hp in HR. simpl in HR.
  assert (0 < num_children (anchor_map st) (Anchor.dirino a)) as Hpos.
  { rewrite <-(insert_id (anchor_map st) i a), <-insert_delete_eq by done.
    rewrite num_children_insert_fresh by apply lookup_delete_eq.
    rewrite ind_same. unfold num_children. lia. }
  unfold direct in HR. case_bool_decide; lia.
Qed.

Lemma parent_is_anchored_witness :
  ∃ p, anchor_map after_add_10 !! Anchor.dirino (Anchor.make 16 1 "a" 8 1) = Some p ∧
       Anchor.ino p = Anchor.dirino (Anchor.make 16 1 "a" 8 1) ∧
       1 ≤ Anchor.nref p.
Proof.
  apply (parent_is_anchored empty_table after_add_10 ({[16%N]} ∪ ∅) 16%N).
  - reflexivity.
  - apply (reach_add empty_table empty_table ∅ file_10).
    + apply reach_start.
    + repeat constructor; done.
    + set_solver.
    + reflexivity.
  - reflexivity.
  - discriminate.
Defined.

(** The discipline is needed, and the assertions of the code do not
    enforce it for a directory: [remove_inode] of the directory of a tracked
    file, which was never added itself, passes every assertion, erases the
    anchor of the directory and leaves the anchor of the file naming it. *)
Example parent_erased_by_stray_remove :
  ∃ st, remove_inode dir_1 after_add_10 = Some st ∧
        anchor_map st !! 16%N = Some (Anchor.make 16 1 "a" 8 1) ∧
        anchor_map st !! 1%N = None.
Proof. eexists. split; [vm_compute; reflexivity|]. by vm_compute. Qed.

(** ** One prefetch *)

(** X29.  [prefetch_inodes] can be called once: after a call that returned,
    whatever it returned, a second call fails the assertion that the
    prefetch is idle. *)
Theorem prefetch_inodes_only_once `{MDSEnv} (fuel fuel' : nat) (w w' : world)
    (b : bool) :
  prefetch_inodes fuel w = Ok (w', b) →
  prefetch_inodes fuel' w' = Abort.
Proof.
  destruct w as [st mc]. unfold prefetch_inodes at 1.
  case_bool_decide as Hidle; cbn [negb]; [|done]. cbv zeta.
  assert (prefetch_state w'.1 ≠ IDLE → prefetch_inodes fuel' w' = Abort) as Hgo.
  { intros Hne. destruct w' as [st' mc']. unfold prefetch_inodes.
    by rewrite bool_decide_eq_false_2. }
  destruct (load_done (set_prefetch_state st DIR_INODES)); cbn [negb].
  - destruct (_prefetch_inodes fuel _) as [w1| |] eqn:Hrun; cbn [rbind]; try done.
    intros [= <- <-]. apply Hgo.
    destruct (prefetch_advances fuel 0%N 0 _ _ (or_introl Hrun)) as (_ & Hph & _).
    cbn in Hph. intros Heq. rewrite Heq in Hph. cbn in Hph. lia.
  - unfold wait_for_load.
    destruct (load_done (set_prefetch_state st DIR_INODES)); [done|].
    intros [= <- <-]. by apply Hgo.
Qed.

Lemma prefetch_inodes_only_once_witness :
  @prefetch_inodes async_cache 2
     (default (empty_table, []) (match @prefetch_inodes async_cache 2 (rebooted_loaded, [])
                                 with Ok x => Some x.1 | _ => None end))
  = Abort.
Proof.
  apply (@prefetch_inodes_only_once async_cache 2 2 (rebooted_loaded, []) _ true).
  vm_compute. reflexivity.
Defined.

(** ** The prefetch never stalls *)

(** X30.  [_prefetch_inodes] never returns with the prefetch stalled: when
    it returns, either the prefetch is [DONE] or at least one open is still
    counted, whose completion will drive the prefetch on. *)
Theorem prefetch_never_stalls `{MDSEnv} (fuel : nat) (w w' : world) :
  _prefetch_inodes fuel w = Ok w' →
  prefetch_state w'.1 = DONE ∨ 1 ≤ num_opening_inodes w'.1.
Proof.
  revert w w'. induction fuel as [|fuel IH]; intros [st mc] w' Hrun; [done|].
  change (_prefetch_inodes (S fuel) (st, mc))
    with (_prefetch_inodes_with (_prefetch_inodes fuel) (st, mc)) in Hrun.
  unfold _prefetch_inodes_with in Hrun.
  destruct (bool_decide (num_opening_inodes st = 0)); cbn [negb] in Hrun; [|done].
  cbv zeta in Hrun.
  change (prefetch_state (set_num_opening_inodes st 1)) with (prefetch_state st)
    in Hrun.
  assert (∀ pool ph, prefetch_state st = ph →
            (w1 ←r rfold (prefetch_entry (_prefetch_inodes fuel) pool)
                     (entries (loaded_anchor_map (set_num_opening_inodes st 1))).*1
                     (set_num_opening_inodes st 1, mc);
             _open_ino_finish_with (_prefetch_inodes fuel) 0%N 0 w1) = Ok w' →
            prefetch_state w'.1 = DONE ∨ 1 ≤ num_opening_inodes w'.1) as Hphase.
  { intros pool ph Hph Hrest.
    destruct (prefetch_loop_in_phase (_prefetch_inodes fuel) pool ph st mc Hph)
      as ([st1 mc1] & Hloop & Hst & Hnum & _).
    rewrite Hloop in Hrest. cbn [rbind fst] in *.
    unfold _open_ino_finish_with in Hrest.
    rewrite (bool_decide_eq_true_2 (0%N = 0%N)) in Hrest by done.
    rewrite andb_false_r in Hrest. cbn [rbind] in Hrest.
    set (mc2 := if bool_decide _ then _ else mc1) in Hrest.
    destruct (decide (num_opening_inodes st1 = 1)) as [Hone|Hmore].
    - rewrite bool_decide_eq_true_2 in Hrest by (cbn; lia).
      cbn [prefetch_state set_num_opening_inodes] in Hrest.
      destruct (prefetch_state st1) eqn:Hst1; try done.
      + by apply IH in Hrest.
      + destruct (finish_contexts _ _ _) as [w2| |] eqn:Hfin; cbn [rbind] in Hrest;
          try done.
        injection Hrest as <-. left.
        apply finish_contexts_advances in Hfin as (_ & Hrank & _).
        cbn in Hrank |- *. destruct (prefetch_state w2.1); cbn in Hrank; try lia.
        done.
    - rewrite bool_decide_eq_false_2 in Hrest by (cbn; lia).
      injection Hrest as <-. right. cbn. lia. }
  destruct (prefetch_state st) eqn:Hph; cbn [rbind] in Hrun; try done.
  - by apply (Hphase get_metadata_pool DIR_INODES).
  - by apply (Hphase get_first_data_pool FILE_INODES).
Qed.

Lemma prefetch_never_stalls_witness :
  prefetch_state after_prefetch.1 = DONE ∨ 1 ≤ num_opening_inodes after_prefetch.1.
Proof.
  apply (@prefetch_never_stalls sync_cache 2 (prefetching, [])).
  vm_compute. reflexivity.
Defined.

(** ** Reading the keys back *)

(** What [scan_llx] sees of a digit [snprintf_llx] prints. *)
Lemma hex_digit_scanned d :
  (d < 16)%N →
  xdigit (hex_digit d) = Some d ∧ digit_value (hex_digit d) = d ∧
  isspace (hex_digit d) = false ∧
  hex_digit d ≠ "-"%char ∧ hex_digit d ≠ "+"%char ∧
  hex_digit d ≠ "x"%char ∧ hex_digit d ≠ "X"%char.
Proof.
  intros Hd. rewrite <- (N2Nat.id d). assert (N.to_nat d < 16)%nat as Hn by lia.
  clear Hd. generalize dependent (N.to_nat d). clear d. intros n Hn.
  do 16 (destruct n as [|n]; [by split_and!|]). lia.
Qed.

Lemma hex_string_app s1 s2 : hex_string s1 → hex_string s2 → hex_string (s1 +:+ s2).
Proof.
  induction 1 as [d Hd|d s Hd _ IH]; intros H2; rewrite string_app_cons.
  - by apply hex_more.
  - apply hex_more; [done|]. by apply IH.
Qed.

Lemma to_hex_hex_string fuel :
  ∀ n acc, ∃ ds, to_hex (S fuel) n acc = (ds +:+ acc)%string ∧ hex_string ds.
Proof.
  induction fuel as [|fuel IH]; intros n acc.
  - exists (String (hex_digit (n mod 16)) ""). cbn [to_hex]. split.
    + by destruct (n / 16 =? 0)%N.
    + apply hex_one. apply N.mod_lt. lia.
  - change (to_hex (S (S fuel)) n acc)
      with (if (n / 16 =? 0)%N then String (hex_digit (n mod 16)) acc
            else to_hex (S fuel) (n / 16) (String (hex_digit (n mod 16)) acc)).
    destruct (n / 16 =? 0)%N.
    + exists (String (hex_digit (n mod 16)) ""). split; [done|].
      apply hex_one. apply N.mod_lt. lia.
    + destruct (IH (n / 16)%N (String (hex_digit (n mod 16)) acc)) as (ds & Hds & Hhex).
      exists (ds +:+ String (hex_digit (n mod 16)) "")%string.
      rewrite Hds, string_app_assoc. split; [done|].
      apply hex_string_app; [done|]. apply hex_one. apply N.mod_lt. lia.
Qed.

Lemma read_xdigits_hex_string s :
  hex_string s → ∀ acc any, read_xdigits s acc any = Some (hex_value s acc).
Proof.
  induction 1 as [d Hd|d s Hd _ IH]; intros acc any; cbn [read_xdigits hex_value];
    destruct (hex_digit_scanned d Hd) as (Hx & Hv & _); rewrite Hx, Hv.
  - done.
  - apply IH.
Qed.

Lemma scan_llx_hex_string s :
  hex_string s → (hex_value s 0 < 2 ^ 64)%N → scan_llx s = Some (hex_value s 0).
Proof.
  intros Hs Hv. unfold scan_llx.
  assert (skip_space s = s) as ->.
  { destruct Hs as [d Hd|d s Hd _]; cbn [skip_space];
      by destruct (hex_digit_scanned d Hd) as (_ & _ & -> & _). }
  assert (match s with
          | String c s' =>
              if bool_decide (c = "-"%char) then (true, s')
              else if bool_decide (c = "+"%char) then (false, s')
              else (false, s)
          | EmptyString => (false, s)
          end = (false, s)) as ->.
  { destruct Hs as [d Hd|d s Hd _];
      destruct (hex_digit_scanned d Hd) as (_ & _ & _ & Hm & Hp & _);
      by rewrite !bool_decide_eq_false_2 by done. }
  assert (strip_0x s = s) as ->.
  { destruct Hs as [d Hd|d s Hd Hs]; [done|].
    destruct Hs as [d2 Hd2|d2 s Hd2 _]; [done|].
    destruct (hex_digit_scanned d2 Hd2) as (_ & _ & _ & _ & _ & Hx & HX).
    unfold strip_0x. rewrite (bool_decide_eq_false_2 (hex_digit d2 = "x"%char)) by done.
    rewrite (bool_decide_eq_false_2 (hex_digit d2 = "X"%char)) by done.
    destruct s as [|c rest]; [done|]. cbn [orb]. by rewrite andb_false_r. }
  rewrite read_xdigits_hex_string by done.
  by destruct (N.leb_spec (2 ^ 64) (hex_value s 0)); [lia|].
Qed.

(** The loader of [toy_encoding] reads every key the commit writes as the
    inode number it was printed from. *)
Lemma scan_llx_snprintf_llx (k : inodeno_t) :
  @sscanf_llx toy_encoding (snprintf_llx k) = Some (k mod 2 ^ 64)%N.
Proof.
  cbn [sscanf_llx toy_encoding].
  destruct (snprintf_llx_value k) as [_ Hval].
  assert (hex_string (snprintf_llx k)) as Hs.
  { unfold snprintf_llx.
    destruct (to_hex_hex_string 15 (k mod 2 ^ 64)%N "") as (ds & -> & Hds).
    by rewrite string_app_nil_r. }
  rewrite scan_llx_hex_string; rewrite ?Hval; [done|done|].
  apply N.mod_lt. lia.
Qed.

Example scan_llx_examples :
  scan_llx "10" = Some 16%N ∧ scan_llx "a" = Some 10%N ∧ scan_llx "FF" = Some 255%N ∧
  scan_llx " 0x1f" = Some 31%N ∧ scan_llx "7z" = Some 7%N ∧
  scan_llx "g" = None ∧ scan_llx "" = None ∧
  scan_llx "ffffffffffffffff" = Some (2 ^ 64 - 1)%N ∧
  scan_llx "10000000000000000" = Some (2 ^ 64 - 1)%N.
Proof. vm_compute. by split_and!. Qed.

(** [committed_page] holds what the commit of scenario 2 sets. *)
Example committed_page_is_committed :
  ∃ st' op,
    @commit toy_encoding 5 0 4096 None after_add_10 = Some (st', [op], (5%N, None)) ∧
    op_set op = list_to_map (lr_values committed_page) ∧
    @decode_u64 toy_encoding (lr_header_bl committed_page) = op_header op.
Proof.
  eexists _, _. split; [vm_compute; reflexivity|]. split; vm_compute; reflexivity.
Qed.
